(** * SPHinXsys: neighbour search, boundary ghosts and body-bound reductions

    A shallow embedding of
    - [SPHBodyContactRelation::updateConfigurationForParticles]
      (for_2D_build/bodies/body_relation.hpp), and
    - the bounding, periodic, mirror and reduce dynamics of
      shared/particle_dynamics/general_dynamics/general_dynamics.cpp.

    [Real] is embedded as exact rational arithmetic ([Q]); equalities between
    computed coordinates are therefore stated with [==] ([Qeq]).  [int] is a
    32-bit two's-complement integer carried in [Z] with its wrap-around
    written out; [size_t] values are carried in [nat] (array indices) or [Z]
    (cell coordinates).  The 2D build is modelled: [Vecd] has two
    components.  A step is a function into [option] where the source indexes
    an array: it is [None] where the index is out of range; a step that may
    call [exit] returns a [Run].  Parts of the repository that the modelled
    functions call but that are not among the sources are modelled from the
    specification, and marked so. *)

From Stdlib Require Import ZArith QArith Qround Qabs Lia Lqa List Permutation String Bool.
From stdpp Require Import base list.

Import ListNotations.
Local Open Scope Z_scope.
Local Open Scope Q_scope.

(** ** Scalars and vectors *)

Definition Real := Q.

(** [a < b] on [Real] as a test. *)
Definition Qlt_bool (a b : Q) : bool := negb (Qle_bool b a).

(** The axis of a bounding condition ([int axis_], 0 or 1 in the 2D build). *)
Inductive Axis := AxisX | AxisY.

Record Vecd := mkVecd { vx : Real; vy : Real }.

(** [v[k]] *)
Definition vget (v : Vecd) (k : Axis) : Real :=
  match k with AxisX => vx v | AxisY => vy v end.

(** [v[k] = r] *)
Definition vset (v : Vecd) (k : Axis) (r : Real) : Vecd :=
  match k with
  | AxisX => mkVecd r (vy v)
  | AxisY => mkVecd (vx v) r
  end.

(** [Vecd(r)]: every component is [r]. *)
Definition Vecd_fill (r : Real) : Vecd := mkVecd r r.

Definition Vecd_add (a b : Vecd) : Vecd := mkVecd (vx a + vx b) (vy a + vy b).
Definition Vecd_sub (a b : Vecd) : Vecd := mkVecd (vx a - vx b) (vy a - vy b).

(** [v.normSqr()] *)
Definition normSqr (v : Vecd) : Real := vx v * vx v + vy v * vy v.

(** [v.norm() < s], decided without the square root: the norm is not
    negative, so it is below [s] exactly when [s] is positive and the squares
    compare. *)
Definition norm_lt_bool (v : Vecd) (s : Real) : bool :=
  Qlt_bool 0 s && Qlt_bool (normSqr v) (s * s).

(** Componentwise [==]. *)
Definition Vecd_equiv (a b : Vecd) : Prop := vx a == vx b /\ vy a == vy b.

(** ** Machine integers

    [int] is 32 bits wide; [to_int] is the conversion (and the wrap-around of
    an overflowing result). *)

Definition INT_MAX : Z := 2147483647.
Definition INT_MIN : Z := -2147483648.

Definition to_int (z : Z) : Z := ((z + 2147483648) mod 4294967296 - 2147483648)%Z.

Definition int_add (a b : Z) : Z := to_int (a + b).
Definition int_sub (a b : Z) : Z := to_int (a - b).

(** Modelled from the spec: the macros [SMAX] and [SMIN] are not in src; they
    clamp the window to the grid bounds, as the larger and the smaller of two
    values ([a > b ? a : b] and [a < b ? a : b]). *)
Definition SMAX (a b : Z) : Z := if (a >? b)%Z then a else b.
Definition SMIN (a b : Z) : Z := if (a <? b)%Z then a else b.

(** The values of [l] in [for (int l = lo; l <= hi; ++l)], for [hi < INT_MAX]. *)
Definition int_range (lo hi : Z) : list Z :=
  List.map (fun k => (lo + Z.of_nat k)%Z) (seq 0 (Z.to_nat (hi + 1 - lo))).

(** ** Outcome of a step that may terminate the run

    [Exit out status s] is [exit(status)] after printing [out], the state
    being [s] at that moment. *)

Inductive Run (S A : Type) : Type :=
| Return (a : A) (s : S)
| Exit (out : list string) (status : Z) (s : S).

Arguments Return {S A} a s.
Arguments Exit {S A} out status s.

(** [__FILE__] *)
Definition FILE_ : string := "general_dynamics.cpp".

(** Monadic fold over a list in [option]: the loop stops with [None] at the
    first step that has no defined result. *)
Fixpoint foldM {A B : Type} (f : B -> A -> option B) (l : list A) (b : B) : option B :=
  match l with
  | [] => Some b
  | x :: l' => match f b x with
               | Some b' => foldM f l' b'
               | None => None
               end
  end.

(** ** The particle container

    Flat per-attribute arrays indexed by particle index; real particles
    first, ghost particles in the trailing range. *)

Record BaseParticles := mkBaseParticles {
  total_real_particles_ : nat;
  number_of_ghost_particles_ : nat;
  pos_n_ : list Vecd;
  vel_n_ : list Vecd;
  dvel_dt_others_ : list Vecd;
  sorted_id_ : list nat
}.

(** All attribute arrays have one slot per particle, and the real particles
    are among them. *)
Definition particles_wf (ps : BaseParticles) : Prop :=
  length (vel_n_ ps) = length (pos_n_ ps) /\
  length (dvel_dt_others_ ps) = length (pos_n_ ps) /\
  length (sorted_id_ ps) = length (pos_n_ ps) /\
  (total_real_particles_ ps <= length (pos_n_ ps))%nat.

(** Modelled from the spec: [BaseParticles::insertAGhostParticle] is not in
    src.  It allocates a ghost slot in the trailing range, copying all
    attributes of the particle [index_i], and returns the new index.  The
    slot is a new one behind all the slots there are: that a later step may
    take again the slots of the ghosts of an earlier step, once
    [number_of_ghost_particles_] is reset, is not modelled.  [None] when
    [index_i] is no particle. *)
Definition insertAGhostParticle (index_i : nat) (ps : BaseParticles)
  : option (nat * BaseParticles) :=
  p ← pos_n_ ps !! index_i;
  v ← vel_n_ ps !! index_i;
  a ← dvel_dt_others_ ps !! index_i;
  sid ← sorted_id_ ps !! index_i;
  Some (length (pos_n_ ps),
        {| total_real_particles_ := total_real_particles_ ps;
           number_of_ghost_particles_ := S (number_of_ghost_particles_ ps);
           pos_n_ := pos_n_ ps ++ [p];
           vel_n_ := vel_n_ ps ++ [v];
           dvel_dt_others_ := dvel_dt_others_ ps ++ [a];
           sorted_id_ := sorted_id_ ps ++ [sid] |}).

(** [pos_n_[index_i] = p] on the container. *)
Definition set_pos_n (ps : BaseParticles) (pos : list Vecd) : BaseParticles :=
  {| total_real_particles_ := total_real_particles_ ps;
     number_of_ghost_particles_ := number_of_ghost_particles_ ps;
     pos_n_ := pos;
     vel_n_ := vel_n_ ps;
     dvel_dt_others_ := dvel_dt_others_ ps;
     sorted_id_ := sorted_id_ ps |}.

Definition set_vel_n (ps : BaseParticles) (vel : list Vecd) : BaseParticles :=
  {| total_real_particles_ := total_real_particles_ ps;
     number_of_ghost_particles_ := number_of_ghost_particles_ ps;
     pos_n_ := pos_n_ ps;
     vel_n_ := vel;
     dvel_dt_others_ := dvel_dt_others_ ps;
     sorted_id_ := sorted_id_ ps |}.

(** ** The cell linked list (uniform background grid) *)

(** [ListData]: a particle index and its position. *)
Definition ListData : Type := nat * Vecd.
Definition CellListDataVector : Type := list ListData.
Definition matrix_cell : Type := list (list CellListDataVector).

Record BaseMeshCellLinkedList := mkMesh {
  mesh_lower_bound_ : Vecd;
  grid_spacing_ : Real;
  number_of_cells_ : Z * Z;
  cell_linked_lists_ : matrix_cell
}.

(** The cell array has [number_of_cells_] rows and columns. *)
Definition mesh_shape (mesh : BaseMeshCellLinkedList) : Prop :=
  Z.of_nat (length (cell_linked_lists_ mesh)) = fst (number_of_cells_ mesh) /\
  Forall (fun row => Z.of_nat (length row) = snd (number_of_cells_ mesh))
         (cell_linked_lists_ mesh).

Definition clamp (z lo hi : Z) : Z := Z.max lo (Z.min z hi).

(** Modelled from the spec: [GridIndexFromPosition] ([cellFor]) is not in
    src.  It is [floor((position - lower_bound) / cell_spacing)] in each
    direction, clamped to the cells of the grid. *)
Definition GridIndexFromPosition (mesh : BaseMeshCellLinkedList) (position : Vecd) : Z * Z :=
  let rltpos := Vecd_sub position (mesh_lower_bound_ mesh) in
  (clamp (Qfloor (vx rltpos / grid_spacing_ mesh)) 0 (fst (number_of_cells_ mesh) - 1),
   clamp (Qfloor (vy rltpos / grid_spacing_ mesh)) 0 (snd (number_of_cells_ mesh) - 1)).

(** [cell_linked_lists[l][m].cell_list_data_] *)
Definition cell_at (cells : matrix_cell) (l m : Z) : option CellListDataVector :=
  if ((l <? 0) || (m <? 0))%Z then None
  else row ← cells !! Z.to_nat l; row !! Z.to_nat m.

(** Modelled from the spec: [InsertACellLinkedListDataEntry] ([insertEntry])
    is not in src.  It adds a single entry to the cell of [position]. *)
Definition InsertACellLinkedListDataEntry (index : nat) (position : Vecd)
    (mesh : BaseMeshCellLinkedList) : BaseMeshCellLinkedList :=
  let '(l, m) := GridIndexFromPosition mesh position in
  {| mesh_lower_bound_ := mesh_lower_bound_ mesh;
     grid_spacing_ := grid_spacing_ mesh;
     number_of_cells_ := number_of_cells_ mesh;
     cell_linked_lists_ :=
       alter (alter (fun cell => cell ++ [(index, position)]) (Z.to_nat m))
             (Z.to_nat l) (cell_linked_lists_ mesh) |}.

(** Every cell emptied. *)
Definition clear_cells (mesh : BaseMeshCellLinkedList) : BaseMeshCellLinkedList :=
  {| mesh_lower_bound_ := mesh_lower_bound_ mesh;
     grid_spacing_ := grid_spacing_ mesh;
     number_of_cells_ := number_of_cells_ mesh;
     cell_linked_lists_ :=
       replicate (Z.to_nat (fst (number_of_cells_ mesh)))
                 (replicate (Z.to_nat (snd (number_of_cells_ mesh))) []) |}.

(** Modelled from the spec: [UpdateCellLists] ([rebuild]) is not in src.  It
    clears every cell and re-inserts every current particle by computed cell
    coordinate. *)
Definition UpdateCellLists (entries : list ListData) (mesh : BaseMeshCellLinkedList)
  : BaseMeshCellLinkedList :=
  fold_left (fun g e => InsertACellLinkedListDataEntry (fst e) (snd e) g)
            entries (clear_cells mesh).

(** The entries of a body's particles: index and position, in index order. *)
Definition particle_entries (pos : list Vecd) : list ListData :=
  combine (seq 0 (length pos)) pos.

(** ** Bounding a body domain in an axis direction *)

(** The data of a [BoundingInAxisDirection] object: the axis, the body's
    domain bounds ([findBodyDomainBounds]), the cell spacing of its mesh and
    the body's particle spacing. *)
Record BoundingInAxisDirection := mkBounding {
  axis_ : Axis;
  body_lower_bound_ : Vecd;
  body_upper_bound_ : Vecd;
  cell_spacing_ : Real;
  particle_spacing_ : Real
}.

(** The particles, the cell linked list and the ghost index lists that the
    ghost-creating passes work on.  A periodic condition has one list per
    side ([ghost_particles_[0]] and [ghost_particles_[1]]); a mirror condition
    has one list, kept in [ghosts_lower_]. *)
Record GhostState := mkGhostState {
  particles_ : BaseParticles;
  mesh_cell_linked_list_ : BaseMeshCellLinkedList;
  ghosts_lower_ : list nat;
  ghosts_upper_ : list nat
}.

Module PeriodicConditionInAxisDirection.

(** Modelled from the spec: the constructor is not in src; before setup no
    translation is stored. *)
Definition initial_translation : Vecd := Vecd_fill 0.

Definition setPeriodicTranslation (b : BoundingInAxisDirection)
    (periodic_translation_ : Vecd) : Run Vecd unit :=
  let t := vset periodic_translation_ (axis_ b)
             (vget (body_upper_bound_ b) (axis_ b) - vget (body_lower_bound_ b) (axis_ b)) in
  if norm_lt_bool t (particle_spacing_ b)
  then Exit [(FILE_ ++ ":76")%string;
             " Periodic bounding failure: bounds not defined!"%string] 1%Z t
  else Return tt t.

(** [PeriodicBounding::checkLowerBound] *)
Definition checkLowerBound (b : BoundingInAxisDirection) (periodic_translation_ : Vecd)
    (index_i : nat) (ps : BaseParticles) : option BaseParticles :=
  p ← pos_n_ ps !! index_i;
  if Qlt_bool (vget p (axis_ b)) (vget (body_lower_bound_ b) (axis_ b))
  then Some (set_pos_n ps
               (<[index_i := vset p (axis_ b)
                               (vget p (axis_ b) + vget periodic_translation_ (axis_ b))]>
                  (pos_n_ ps)))
  else Some ps.

(** [PeriodicBounding::checkUpperBound] *)
Definition checkUpperBound (b : BoundingInAxisDirection) (periodic_translation_ : Vecd)
    (index_i : nat) (ps : BaseParticles) : option BaseParticles :=
  p ← pos_n_ ps !! index_i;
  if Qlt_bool (vget (body_upper_bound_ b) (axis_ b)) (vget p (axis_ b))
  then Some (set_pos_n ps
               (<[index_i := vset p (axis_ b)
                               (vget p (axis_ b) - vget periodic_translation_ (axis_ b))]>
                  (pos_n_ ps)))
  else Some ps.

Definition exec {S : Type} (dt : Real) (s : S) : Run S unit :=
  Exit [" Error: each step should be called separately."%string;
        (FILE_ ++ ":97")%string] 1%Z s.

Definition parallel_exec {S : Type} (dt : Real) (s : S) : Run S unit :=
  Exit [" Error: each step should be called separately."%string;
        (FILE_ ++ ":104")%string] 1%Z s.

End PeriodicConditionInAxisDirection.

Module CreatPeriodicGhostParticles.

Definition setupDynamics (st : GhostState) : GhostState :=
  {| particles_ := particles_ st;
     mesh_cell_linked_list_ := mesh_cell_linked_list_ st;
     ghosts_lower_ := [];
     ghosts_upper_ := [] |}.

Definition checkLowerBound (b : BoundingInAxisDirection) (periodic_translation_ : Vecd)
    (index_i : nat) (st : GhostState) : option GhostState :=
  particle_position ← pos_n_ (particles_ st) !! index_i;
  if Qlt_bool (vget (body_lower_bound_ b) (axis_ b)) (vget particle_position (axis_ b))
     && Qlt_bool (vget particle_position (axis_ b))
                 (vget (body_lower_bound_ b) (axis_ b) + cell_spacing_ b)
  then
    '(expected_particle_index, ps) ← insertAGhostParticle index_i (particles_ st);
    let translated_position := Vecd_add particle_position periodic_translation_ in
    Some {| particles_ := ps;
            mesh_cell_linked_list_ :=
              InsertACellLinkedListDataEntry expected_particle_index translated_position
                (mesh_cell_linked_list_ st);
            ghosts_lower_ := ghosts_lower_ st ++ [expected_particle_index];
            ghosts_upper_ := ghosts_upper_ st |}
  else Some st.

Definition checkUpperBound (b : BoundingInAxisDirection) (periodic_translation_ : Vecd)
    (index_i : nat) (st : GhostState) : option GhostState :=
  particle_position ← pos_n_ (particles_ st) !! index_i;
  if Qlt_bool (vget particle_position (axis_ b)) (vget (body_upper_bound_ b) (axis_ b))
     && Qlt_bool (vget (body_upper_bound_ b) (axis_ b) - cell_spacing_ b)
                 (vget particle_position (axis_ b))
  then
    '(expected_particle_index, ps) ← insertAGhostParticle index_i (particles_ st);
    let translated_position := Vecd_sub particle_position periodic_translation_ in
    Some {| particles_ := ps;
            mesh_cell_linked_list_ :=
              InsertACellLinkedListDataEntry expected_particle_index translated_position
                (mesh_cell_linked_list_ st);
            ghosts_lower_ := ghosts_lower_ st;
            ghosts_upper_ := ghosts_upper_ st ++ [expected_particle_index] |}
  else Some st.

(** Modelled from the spec: the driver of the create pass is not in src.
    Each step it clears the tracked ghost indices, then visits every real
    particle for the lower bound, then every real particle for the upper
    bound. *)
Definition exec (b : BoundingInAxisDirection) (periodic_translation_ : Vecd)
    (st : GhostState) : option GhostState :=
  let st0 := setupDynamics st in
  let reals := seq 0 (total_real_particles_ (particles_ st0)) in
  st1 ← foldM (fun s i => checkLowerBound b periodic_translation_ i s) reals st0;
  foldM (fun s i => checkUpperBound b periodic_translation_ i s) reals st1.

End CreatPeriodicGhostParticles.

Module MirrorBoundaryConditionInAxisDirection.

(** [MirrorBounding::mirrorInAxisDirection] *)
Definition mirrorInAxisDirection (particle_index_i : nat) (body_bound : Vecd)
    (axis_direction : Axis) (ps : BaseParticles) : option BaseParticles :=
  p ← pos_n_ ps !! particle_index_i;
  v ← vel_n_ ps !! particle_index_i;
  Some (set_vel_n
          (set_pos_n ps
             (<[particle_index_i :=
                  vset p axis_direction
                    (2 * vget body_bound axis_direction - vget p axis_direction)]>
                (pos_n_ ps)))
          (<[particle_index_i :=
               vset v axis_direction (vget v axis_direction * - (1))]>
             (vel_n_ ps))).

(** [CreatingGhostParticles::checkLowerBound] and [checkUpperBound] have
    one body up to the bound they mirror at. *)
Definition create_ghost (b : BoundingInAxisDirection) (body_bound : Vecd)
    (index_i : nat) (st : GhostState) : option GhostState :=
  '(expected_particle_index, ps) ← insertAGhostParticle index_i (particles_ st);
  ps' ← mirrorInAxisDirection expected_particle_index body_bound (axis_ b) ps;
  translated_position ← pos_n_ ps' !! expected_particle_index;
  Some {| particles_ := ps';
          mesh_cell_linked_list_ :=
            InsertACellLinkedListDataEntry expected_particle_index translated_position
              (mesh_cell_linked_list_ st);
          ghosts_lower_ := ghosts_lower_ st ++ [expected_particle_index];
          ghosts_upper_ := ghosts_upper_ st |}.

(** [CreatingGhostParticles::checkLowerBound] *)
Definition checkLowerBound (b : BoundingInAxisDirection)
    (index_i : nat) (st : GhostState) : option GhostState :=
  particle_position ← pos_n_ (particles_ st) !! index_i;
  if Qlt_bool (vget (body_lower_bound_ b) (axis_ b)) (vget particle_position (axis_ b))
     && Qlt_bool (vget particle_position (axis_ b))
                 (vget (body_lower_bound_ b) (axis_ b) + cell_spacing_ b)
  then create_ghost b (body_lower_bound_ b) index_i st
  else Some st.

(** [CreatingGhostParticles::checkUpperBound] *)
Definition checkUpperBound (b : BoundingInAxisDirection)
    (index_i : nat) (st : GhostState) : option GhostState :=
  particle_position ← pos_n_ (particles_ st) !! index_i;
  if Qlt_bool (vget particle_position (axis_ b)) (vget (body_upper_bound_ b) (axis_ b))
     && Qlt_bool (vget (body_upper_bound_ b) (axis_ b) - cell_spacing_ b)
                 (vget particle_position (axis_ b))
  then create_ghost b (body_upper_bound_ b) index_i st
  else Some st.

(** [checking_bound_], bound once at construction by the flag [positive]. *)
Definition checking_bound_ (positive : bool) :=
  if positive then checkUpperBound else checkLowerBound.

(** Modelled from the spec: the driver of the create pass is not in src.
    Ghost indices are reset to empty at the start of the step; then every
    real particle is visited with the bound check of its side. *)
Definition exec (positive : bool) (b : BoundingInAxisDirection)
    (st : GhostState) : option GhostState :=
  foldM (fun s i => checking_bound_ positive b i s)
        (seq 0 (total_real_particles_ (particles_ st)))
        {| particles_ := particles_ st;
           mesh_cell_linked_list_ := mesh_cell_linked_list_ st;
           ghosts_lower_ := [];
           ghosts_upper_ := ghosts_upper_ st |}.

End MirrorBoundaryConditionInAxisDirection.

(** ** Reductions over the particles of a body *)

(** [a > b ? a : b] and [a < b ? a : b] on [Real]. *)
Definition Real_max (a b : Real) : Real := if Qlt_bool b a then a else b.
Definition Real_min (a b : Real) : Real := if Qlt_bool a b then a else b.

(** Modelled from the spec: the reduce operations are not in src; they are
    the max-by-coordinate and min-by-coordinate combiners. *)
Definition ReduceUpperBound (x y : Vecd) : Vecd :=
  mkVecd (Real_max (vx x) (vx y)) (Real_max (vy x) (vy y)).
Definition ReduceLowerBound (x y : Vecd) : Vecd :=
  mkVecd (Real_min (vx x) (vx y)) (Real_min (vy x) (vy y)).

Module ParticleDynamicsReduce.

(** Modelled from the spec: the generic reduce driver is not in src.  The
    sequential reduce folds the per-particle mapping into the reference
    value with the combiner, over the real particles in index order. *)
Definition exec {R : Type} (initial_reference_ : R) (reduce_operation : R -> R -> R)
    (ReduceFunction : nat -> option R) (total_real_particles : nat) : option R :=
  foldM (fun temp i => x ← ReduceFunction i; Some (reduce_operation temp x))
        (seq 0 total_real_particles) initial_reference_.

(** The index ranges [[begin, begin + n)] of a partition given by the sizes
    of its blocks. *)
Fixpoint blocks (begin : nat) (sizes : list nat) : list (list nat) :=
  match sizes with
  | [] => []
  | n :: sizes' => seq begin n :: blocks (begin + n) sizes'
  end.

(** Modelled from the spec: the parallel reduce is not in src.  Each block
    of a partition of the index range is reduced from the reference value,
    and the partial results are joined with the combiner. *)
Definition parallel_exec {R : Type} (initial_reference_ : R)
    (reduce_operation : R -> R -> R) (ReduceFunction : nat -> option R)
    (sizes : list nat) : option R :=
  foldM (fun temp block =>
           part ← foldM (fun t i => x ← ReduceFunction i; Some (reduce_operation t x))
                        block initial_reference_;
           Some (reduce_operation temp part))
        (blocks 0 sizes) initial_reference_.

End ParticleDynamicsReduce.

(** [std::numeric_limits<double>::max()], the largest finite double:
    (2^53 - 1) * 2^971. *)
Definition max_real_number : Real :=
  inject_Z ((2 ^ 53 - 1) * 2 ^ 971).

(** [std::numeric_limits<double>::min()], the smallest positive normalised
    double: 2^-1022. *)
Definition min_real_number : Real := 1 # (2 ^ 1022).

Module BodyLowerBound.
Definition initial_reference_ : Vecd := Vecd_fill max_real_number.
Definition ReduceFunction (ps : BaseParticles) (index_i : nat) : option Vecd :=
  pos_n_ ps !! index_i.
Definition exec (ps : BaseParticles) : option Vecd :=
  ParticleDynamicsReduce.exec initial_reference_ ReduceLowerBound
    (ReduceFunction ps) (total_real_particles_ ps).
Definition parallel_exec (sizes : list nat) (ps : BaseParticles) : option Vecd :=
  ParticleDynamicsReduce.parallel_exec initial_reference_ ReduceLowerBound
    (ReduceFunction ps) sizes.
End BodyLowerBound.

Module BodyUpperBound.
Definition initial_reference_ : Vecd := Vecd_fill min_real_number.
Definition ReduceFunction (ps : BaseParticles) (index_i : nat) : option Vecd :=
  pos_n_ ps !! index_i.
Definition exec (ps : BaseParticles) : option Vecd :=
  ParticleDynamicsReduce.exec initial_reference_ ReduceUpperBound
    (ReduceFunction ps) (total_real_particles_ ps).
Definition parallel_exec (sizes : list nat) (ps : BaseParticles) : option Vecd :=
  ParticleDynamicsReduce.parallel_exec initial_reference_ ReduceUpperBound
    (ReduceFunction ps) sizes.
End BodyUpperBound.

(** ** Neighbourhoods and the contact relation builder *)

(** The interpolation kernel: its cut-off radius, and the weight and the
    derivative it gives for a displacement. *)
Record Kernel := mkKernel {
  GetCutOffRadius : Real;
  W : Vecd -> Real;
  dW : Vecd -> Real
}.

(** A neighbour entry: the neighbour's index, the displacement pointing from
    the neighbour to the origin particle, and the kernel value and gradient. *)
Record NeighborRelation := mkNeighborRelation {
  j_ : nat;
  r_ij_ : Vecd;
  W_ij_ : Real;
  dW_ij_ : Real
}.

Record Neighborhood := mkNeighborhood {
  current_size_ : nat;
  memory_size_ : nat;
  neighbor_list_ : list NeighborRelation
}.

(** The capacity counts the allocated slots. *)
Definition neighborhood_wf (nb : Neighborhood) : Prop :=
  memory_size_ nb = length (neighbor_list_ nb).

Definition neighbor_relation (kernel : Kernel) (displacement : Vecd)
    (i_index j_index : nat) : NeighborRelation :=
  {| j_ := j_index;
     r_ij_ := displacement;
     W_ij_ := W kernel displacement;
     dW_ij_ := dW kernel displacement |}.

(** Modelled from the spec: [createNeighborRelation] is not in src.  It
    appends an entry, growing the capacity by one. *)
Definition createNeighborRelation (neighborhood : Neighborhood) (kernel : Kernel)
    (displacement : Vecd) (i_index j_index : nat) : Neighborhood :=
  {| current_size_ := current_size_ neighborhood;
     memory_size_ := S (memory_size_ neighborhood);
     neighbor_list_ := neighbor_list_ neighborhood
                         ++ [neighbor_relation kernel displacement i_index j_index] |}.

(** Modelled from the spec: [initializeNeighborRelation] is not in src.  It
    overwrites the slot [current_count_of_neighbors] in place; [None] when
    there is no such slot. *)
Definition initializeNeighborRelation (neighborhood : Neighborhood)
    (current_count_of_neighbors : nat) (kernel : Kernel)
    (displacement : Vecd) (i_index j_index : nat) : option Neighborhood :=
  if (current_count_of_neighbors <? length (neighbor_list_ neighborhood))%nat
  then Some {| current_size_ := current_size_ neighborhood;
               memory_size_ := memory_size_ neighborhood;
               neighbor_list_ :=
                 <[current_count_of_neighbors :=
                     neighbor_relation kernel displacement i_index j_index]>
                   (neighbor_list_ neighborhood) |}
  else None.

Module SPHBodyContactRelation.

(** What the builder reads of one contact body: the cell linked list of
    the body, and the search range ([computeSearchRange]) and the kernel
    ([ChoosingKernel]) of the pair of bodies; these two functions are not in
    src. *)
Record ContactBody := mkContactBody {
  target_mesh_cell_linked_list : BaseMeshCellLinkedList;
  search_range_ : Z;
  current_kernel_ : Kernel
}.

(** The body of the innermost loop: one candidate of a cell. *)
Definition visit (cutoff_radius_sqr : Real) (current_kernel : Kernel)
    (particle_position : Vecd) (index_i : nat)
    (st : Neighborhood * nat) (target_particle : ListData)
  : option (Neighborhood * nat) :=
  let '(neighborhood, current_count_of_neighbors) := st in
  let displacement := Vecd_sub particle_position (snd target_particle) in
  if Qle_bool (normSqr displacement) cutoff_radius_sqr
  then
    neighborhood' ←
      (if (memory_size_ neighborhood <=? current_count_of_neighbors)%nat
       then Some (createNeighborRelation neighborhood current_kernel displacement
                    index_i (fst target_particle))
       else initializeNeighborRelation neighborhood current_count_of_neighbors
              current_kernel displacement index_i (fst target_particle));
    Some (neighborhood', S current_count_of_neighbors)
  else Some st.

(** The bounds of [l] and of [m] in the window loops. *)
Definition window (i search_range number_of_cells : Z) : list Z :=
  int_range (SMAX (int_sub i search_range) 0)
            (SMIN (int_add i search_range) (int_sub (to_int number_of_cells) 1)).

(** The body of the loop over [num], for the particle [index_i] at
    [particle_position] and one contact body. *)
Definition updateConfigurationForParticle (target : BaseMeshCellLinkedList)
    (search_range : Z) (current_kernel : Kernel)
    (index_i : nat) (particle_position : Vecd) (neighborhood : Neighborhood)
  : option Neighborhood :=
  let target_number_of_cells := number_of_cells_ target in
  let cutoff_radius_sqr := GetCutOffRadius current_kernel * GetCutOffRadius current_kernel in
  let target_cell_index := GridIndexFromPosition target particle_position in
  let i := to_int (fst target_cell_index) in
  let j := to_int (snd target_cell_index) in
  let target_cell_linked_lists := cell_linked_lists_ target in
  '(neighborhood', current_count_of_neighbors) ←
    foldM (fun st l =>
             foldM (fun st m =>
                      target_particles ← cell_at target_cell_linked_lists l m;
                      foldM (visit cutoff_radius_sqr current_kernel
                               particle_position index_i)
                            target_particles st)
                   (window j search_range (snd target_number_of_cells)) st)
          (window i search_range (fst target_number_of_cells))
          (neighborhood, 0%nat);
  Some {| current_size_ := current_count_of_neighbors;
          memory_size_ := memory_size_ neighborhood';
          neighbor_list_ := neighbor_list_ neighborhood' |}.

(** [updateConfigurationForParticles]; the parallel loop over [num] is run
    in index order, each turn writing the neighbourhood of its own
    particle. *)
Definition updateConfigurationForParticles (pos_n : list Vecd)
    (contact_sph_bodies_ : list ContactBody)
    (number_of_particles : nat) (get_particle_index : nat -> nat)
    (contact_configuration_ : list (list Neighborhood))
  : option (list (list Neighborhood)) :=
  foldM (fun cfg rb =>
           let '(relation_body_num, body) := rb in
           foldM (fun cfg num =>
                    let index_i := get_particle_index num in
                    particle_position ← pos_n !! index_i;
                    row ← cfg !! relation_body_num;
                    neighborhood ← row !! index_i;
                    neighborhood' ←
                      updateConfigurationForParticle
                        (target_mesh_cell_linked_list body) (search_range_ body)
                        (current_kernel_ body) index_i particle_position neighborhood;
                    Some (<[relation_body_num := <[index_i := neighborhood']> row]> cfg))
                 (seq 0 number_of_particles) cfg)
        (combine (seq 0 (length contact_sph_bodies_)) contact_sph_bodies_)
        contact_configuration_.

(** [contact_configuration_[relation_body_num][index_i]] *)
Definition configuration_at (contact_configuration_ : list (list Neighborhood))
    (relation_body_num index_i : nat) : option Neighborhood :=
  row ← contact_configuration_ !! relation_body_num; row !! index_i.

(** The neighbour entries that are valid after a build. *)
Definition neighbors (nb : Neighborhood) : list NeighborRelation :=
  take (current_size_ nb) (neighbor_list_ nb).

(** The exhaustive all-pairs search, as the spec words it: every particle
    of the source body whose squared distance to the origin particle is at
    most the squared cut-off radius is a neighbour. *)
Definition all_pairs_neighbors (current_kernel : Kernel) (index_i : nat)
    (particle_position : Vecd) (source : list ListData) : list NeighborRelation :=
  List.map (fun c => neighbor_relation current_kernel
                       (Vecd_sub particle_position (snd c)) index_i (fst c))
           (List.filter
              (fun c => Qle_bool (normSqr (Vecd_sub particle_position (snd c)))
                          (GetCutOffRadius current_kernel * GetCutOffRadius current_kernel))
              source).

(** A position lies within the bounds of the grid. *)
Definition in_grid_bounds (mesh : BaseMeshCellLinkedList) (p : Vecd) : Prop :=
  vx (mesh_lower_bound_ mesh) <= vx p /\
  vx p < vx (mesh_lower_bound_ mesh)
         + inject_Z (fst (number_of_cells_ mesh)) * grid_spacing_ mesh /\
  vy (mesh_lower_bound_ mesh) <= vy p /\
  vy p < vy (mesh_lower_bound_ mesh)
         + inject_Z (snd (number_of_cells_ mesh)) * grid_spacing_ mesh.

End SPHBodyContactRelation.

(** ** Relations between particle containers used in the statements *)

(** The particle [i] of [ps'] is the particle [i] of [ps] moved by [delta]
    along [ax]; nothing else differs between [ps] and [ps']. *)
Definition moved_in_axis (ps ps' : BaseParticles) (i : nat) (ax : Axis) (delta : Real) : Prop :=
  exists p p',
    pos_n_ ps !! i = Some p /\ pos_n_ ps' !! i = Some p' /\
    vget p' ax = vget p ax + delta /\
    (forall k, k <> ax -> vget p' k = vget p k) /\
    (forall j, j <> i -> pos_n_ ps' !! j = pos_n_ ps !! j) /\
    length (pos_n_ ps') = length (pos_n_ ps) /\
    vel_n_ ps' = vel_n_ ps /\
    dvel_dt_others_ ps' = dvel_dt_others_ ps /\
    sorted_id_ ps' = sorted_id_ ps /\
    total_real_particles_ ps' = total_real_particles_ ps /\
    number_of_ghost_particles_ ps' = number_of_ghost_particles_ ps.

(** ** Candidates of a window, for the statements *)

(** The concatenation of the lists [g x] for [x] in [xs], when each is
    defined. *)
Fixpoint collect {A C : Type} (g : A -> option (list C)) (xs : list A) : option (list C) :=
  match xs with
  | [] => Some []
  | x :: xs' =>
      match g x, collect g xs' with
      | Some ys, Some r => Some (ys ++ r)
      | _, _ => None
      end
  end.

(** The candidates that the window loops of the relation builder visit, in
    the order of the visit. *)
Definition window_candidates (target : BaseMeshCellLinkedList) (search_range : Z)
    (particle_position : Vecd) : option (list ListData) :=
  let target_cell_index := GridIndexFromPosition target particle_position in
  collect (fun l =>
             collect (fun m => cell_at (cell_linked_lists_ target) l m)
                     (SPHBodyContactRelation.window (to_int (snd target_cell_index))
                        search_range (snd (number_of_cells_ target))))
          (SPHBodyContactRelation.window (to_int (fst target_cell_index))
             search_range (fst (number_of_cells_ target))).

(** The test of the relation builder on a candidate. *)
Definition within_cutoff (current_kernel : Kernel) (particle_position : Vecd)
    (c : ListData) : bool :=
  Qle_bool (normSqr (Vecd_sub particle_position (snd c)))
           (GetCutOffRadius current_kernel * GetCutOffRadius current_kernel).

(** The neighbour entries of the accepted candidates among [cands]. *)
Definition accepted_relations (current_kernel : Kernel) (index_i : nat)
    (particle_position : Vecd) (cands : list ListData) : list NeighborRelation :=
  List.map (fun c => neighbor_relation current_kernel
                       (Vecd_sub particle_position (snd c)) index_i (fst c))
           (List.filter (within_cutoff current_kernel particle_position) cands).

(** A sequence of relation builds for one particle: each build has its grid
    state, search range, kernel and particle position. *)
Definition build_steps (index_i : nat)
    (steps : list (BaseMeshCellLinkedList * Z * Kernel * Vecd))
    (neighborhood : Neighborhood) : option Neighborhood :=
  foldM (fun nb step =>
           let '(target, search_range, kernel, position) := step in
           SPHBodyContactRelation.updateConfigurationForParticle
             target search_range kernel index_i position nb)
        steps neighborhood.

(** Equality of cell coordinates. *)
Definition same_cell (c1 c2 : Z * Z) : bool :=
  ((fst c1 =? fst c2) && (snd c1 =? snd c2))%Z.

(** ** The outcome of a ghost-creating pass, for the statements *)

(** The proximity tests of the bound checks. *)
Definition near_lower_bound (b : BoundingInAxisDirection) (p : Vecd) : bool :=
  Qlt_bool (vget (body_lower_bound_ b) (axis_ b)) (vget p (axis_ b))
  && Qlt_bool (vget p (axis_ b)) (vget (body_lower_bound_ b) (axis_ b) + cell_spacing_ b).

Definition near_upper_bound (b : BoundingInAxisDirection) (p : Vecd) : bool :=
  Qlt_bool (vget p (axis_ b)) (vget (body_upper_bound_ b) (axis_ b))
  && Qlt_bool (vget (body_upper_bound_ b) (axis_ b) - cell_spacing_ b) (vget p (axis_ b)).

(** The reflection of a position at the plane [body_bound] across
    [axis_direction], and of a velocity. *)
Definition mirrored_position (body_bound : Vecd) (axis_direction : Axis) (p : Vecd) : Vecd :=
  vset p axis_direction (2 * vget body_bound axis_direction - vget p axis_direction).

Definition mirrored_velocity (axis_direction : Axis) (v : Vecd) : Vecd :=
  vset v axis_direction (vget v axis_direction * - (1)).

Definition Vecd_zero : Vecd := Vecd_fill 0.

(** The state [st] with one ghost more: its attributes [gp], [gv], [a] and
    [sid] in the trailing slot, its index in the ghost list of the side, and
    the entry of the index at [reg] in the cell linked list. *)
Definition ghost_added (lower : bool) (st : GhostState) (gp gv a : Vecd) (sid : nat)
    (reg : Vecd) : GhostState :=
  let ps := particles_ st in
  {| particles_ :=
       {| total_real_particles_ := total_real_particles_ ps;
          number_of_ghost_particles_ := S (number_of_ghost_particles_ ps);
          pos_n_ := pos_n_ ps ++ [gp];
          vel_n_ := vel_n_ ps ++ [gv];
          dvel_dt_others_ := dvel_dt_others_ ps ++ [a];
          sorted_id_ := sorted_id_ ps ++ [sid] |};
     mesh_cell_linked_list_ :=
       InsertACellLinkedListDataEntry (length (pos_n_ ps)) reg (mesh_cell_linked_list_ st);
     ghosts_lower_ := if lower then ghosts_lower_ st ++ [length (pos_n_ ps)]
                      else ghosts_lower_ st;
     ghosts_upper_ := if lower then ghosts_upper_ st
                      else ghosts_upper_ st ++ [length (pos_n_ ps)] |}.

(** [st'] is [st] with one ghost for each particle of [origins], in that
    order: the ghost of the origin [i] has the position [gp] and the velocity
    [gv] of the position and velocity of [i], copies of its other attributes,
    and is entered in the cell linked list at [reg] of the position of [i]. *)
Definition ghosts_appended (lower : bool) (gp gv reg : Vecd -> Vecd) (origins : list nat)
    (st st' : GhostState) : Prop :=
  let ps := particles_ st in
  let ps' := particles_ st' in
  let L := length (pos_n_ ps) in
  pos_n_ ps' = pos_n_ ps ++ List.map (fun i => gp (nth i (pos_n_ ps) Vecd_zero)) origins
  /\ vel_n_ ps' = vel_n_ ps ++ List.map (fun i => gv (nth i (vel_n_ ps) Vecd_zero)) origins
  /\ dvel_dt_others_ ps'
     = dvel_dt_others_ ps ++ List.map (fun i => nth i (dvel_dt_others_ ps) Vecd_zero) origins
  /\ sorted_id_ ps' = sorted_id_ ps ++ List.map (fun i => nth i (sorted_id_ ps) 0%nat) origins
  /\ total_real_particles_ ps' = total_real_particles_ ps
  /\ number_of_ghost_particles_ ps'
     = (number_of_ghost_particles_ ps + length origins)%nat
  /\ ghosts_lower_ st'
     = ghosts_lower_ st ++ (if lower then seq L (length origins) else [])
  /\ ghosts_upper_ st'
     = ghosts_upper_ st ++ (if lower then [] else seq L (length origins))
  /\ mesh_cell_linked_list_ st'
     = fold_left (fun g e => InsertACellLinkedListDataEntry (fst e) (snd e) g)
         (combine (seq L (length origins))
                  (List.map (fun i => reg (nth i (pos_n_ ps) Vecd_zero)) origins))
         (mesh_cell_linked_list_ st).



(** [pg] and [vg] are the position [p] and the velocity [v] mirrored at the
    plane [body_bound] across [ax]: the coordinate along [ax] is reflected,
    the velocity component along [ax] is negated, the other components are
    those of [p] and [v]. *)
Definition mirror_image (body_bound : Vecd) (ax : Axis) (p v pg vg : Vecd) : Prop :=
  vget pg ax == 2 * vget body_bound ax - vget p ax
  /\ vget vg ax == - vget v ax
  /\ forall k, k <> ax -> vget pg k = vget p k /\ vget vg k = vget v k.

(** The bound and the proximity test of the side of a mirror condition. *)
Definition mirror_bound (positive : bool) (b : BoundingInAxisDirection) : Vecd :=
  if positive then body_upper_bound_ b else body_lower_bound_ b.

Definition mirror_near (positive : bool) (b : BoundingInAxisDirection) (p : Vecd) : bool :=
  if positive then near_upper_bound b p else near_lower_bound b p.

(** ** A small configuration, to instantiate the statements

    A body of three particles on a grid of 4 by 4 unit cells over
    [[0, 4] x [0, 4]], with unit cut-off radius; a periodic or mirror
    condition along the first axis. *)
Module Example.
Definition kernel : Kernel := mkKernel 1 (fun _ => 1) (fun _ => 0).
Definition positions : list Vecd :=
  [mkVecd (1 # 4) 2; mkVecd 1 (5 # 2); mkVecd (15 # 4) 2].
Definition particles : BaseParticles :=
  mkBaseParticles 3 0 positions
    [mkVecd 1 0; mkVecd 0 1; mkVecd (- (1)) 0]
    [mkVecd 0 0; mkVecd 0 0; mkVecd 0 0]
    [0%nat; 1%nat; 2%nat].
Definition empty_mesh : BaseMeshCellLinkedList := mkMesh (mkVecd 0 0) 1 (4, 4)%Z [].
Definition mesh : BaseMeshCellLinkedList :=
  UpdateCellLists (particle_entries positions) empty_mesh.
Definition bounding : BoundingInAxisDirection :=
  mkBounding AxisX (mkVecd 0 0) (mkVecd 4 4) 1 (1 # 2).
Definition state : GhostState := mkGhostState particles mesh [] [].
Definition neighborhood : Neighborhood :=
  mkNeighborhood 1 1 [mkNeighborRelation 7 (mkVecd 0 0) 0 0].
End Example.

(** ** Greatest and least coordinates, for the statements *)

(** [r] is the extreme one of the values [l] for the order [le]: every value
    is below it, and it is one of them. *)
Definition is_extremum (le : Real -> Real -> Prop) (r : Real) (l : list Real) : Prop :=
  (forall x, In x l -> le x r) /\ In r l.

Definition is_maximum : Real -> list Real -> Prop := is_extremum Qle.
Definition is_minimum : Real -> list Real -> Prop := is_extremum (fun a b => b <= a).

(** The coordinates along [k] of the real particles. *)
Definition real_coordinates (ps : BaseParticles) (k : Axis) : list Real :=
  List.map (fun p => vget p k) (take (total_real_particles_ ps) (pos_n_ ps)).

(** * Further functions of the sources *)

(** ** Random displacement of a particle *)

Module RandomizePartilePosition.

(** One value of the displacement,
    [dt * (((double)rand() / (RAND_MAX)) - 0.5) * 2.0 * particle_spacing_],
    for the value [r] that [rand()] returns; [RAND_MAX] is a positive
    constant of the platform. *)
Definition displacement (RAND_MAX : Z) (particle_spacing_ dt : Real) (r : Z) : Real :=
  dt * (inject_Z r / inject_Z RAND_MAX - (1 # 2)) * 2 * particle_spacing_.

(** [RandomizePartilePosition::Update]; [r0] and [r1] are the values of the
    two calls of [rand()], in the order of the loop over the components. *)
Definition Update (RAND_MAX : Z) (particle_spacing_ : Real) (r0 r1 : Z)
    (index_i : nat) (dt : Real) (pos : list Vecd) : option (list Vecd) :=
  p ← pos !! index_i;
  Some (<[index_i := mkVecd (vx p + displacement RAND_MAX particle_spacing_ dt r0)
                            (vy p + displacement RAND_MAX particle_spacing_ dt r1)]> pos).

End RandomizePartilePosition.

(** ** The cells of the body domain bounds *)

(** The conversion of a floored value to [size_t], 64 bits wide: defined for
    the values [size_t] holds, and for no other. *)
Definition to_size_t (z : Z) : option Z :=
  if ((0 <=? z) && (z <? 18446744073709551616))%Z then Some z else None.

Module BoundingBodyDomain.

(** [BoundingBodyDomain::SetCellBounds]: the cells [body_lower_bound_cell_]
    and [body_upper_bound_cell_] of the two corners of the body domain.  A
    quotient by a zero cell spacing is no finite value, and its conversion to
    [size_t] is not defined. *)
Definition SetCellBounds (body_lower_bound_ body_upper_bound_ mesh_lower_bound_ : Vecd)
    (cell_spacing_ : Real) : option ((Z * Z) * (Z * Z)) :=
  if Qeq_bool cell_spacing_ 0 then None else
  let rltpos := Vecd_sub body_lower_bound_ mesh_lower_bound_ in
  l0 ← to_size_t (Qfloor (vx rltpos / cell_spacing_));
  l1 ← to_size_t (Qfloor (vy rltpos / cell_spacing_));
  let rltpos := Vecd_sub body_upper_bound_ mesh_lower_bound_ in
  u0 ← to_size_t (Qfloor (vx rltpos / cell_spacing_));
  u1 ← to_size_t (Qfloor (vy rltpos / cell_spacing_));
  Some ((l0, l1), (u0, u1)).

End BoundingBodyDomain.

(** ** Periodic condition on the cell linked list *)

Module PeriodicCellLinkedList.

(** [PeriodicCellLinkedList::checkUpperBound] *)
Definition checkUpperBound (b : BoundingInAxisDirection) (periodic_translation_ : Vecd)
    (list_data : ListData) (mesh : BaseMeshCellLinkedList) : BaseMeshCellLinkedList :=
  let particle_position := snd list_data in
  if Qlt_bool (vget particle_position (axis_ b)) (vget (body_upper_bound_ b) (axis_ b))
     && Qlt_bool (vget (body_upper_bound_ b) (axis_ b) - cell_spacing_ b)
                 (vget particle_position (axis_ b))
  then
    let translated_position := Vecd_sub particle_position periodic_translation_ in
    InsertACellLinkedListDataEntry (fst list_data) translated_position mesh
  else mesh.

(** [PeriodicCellLinkedList::checkLowerBound] *)
Definition checkLowerBound (b : BoundingInAxisDirection) (periodic_translation_ : Vecd)
    (list_data : ListData) (mesh : BaseMeshCellLinkedList) : BaseMeshCellLinkedList :=
  let particle_position := snd list_data in
  if Qlt_bool (vget (body_lower_bound_ b) (axis_ b)) (vget particle_position (axis_ b))
     && Qlt_bool (vget particle_position (axis_ b))
                 (vget (body_lower_bound_ b) (axis_ b) + cell_spacing_ b)
  then
    let translated_position := Vecd_add particle_position periodic_translation_ in
    InsertACellLinkedListDataEntry (fst list_data) translated_position mesh
  else mesh.

End PeriodicCellLinkedList.

(** ** Updating the ghost particles *)

(** Modelled from the spec: [BaseParticles::updateFromAnotherParticle] is not
    in src.  It re-derives the state of the particle [this_index] from the
    particle [another_index]: position, velocity and acceleration are copied;
    the sorted identity, by which the origin is looked up, stays.  [None] when
    one of the two is no particle. *)
Definition updateFromAnotherParticle (this_index another_index : nat) (ps : BaseParticles)
  : option BaseParticles :=
  p ← pos_n_ ps !! another_index;
  v ← vel_n_ ps !! another_index;
  a ← dvel_dt_others_ ps !! another_index;
  if ((this_index <? length (pos_n_ ps)) && (this_index <? length (vel_n_ ps))
      && (this_index <? length (dvel_dt_others_ ps)))%nat
  then Some {| total_real_particles_ := total_real_particles_ ps;
               number_of_ghost_particles_ := number_of_ghost_particles_ ps;
               pos_n_ := <[this_index := p]> (pos_n_ ps);
               vel_n_ := <[this_index := v]> (vel_n_ ps);
               dvel_dt_others_ := <[this_index := a]> (dvel_dt_others_ ps);
               sorted_id_ := sorted_id_ ps |}
  else None.

Module UpdatePeriodicGhostParticles.

(** [UpdatePeriodicGhostParticles::checkLowerBound] *)
Definition checkLowerBound (periodic_translation_ : Vecd) (index_i : nat)
    (ps : BaseParticles) : option BaseParticles :=
  another ← sorted_id_ ps !! index_i;
  ps' ← updateFromAnotherParticle index_i another ps;
  p ← pos_n_ ps' !! index_i;
  Some (set_pos_n ps' (<[index_i := Vecd_add p periodic_translation_]> (pos_n_ ps'))).

(** [UpdatePeriodicGhostParticles::checkUpperBound] *)
Definition checkUpperBound (periodic_translation_ : Vecd) (index_i : nat)
    (ps : BaseParticles) : option BaseParticles :=
  another ← sorted_id_ ps !! index_i;
  ps' ← updateFromAnotherParticle index_i another ps;
  p ← pos_n_ ps' !! index_i;
  Some (set_pos_n ps' (<[index_i := Vecd_sub p periodic_translation_]> (pos_n_ ps'))).

(** [UpdatePeriodicGhostParticles::exec]: the ghosts of the lower side, then
    those of the upper side. *)
Definition exec (periodic_translation_ : Vecd) (st : GhostState) : option GhostState :=
  ps1 ← foldM (fun ps g => checkLowerBound periodic_translation_ g ps)
              (ghosts_lower_ st) (particles_ st);
  ps2 ← foldM (fun ps g => checkUpperBound periodic_translation_ g ps)
              (ghosts_upper_ st) ps1;
  Some {| particles_ := ps2;
          mesh_cell_linked_list_ := mesh_cell_linked_list_ st;
          ghosts_lower_ := ghosts_lower_ st;
          ghosts_upper_ := ghosts_upper_ st |}.

(** [UpdatePeriodicGhostParticles::parallel_exec]: the iterations of each
    of the two [parallel_for] loops take effect in some order of the ghost
    list, [order_lower] and [order_upper]. *)
Definition parallel_exec (order_lower order_upper : list nat)
    (periodic_translation_ : Vecd) (st : GhostState) : option GhostState :=
  ps1 ← foldM (fun ps g => checkLowerBound periodic_translation_ g ps)
              order_lower (particles_ st);
  ps2 ← foldM (fun ps g => checkUpperBound periodic_translation_ g ps)
              order_upper ps1;
  Some {| particles_ := ps2;
          mesh_cell_linked_list_ := mesh_cell_linked_list_ st;
          ghosts_lower_ := ghosts_lower_ st;
          ghosts_upper_ := ghosts_upper_ st |}.

End UpdatePeriodicGhostParticles.

Module MirrorBounding.

(** [MirrorBounding::checkLowerBound] *)
Definition checkLowerBound (b : BoundingInAxisDirection) (index_i : nat)
    (ps : BaseParticles) : option BaseParticles :=
  p ← pos_n_ ps !! index_i;
  if Qlt_bool (vget p (axis_ b)) (vget (body_lower_bound_ b) (axis_ b))
  then MirrorBoundaryConditionInAxisDirection.mirrorInAxisDirection
         index_i (body_lower_bound_ b) (axis_ b) ps
  else Some ps.

(** [MirrorBounding::checkUpperBound] *)
Definition checkUpperBound (b : BoundingInAxisDirection) (index_i : nat)
    (ps : BaseParticles) : option BaseParticles :=
  p ← pos_n_ ps !! index_i;
  if Qlt_bool (vget (body_upper_bound_ b) (axis_ b)) (vget p (axis_ b))
  then MirrorBoundaryConditionInAxisDirection.mirrorInAxisDirection
         index_i (body_upper_bound_ b) (axis_ b) ps
  else Some ps.

End MirrorBounding.

Module UpdatingGhostStates.

(** [UpdatingGhostStates::checkLowerBound] *)
Definition checkLowerBound (b : BoundingInAxisDirection) (index_i : nat)
    (ps : BaseParticles) : option BaseParticles :=
  another ← sorted_id_ ps !! index_i;
  ps' ← updateFromAnotherParticle index_i another ps;
  MirrorBoundaryConditionInAxisDirection.mirrorInAxisDirection
    index_i (body_lower_bound_ b) (axis_ b) ps'.

(** [UpdatingGhostStates::checkUpperBound] *)
Definition checkUpperBound (b : BoundingInAxisDirection) (index_i : nat)
    (ps : BaseParticles) : option BaseParticles :=
  another ← sorted_id_ ps !! index_i;
  ps' ← updateFromAnotherParticle index_i another ps;
  MirrorBoundaryConditionInAxisDirection.mirrorInAxisDirection
    index_i (body_upper_bound_ b) (axis_ b) ps'.

(** [checking_bound_update_], bound at construction by the flag [positive]. *)
Definition checking_bound_update_ (positive : bool) :=
  if positive then checkUpperBound else checkLowerBound.

(** [UpdatingGhostStates::exec] *)
Definition exec (positive : bool) (b : BoundingInAxisDirection) (st : GhostState)
  : option GhostState :=
  ps' ← foldM (fun ps g => checking_bound_update_ positive b g ps)
              (ghosts_lower_ st) (particles_ st);
  Some {| particles_ := ps';
          mesh_cell_linked_list_ := mesh_cell_linked_list_ st;
          ghosts_lower_ := ghosts_lower_ st;
          ghosts_upper_ := ghosts_upper_ st |}.

(** [UpdatingGhostStates::parallel_exec]: the iterations of the
    [parallel_for] loop take effect in some order [order] of the ghost list. *)
Definition parallel_exec (order : list nat) (positive : bool)
    (b : BoundingInAxisDirection) (st : GhostState) : option GhostState :=
  ps' ← foldM (fun ps g => checking_bound_update_ positive b g ps)
              order (particles_ st);
  Some {| particles_ := ps';
          mesh_cell_linked_list_ := mesh_cell_linked_list_ st;
          ghosts_lower_ := ghosts_lower_ st;
          ghosts_upper_ := ghosts_upper_ st |}.

End UpdatingGhostStates.

(** ** Reductions to a flag and to a scalar *)

(** [v.norm() > s], decided without the square root: the norm is not
    negative, so it exceeds [s] exactly when [s] is negative or the squares
    compare. *)
Definition norm_gt_bool (v : Vecd) (s : Real) : bool :=
  Qlt_bool s 0 || Qlt_bool (s * s) (normSqr v).

(** Modelled from the spec: the reduce operations [ReduceOR] and [ReduceMax]
    are not in src; they are the logical or and the larger of two values. *)
Definition ReduceOR (x y : bool) : bool := x || y.
Definition ReduceMax (x y : Real) : Real := Real_max x y.

Module VelocityBoundCheck.
Definition initial_reference_ : bool := false.
Definition ReduceFunction (velocity_bound_ : Real) (ps : BaseParticles) (index_i : nat)
  : option bool :=
  v ← vel_n_ ps !! index_i; Some (norm_gt_bool v velocity_bound_).
Definition exec (velocity_bound_ : Real) (ps : BaseParticles) : option bool :=
  ParticleDynamicsReduce.exec initial_reference_ ReduceOR
    (ReduceFunction velocity_bound_ ps) (total_real_particles_ ps).
Definition parallel_exec (velocity_bound_ : Real) (sizes : list nat) (ps : BaseParticles)
  : option bool :=
  ParticleDynamicsReduce.parallel_exec initial_reference_ ReduceOR
    (ReduceFunction velocity_bound_ ps) sizes.
End VelocityBoundCheck.

Module UpperFrontInXDirection.
Definition initial_reference_ : Real := 0.
Definition ReduceFunction (ps : BaseParticles) (index_i : nat) : option Real :=
  p ← pos_n_ ps !! index_i; Some (vx p).
Definition exec (ps : BaseParticles) : option Real :=
  ParticleDynamicsReduce.exec initial_reference_ ReduceMax
    (ReduceFunction ps) (total_real_particles_ ps).
End UpperFrontInXDirection.

(** ** Vocabulary of the update passes *)

(** The particles after an update of the ghosts [gs]: every ghost holds the
    position [gp] and the velocity [gv] of the values of its origin, the
    particle its sorted identity names, and a copy of the origin's
    acceleration; nothing else has changed. *)
Definition ghosts_updated (gp gv : Vecd -> Vecd) (gs : list nat) (ps ps' : BaseParticles)
  : Prop :=
  sorted_id_ ps' = sorted_id_ ps
  /\ total_real_particles_ ps' = total_real_particles_ ps
  /\ number_of_ghost_particles_ ps' = number_of_ghost_particles_ ps
  /\ length (pos_n_ ps') = length (pos_n_ ps)
  /\ (forall j, ~ In j gs ->
        pos_n_ ps' !! j = pos_n_ ps !! j
        /\ vel_n_ ps' !! j = vel_n_ ps !! j
        /\ dvel_dt_others_ ps' !! j = dvel_dt_others_ ps !! j)
  /\ (forall g o, In g gs -> sorted_id_ ps !! g = Some o ->
        pos_n_ ps' !! g = gp <$> pos_n_ ps !! o
        /\ vel_n_ ps' !! g = gv <$> vel_n_ ps !! o
        /\ dvel_dt_others_ ps' !! g = dvel_dt_others_ ps !! o).

(** The ghosts [gs] lie at or above the index [L] and their origins below. *)
Definition ghosts_point_below (L : nat) (gs : list nat) (ps : BaseParticles) : Prop :=
  forall g, In g gs ->
    (L <= g < length (pos_n_ ps))%nat
    /\ exists o, sorted_id_ ps !! g = Some o /\ (o < L)%nat.

(** A body after a create pass: three real particles and one ghost on each
    side, the ghost at index 3 of the particle 0 and the ghost at index 4 of
    the particle 2. *)
Module ExampleGhosts.
Definition particles : BaseParticles :=
  mkBaseParticles 3 2
    (Example.positions ++ [mkVecd (1 # 4) 2; mkVecd (15 # 4) 2])
    [mkVecd 1 0; mkVecd 0 1; mkVecd (- (1)) 0; mkVecd 0 0; mkVecd 0 0]
    [mkVecd 0 0; mkVecd 0 0; mkVecd 0 0; mkVecd 0 0; mkVecd 0 0]
    [0%nat; 1%nat; 2%nat; 0%nat; 2%nat].
Definition state : GhostState := mkGhostState particles Example.mesh [3%nat] [4%nat].
End ExampleGhosts.

(** * Diffusion and reaction properties (diffusion_reaction.cpp) *)

(** [Matd], a 2 x 2 matrix, by rows. *)
Record Matd := mkMatd { m00 : Real; m01 : Real; m10 : Real; m11 : Real }.

(** [Matd(x)]: the matrix with [x] on the diagonal. *)
Definition Matd_diag (x : Real) : Matd := mkMatd x 0 0 x.

Definition Matd_scale (s : Real) (m : Matd) : Matd :=
  mkMatd (s * m00 m) (s * m01 m) (s * m10 m) (s * m11 m).

Definition Matd_add (a b : Matd) : Matd :=
  mkMatd (m00 a + m00 b) (m01 a + m01 b) (m10 a + m10 b) (m11 a + m11 b).

(** [SimTK::outer]: the outer product of two vectors. *)
Definition outer (a b : Vecd) : Matd :=
  mkMatd (vx a * vx b) (vx a * vy b) (vy a * vx b) (vy a * vy b).

(** The matrix both diffusion classes hand to [inverseCholeskyDecomposition]:
    [diff_cf_ * Matd(1.0) + bias_diff_cf_ * SimTK::outer(direction, direction)]. *)
Definition diffusivity (diff_cf_ bias_diff_cf_ : Real) (direction : Vecd) : Matd :=
  Matd_add (Matd_scale diff_cf_ (Matd_diag 1))
           (Matd_scale bias_diff_cf_ (outer direction direction)).

(** The quadratic form [x^T m x] of a matrix. *)
Definition quadratic_form (m : Matd) (x : Vecd) : Real :=
  vx x * (m00 m * vx x + m01 m * vy x) + vy x * (m10 m * vx x + m11 m * vy x).

Definition dot (a b : Vecd) : Real := vx a * vx b + vy a * vy b.

Definition FILE_diffusion_reaction : string := "diffusion_reaction.cpp".

Module DirectionalDiffusion.

Record State := mkState {
  diff_cf_ : Real;
  bias_diff_cf_ : Real;
  bias_direction_ : Vecd;
  transformed_diffusivity_ : Matd
}.

(** [DirectionalDiffusion::initializeDirectionalDiffusivity];
    [inverseCholeskyDecomposition] is not in src and is a parameter. *)
Definition initializeDirectionalDiffusivity (inverseCholeskyDecomposition : Matd -> Matd)
    (diff_cf bias_diff_cf : Real) (bias_direction : Vecd) (d : State) : State :=
  let diff_i := diffusivity (diff_cf_ d) bias_diff_cf bias_direction in
  {| diff_cf_ := diff_cf_ d;
     bias_diff_cf_ := bias_diff_cf;
     bias_direction_ := bias_direction;
     transformed_diffusivity_ := inverseCholeskyDecomposition diff_i |}.

End DirectionalDiffusion.

Module LocalDirectionalDiffusion.

Record State := mkState {
  diff_cf_ : Real;
  bias_diff_cf_ : Real;
  local_bias_direction_ : list Vecd;
  local_transformed_diffusivity_ : list Matd
}.

(** [LocalDirectionalDiffusion::initializeLocalDiffusionProperties] *)
Definition initializeLocalDiffusionProperties (base_particles : BaseParticles) (d : State)
  : State :=
  fold_left (fun d _ =>
               {| diff_cf_ := diff_cf_ d;
                  bias_diff_cf_ := bias_diff_cf_ d;
                  local_bias_direction_ := local_bias_direction_ d ++ [Vecd_fill 0];
                  local_transformed_diffusivity_ :=
                    local_transformed_diffusivity_ d ++ [Matd_diag 0] |})
            (seq 0 (total_real_particles_ base_particles)) d.

(** The body of the loop of [setupLocalDiffusionProperties]; [None] when an
    index is out of the range of one of the vectors. *)
Definition setup_step (inverseCholeskyDecomposition : Matd -> Matd)
    (material_fiber : list Vecd) (d : State) (i : nat) : option State :=
  fiber ← material_fiber !! i;
  _ ← local_bias_direction_ d !! i;
  _ ← local_transformed_diffusivity_ d !! i;
  let diff_i := diffusivity (diff_cf_ d) (bias_diff_cf_ d) fiber in
  Some {| diff_cf_ := diff_cf_ d;
          bias_diff_cf_ := bias_diff_cf_ d;
          local_bias_direction_ := <[i := fiber]> (local_bias_direction_ d);
          local_transformed_diffusivity_ :=
            <[i := inverseCholeskyDecomposition diff_i]>
              (local_transformed_diffusivity_ d) |}.

(** [LocalDirectionalDiffusion::setupLocalDiffusionProperties]: the lines it
    prints are the value it returns; [inverseCholeskyDecomposition] is not in
    src and is a parameter. *)
Definition setupLocalDiffusionProperties (inverseCholeskyDecomposition : Matd -> Matd)
    (material_fiber : list Vecd) (d : State) : option (Run State (list string)) :=
  if negb (length material_fiber =? length (local_bias_direction_ d))%nat
  then Some (Exit [" Error:  material properties does not matrch"%string;
                   (FILE_diffusion_reaction ++ ":37")%string] 1%Z d)
  else
    d' ← foldM (setup_step inverseCholeskyDecomposition material_fiber)
               (seq 0 (length material_fiber)) d;
    Some (Return [" Local diffusion properties setup finished "%string] d').

End LocalDirectionalDiffusion.

(** [species[index][particle_i]] *)
Definition species_at (species : list (list Real)) (index particle_i : nat) : option Real :=
  values ← species !! index; values !! particle_i.

Module ElectroPhysiologyReaction.

Record State := mkState {
  k_a_ : Real;
  voltage_ : nat;
  gate_variable_ : nat;
  active_contraction_stress_ : nat
}.

(** [ElectroPhysiologyReaction::getLossRateActiveContractionStress]; the
    exponential function is a parameter. *)
Definition getLossRateActiveContractionStress (exp : Real -> Real) (r : State)
    (species : list (list Real)) (particle_i : nat) : option Real :=
  voltage ← species_at species (voltage_ r) particle_i;
  let voltage_dim := voltage * 100 - 80 in
  Some ((1 # 10) + (1 - (1 # 10)) * exp (- exp (- voltage_dim))).

(** [ElectroPhysiologyReaction::getProductionActiveContractionStress] *)
Definition getProductionActiveContractionStress (exp : Real -> Real) (r : State)
    (species : list (list Real)) (particle_i : nat) : option Real :=
  voltage ← species_at species (voltage_ r) particle_i;
  let voltage_dim := voltage * 100 - 80 in
  let factor := (1 # 10) + (1 - (1 # 10)) * exp (- exp (- voltage_dim)) in
  Some (factor * k_a_ r * (voltage_dim + 80)).

End ElectroPhysiologyReaction.

(** The rates below divide by [c_m_] and by [mu_2_ + voltage + Eps]; they
    are the code's where these are not zero (a quotient by zero is 0 here and
    an infinity or no number in the code). *)
Module AlievPanfilowModel.

Record State := mkState {
  k_ : Real;
  a_ : Real;
  b_ : Real;
  c_m_ : Real;
  mu_1_ : Real;
  mu_2_ : Real;
  epsilon_ : Real;
  voltage_ : nat;
  gate_variable_ : nat
}.

(** [AlievPanfilowModel::getProductionRateIonicCurrent] *)
Definition getProductionRateIonicCurrent (r : State) (species : list (list Real))
    (particle_i : nat) : option Real :=
  voltage ← species_at species (voltage_ r) particle_i;
  Some (- k_ r * voltage * (voltage * voltage - a_ r * voltage - voltage) / c_m_ r).

(** [AlievPanfilowModel::getLossRateIonicCurrent] *)
Definition getLossRateIonicCurrent (r : State) (species : list (list Real))
    (particle_i : nat) : option Real :=
  gate_variable ← species_at species (gate_variable_ r) particle_i;
  Some ((k_ r * a_ r + gate_variable) / c_m_ r).

(** [AlievPanfilowModel::getProductionRateGateVariable]; the constant [Eps]
    is not in src and is a parameter. *)
Definition getProductionRateGateVariable (Eps : Real) (r : State)
    (species : list (list Real)) (particle_i : nat) : option Real :=
  voltage ← species_at species (voltage_ r) particle_i;
  gate_variable ← species_at species (gate_variable_ r) particle_i;
  let temp := epsilon_ r + mu_1_ r * gate_variable / (mu_2_ r + voltage + Eps) in
  Some (- temp * k_ r * voltage * (voltage - b_ r - 1)).

(** [AlievPanfilowModel::getLossRateGateVariable] *)
Definition getLossRateGateVariable (Eps : Real) (r : State)
    (species : list (list Real)) (particle_i : nat) : option Real :=
  voltage ← species_at species (voltage_ r) particle_i;
  gate_variable ← species_at species (gate_variable_ r) particle_i;
  Some (epsilon_ r + mu_1_ r * gate_variable / (mu_2_ r + voltage + Eps)).

End AlievPanfilowModel.

(** * Properties *)

(** ** Arithmetic and vector facts *)

Lemma Qlt_bool_iff a b : Qlt_bool a b = true <-> a < b.
Proof.
  unfold Qlt_bool. rewrite negb_true_iff. split; intros H.
  - apply Qnot_le_lt. intros Hle. apply Qle_bool_iff in Hle. congruence.
  - destruct (Qle_bool b a) eqn:E; [|reflexivity].
    apply Qle_bool_iff in E. exfalso. apply (Qlt_not_le _ _ H E).
Qed.

Lemma Qlt_bool_false a b : Qlt_bool a b = false <-> b <= a.
Proof. unfold Qlt_bool. rewrite negb_false_iff. apply Qle_bool_iff. Qed.

Lemma Qlt_bool_spec a b : reflect (a < b) (Qlt_bool a b).
Proof.
  destruct (Qlt_bool a b) eqn:E; constructor.
  - now apply Qlt_bool_iff.
  - apply Qlt_bool_false in E. now apply Qle_not_lt.
Qed.

Lemma vget_vset_same v k r : vget (vset v k r) k = r.
Proof. destruct k; reflexivity. Qed.

Lemma vget_vset_other v k k' r : k <> k' -> vget (vset v k r) k' = vget v k'.
Proof. destruct k, k'; intros H; try reflexivity; congruence. Qed.

Lemma normSqr_axis_only (k : Axis) (t : Real) :
  normSqr (vset (Vecd_fill 0) k t) == t * t.
Proof. destruct k; unfold normSqr; simpl; ring. Qed.

Lemma norm_lt_bool_axis (k : Axis) (t s : Real) :
  norm_lt_bool (vset (Vecd_fill 0) k t) s = true <-> Qabs t < s.
Proof.
  unfold norm_lt_bool. rewrite andb_true_iff, !Qlt_bool_iff.
  rewrite normSqr_axis_only.
  split.
  - intros [Hs Hsq].
    apply Qabs_Qlt_condition. split.
    + apply Qnot_le_lt. intros Hle. nra.
    + apply Qnot_le_lt. intros Hle. nra.
  - intros H. apply Qabs_Qlt_condition in H. destruct H as [H1 H2].
    split; nra.
Qed.

(** ** Periodic condition: usage and setup *)

(** C8: for every [dt] and every state, [exec] and [parallel_exec] of the
    single-axis periodic condition report a diagnostic and terminate the run
    with status 1, and the state at termination is the state they were called
    in: no boundary work is done. *)
Theorem periodic_exec_rejected (S : Type) (dt : Real) (s : S) :
  (exists out, PeriodicConditionInAxisDirection.exec dt s = Exit out 1%Z s /\ out <> []) /\
  (exists out, PeriodicConditionInAxisDirection.parallel_exec dt s = Exit out 1%Z s /\ out <> []).
Proof.
  split; eexists; (split; [reflexivity | discriminate]).
Qed.

(** The setup fails exactly when the magnitude of the translation is below
    the particle spacing. *)
Lemma setPeriodicTranslation_exit_iff (b : BoundingInAxisDirection) :
  (exists out s,
      PeriodicConditionInAxisDirection.setPeriodicTranslation b
        PeriodicConditionInAxisDirection.initial_translation = Exit out 1%Z s)
  <-> Qabs (vget (body_upper_bound_ b) (axis_ b) - vget (body_lower_bound_ b) (axis_ b))
      < particle_spacing_ b.
Proof.
  unfold PeriodicConditionInAxisDirection.setPeriodicTranslation,
    PeriodicConditionInAxisDirection.initial_translation.
  rewrite <- norm_lt_bool_axis with (k := axis_ b).
  destruct (norm_lt_bool _ _); split.
  - reflexivity.
  - intros _. eauto.
  - intros (out & s & H). discriminate.
  - discriminate.
Qed.

(** C7 (amended): setup computes [upper_bound[axis] - lower_bound[axis]] and
    terminates the run with a diagnostic if and only if the magnitude of that
    translation is smaller than the particle spacing; otherwise it succeeds
    and stores the translation.  For bounds in order
    ([lower_bound[axis] <= upper_bound[axis]]) the magnitude is the
    translation itself. *)
Theorem setPeriodicTranslation_fails_iff (b : BoundingInAxisDirection) :
  ((exists out s,
       PeriodicConditionInAxisDirection.setPeriodicTranslation b
         PeriodicConditionInAxisDirection.initial_translation = Exit out 1%Z s)
   <-> Qabs (vget (body_upper_bound_ b) (axis_ b) - vget (body_lower_bound_ b) (axis_ b))
       < particle_spacing_ b)
  /\ (~ Qabs (vget (body_upper_bound_ b) (axis_ b) - vget (body_lower_bound_ b) (axis_ b))
        < particle_spacing_ b ->
      exists T,
        PeriodicConditionInAxisDirection.setPeriodicTranslation b
          PeriodicConditionInAxisDirection.initial_translation = Return tt T
        /\ vget T (axis_ b)
           = vget (body_upper_bound_ b) (axis_ b) - vget (body_lower_bound_ b) (axis_ b)
        /\ forall k, k <> axis_ b -> vget T k = 0)
  /\ (vget (body_lower_bound_ b) (axis_ b) <= vget (body_upper_bound_ b) (axis_ b) ->
      ((exists out s,
           PeriodicConditionInAxisDirection.setPeriodicTranslation b
             PeriodicConditionInAxisDirection.initial_translation = Exit out 1%Z s)
       <-> vget (body_upper_bound_ b) (axis_ b) - vget (body_lower_bound_ b) (axis_ b)
           < particle_spacing_ b)).
Proof.
  split; [apply setPeriodicTranslation_exit_iff|]. split.
  - intros Hn.
    unfold PeriodicConditionInAxisDirection.setPeriodicTranslation,
      PeriodicConditionInAxisDirection.initial_translation.
    destruct (norm_lt_bool _ _) eqn:E.
    + apply norm_lt_bool_axis in E. contradiction.
    + eexists. split; [reflexivity|]. split.
      * apply vget_vset_same.
      * intros k Hk. rewrite vget_vset_other by congruence. now destruct k.
  - intros Hord. rewrite setPeriodicTranslation_exit_iff.
    rewrite Qabs_pos; [reflexivity|]. lra.
Qed.

(** C7 as stated fails for bounds in inverted order: with lower bound 10 and
    upper bound 0 along the axis and particle spacing 1, the translation -10
    is smaller than the spacing, and the setup succeeds. *)
Lemma setPeriodicTranslation_inverted_bounds :
  ~ ((exists out s,
         PeriodicConditionInAxisDirection.setPeriodicTranslation
           (mkBounding AxisX (mkVecd 10 0) (mkVecd 0 0) 1 1)
           PeriodicConditionInAxisDirection.initial_translation = Exit out 1%Z s)
     <-> vget (mkVecd 0 0) AxisX - vget (mkVecd 10 0) AxisX < 1).
Proof.
  intros [_ H].
  destruct H as (out & s & H); [reflexivity | discriminate H].
Qed.

(** ** Periodic condition: wrapping the real particles *)

Lemma moved_in_axis_insert (ps : BaseParticles) (i : nat) (ax : Axis) (p : Vecd) (delta : Real) :
  pos_n_ ps !! i = Some p ->
  moved_in_axis ps
    (set_pos_n ps (<[i := vset p ax (vget p ax + delta)]> (pos_n_ ps))) i ax delta.
Proof.
  intros Hp. exists p, (vset p ax (vget p ax + delta)). simpl.
  split; [exact Hp|]. split.
  - apply list_lookup_insert_eq. now apply lookup_lt_Some in Hp.
  - split; [apply vget_vset_same|]. split.
    + intros k Hk. apply vget_vset_other. congruence.
    + split; [intros j Hj; apply list_lookup_insert_ne; congruence|].
      split; [apply length_insert|]. repeat split; reflexivity.
Qed.

(** C10: the wrapping pass changes a particle exactly when its coordinate
    along the axis is strictly below the lower bound (above the upper bound);
    the change adds (subtracts) one periodic translation to that coordinate
    and nothing else; inside the closed interval nothing changes; and a
    particle more than one period outside is still outside after one call. *)
Theorem periodic_bounding_frame (b : BoundingInAxisDirection) (T : Vecd)
    (i : nat) (ps : BaseParticles) (p : Vecd)
    (Hp : pos_n_ ps !! i = Some p) :
  (vget p (axis_ b) < vget (body_lower_bound_ b) (axis_ b) ->
     exists ps', PeriodicConditionInAxisDirection.checkLowerBound b T i ps = Some ps'
                 /\ moved_in_axis ps ps' i (axis_ b) (vget T (axis_ b)))
  /\ (~ vget p (axis_ b) < vget (body_lower_bound_ b) (axis_ b) ->
      PeriodicConditionInAxisDirection.checkLowerBound b T i ps = Some ps)
  /\ (vget (body_upper_bound_ b) (axis_ b) < vget p (axis_ b) ->
      exists ps', PeriodicConditionInAxisDirection.checkUpperBound b T i ps = Some ps'
                  /\ moved_in_axis ps ps' i (axis_ b) (- vget T (axis_ b)))
  /\ (~ vget (body_upper_bound_ b) (axis_ b) < vget p (axis_ b) ->
      PeriodicConditionInAxisDirection.checkUpperBound b T i ps = Some ps)
  /\ (~ vget T (axis_ b) == 0 ->
      ((exists ps' p', PeriodicConditionInAxisDirection.checkLowerBound b T i ps = Some ps'
                       /\ pos_n_ ps' !! i = Some p'
                       /\ ~ vget p' (axis_ b) == vget p (axis_ b))
       <-> vget p (axis_ b) < vget (body_lower_bound_ b) (axis_ b))
      /\ ((exists ps' p', PeriodicConditionInAxisDirection.checkUpperBound b T i ps = Some ps'
                          /\ pos_n_ ps' !! i = Some p'
                          /\ ~ vget p' (axis_ b) == vget p (axis_ b))
          <-> vget (body_upper_bound_ b) (axis_ b) < vget p (axis_ b)))
  /\ (vget p (axis_ b) + vget T (axis_ b) < vget (body_lower_bound_ b) (axis_ b) ->
      0 <= vget T (axis_ b) ->
      exists ps' p', PeriodicConditionInAxisDirection.checkLowerBound b T i ps = Some ps'
                     /\ pos_n_ ps' !! i = Some p'
                     /\ vget p' (axis_ b) < vget (body_lower_bound_ b) (axis_ b))
  /\ (vget (body_upper_bound_ b) (axis_ b) < vget p (axis_ b) - vget T (axis_ b) ->
      0 <= vget T (axis_ b) ->
      exists ps' p', PeriodicConditionInAxisDirection.checkUpperBound b T i ps = Some ps'
                     /\ pos_n_ ps' !! i = Some p'
                     /\ vget (body_upper_bound_ b) (axis_ b) < vget p' (axis_ b)).
Proof.
  assert (Hi : (i < length (pos_n_ ps))%nat) by now apply lookup_lt_Some in Hp.
  assert (HL : forall d,
             pos_n_ (set_pos_n ps (<[i := vset p (axis_ b) d]> (pos_n_ ps))) !! i
             = Some (vset p (axis_ b) d)).
  { intros d. simpl. now apply list_lookup_insert_eq. }
  unfold PeriodicConditionInAxisDirection.checkLowerBound,
    PeriodicConditionInAxisDirection.checkUpperBound.
  rewrite Hp. simpl.
  destruct (Qlt_bool_spec (vget p (axis_ b)) (vget (body_lower_bound_ b) (axis_ b)))
    as [Hlo | Hlo];
  destruct (Qlt_bool_spec (vget (body_upper_bound_ b) (axis_ b)) (vget p (axis_ b)))
    as [Hup | Hup].
  all: repeat match goal with |- _ /\ _ => split end.
  all: try (intros; reflexivity).
  all: try (intros; contradiction).
  all: try (intros _; eexists; split; [reflexivity | now apply moved_in_axis_insert]).
  all: try (intros HT; split; (split; [intros (ps' & p' & E & Hp' & Hne) | intros H]);
            first [ assumption
                  | contradiction
                  | inversion E; subst ps'; rewrite Hp in Hp'; inversion Hp'; subst p';
                    exfalso; apply Hne; reflexivity
                  | eexists; eexists; split; [reflexivity|]; split; [apply HL|];
                    rewrite vget_vset_same; intros Heq; apply HT; lra ]).
  all: try (intros H1 H2; first [ exfalso; lra
            | eexists; eexists; split; [reflexivity|]; split; [apply HL|];
              rewrite vget_vset_same; lra ]).
Qed.

Lemma periodic_bounding_frame_witness :
  exists ps',
    PeriodicConditionInAxisDirection.checkLowerBound
      (mkBounding AxisX (mkVecd 0 0) (mkVecd 10 4) 1 (1 # 2)) (mkVecd 10 0) 0
      (mkBaseParticles 1 0 [mkVecd (- (1 # 4)) 2] [mkVecd 1 0] [mkVecd 0 0] [0%nat])
    = Some ps'
    /\ moved_in_axis
         (mkBaseParticles 1 0 [mkVecd (- (1 # 4)) 2] [mkVecd 1 0] [mkVecd 0 0] [0%nat])
         ps' 0 AxisX 10.
Proof.
  apply (periodic_bounding_frame
           (mkBounding AxisX (mkVecd 0 0) (mkVecd 10 4) 1 (1 # 2)) (mkVecd 10 0) 0
           (mkBaseParticles 1 0 [mkVecd (- (1 # 4)) 2] [mkVecd 1 0] [mkVecd 0 0] [0%nat])
           (mkVecd (- (1 # 4)) 2)).
  - reflexivity.
  - reflexivity.
Defined.

(** ** The relation builder: overwrite and append *)

Lemma foldM_app {A B : Type} (f : B -> A -> option B) (l1 l2 : list A) (b : B) :
  foldM f (l1 ++ l2) b
  = match foldM f l1 b with Some b' => foldM f l2 b' | None => None end.
Proof.
  revert b. induction l1 as [|x l1 IH]; intros b; simpl; [reflexivity|].
  destruct (f b x); [apply IH | reflexivity].
Qed.

Lemma foldM_collect {A B C : Type} (g : A -> option (list C)) (f : B -> C -> option B)
    (xs : list A) (ys : list C) (b : B) :
  collect g xs = Some ys ->
  foldM (fun st x => c ← g x; foldM f c st) xs b = foldM f ys b.
Proof.
  revert ys b. induction xs as [|x xs IH]; intros ys b H; simpl in *.
  - now inversion H.
  - destruct (g x) as [c|]; [|discriminate].
    destruct (collect g xs) as [r|]; [|discriminate].
    inversion H; subst ys. simpl. rewrite foldM_app.
    destruct (foldM f c b); [now apply IH | reflexivity].
Qed.

Section Visit.
Variables (current_kernel : Kernel) (particle_position : Vecd) (index_i : nat).

Let cutoff_radius_sqr := GetCutOffRadius current_kernel * GetCutOffRadius current_kernel.
Let step := SPHBodyContactRelation.visit cutoff_radius_sqr current_kernel
              particle_position index_i.
Let entry (c : ListData) :=
  neighbor_relation current_kernel (Vecd_sub particle_position (snd c)) index_i (fst c).

(** A rejected candidate changes nothing. *)
Lemma visit_rejected nb count c :
  within_cutoff current_kernel particle_position c = false ->
  step (nb, count) c = Some (nb, count).
Proof.
  unfold step, SPHBodyContactRelation.visit, within_cutoff. simpl.
  fold cutoff_radius_sqr. now intros ->.
Qed.

(** Below the capacity an accepted candidate overwrites the slot at the
    running count. *)
Lemma visit_overwrites nb count c :
  neighborhood_wf nb ->
  within_cutoff current_kernel particle_position c = true ->
  (count < memory_size_ nb)%nat ->
  step (nb, count) c
  = Some ({| current_size_ := current_size_ nb;
             memory_size_ := memory_size_ nb;
             neighbor_list_ := <[count := entry c]> (neighbor_list_ nb) |}, S count).
Proof.
  unfold step, SPHBodyContactRelation.visit, within_cutoff, neighborhood_wf. simpl.
  fold cutoff_radius_sqr. intros Hwf -> Hlt.
  destruct (Nat.leb_spec (memory_size_ nb) count) as [Hle|_]; [lia|].
  unfold initializeNeighborRelation.
  destruct (Nat.ltb_spec count (length (neighbor_list_ nb))) as [_|Hge]; [|lia].
  reflexivity.
Qed.

(** At the capacity an accepted candidate is appended, and the capacity
    grows by one. *)
Lemma visit_appends nb count c :
  within_cutoff current_kernel particle_position c = true ->
  (memory_size_ nb <= count)%nat ->
  step (nb, count) c
  = Some ({| current_size_ := current_size_ nb;
             memory_size_ := S (memory_size_ nb);
             neighbor_list_ := neighbor_list_ nb ++ [entry c] |}, S count).
Proof.
  unfold step, SPHBodyContactRelation.visit, within_cutoff. simpl.
  fold cutoff_radius_sqr. intros -> Hle.
  destruct (Nat.leb_spec (memory_size_ nb) count) as [_|Hlt]; [|lia].
  reflexivity.
Qed.

(** The loop over a list of candidates, from a running count within the
    capacity. *)
Lemma visit_all cands : forall nb count,
  neighborhood_wf nb ->
  (count <= memory_size_ nb)%nat ->
  exists nb',
    foldM step cands (nb, count)
    = Some (nb', (count + length (accepted_relations current_kernel index_i
                                   particle_position cands))%nat)
    /\ neighbor_list_ nb'
       = take count (neighbor_list_ nb)
           ++ accepted_relations current_kernel index_i particle_position cands
           ++ drop (count + length (accepted_relations current_kernel index_i
                                      particle_position cands))
                   (neighbor_list_ nb)
    /\ memory_size_ nb'
       = Nat.max (memory_size_ nb)
           (count + length (accepted_relations current_kernel index_i
                              particle_position cands))
    /\ current_size_ nb' = current_size_ nb
    /\ neighborhood_wf nb'.
Proof.
  induction cands as [|c cands IH]; intros nb count Hwf Hc.
  - exists nb. simpl. rewrite Nat.add_0_r.
    split; [reflexivity|]. split; [now rewrite take_drop|].
    split; [lia|]. split; [reflexivity | exact Hwf].
  - cbn [foldM]. unfold accepted_relations in *. cbn [List.filter].
    destruct (within_cutoff current_kernel particle_position c) eqn:Hin.
    + cbn [List.map length]. fold (entry c).
      destruct (Nat.lt_ge_cases count (memory_size_ nb)) as [Hlt|Hge].
      * rewrite (visit_overwrites _ _ _ Hwf Hin Hlt).
        red in Hwf.
        edestruct (IH {| current_size_ := current_size_ nb;
                         memory_size_ := memory_size_ nb;
                         neighbor_list_ := <[count := entry c]> (neighbor_list_ nb) |}
                     (S count)) as (nb' & E & Hl & Hm & Hs & Hw).
        { red. simpl. now rewrite length_insert. }
        { simpl. lia. }
        exists nb'. simpl in *.
        rewrite Nat.add_succ_r. split; [exact E|].
        split; [|split; [lia | split; assumption]].
        rewrite Hl.
        rewrite drop_insert_lt by lia.
        erewrite take_S_r by (apply list_lookup_insert_eq; lia).
        rewrite take_insert_ge by lia.
        rewrite <- app_assoc. reflexivity.
      * rewrite (visit_appends _ _ _ Hin Hge).
        red in Hwf.
        edestruct (IH {| current_size_ := current_size_ nb;
                         memory_size_ := S (memory_size_ nb);
                         neighbor_list_ := neighbor_list_ nb ++ [entry c] |}
                     (S count)) as (nb' & E & Hl & Hm & Hs & Hw).
        { red. simpl. rewrite length_app. simpl. lia. }
        { simpl. lia. }
        exists nb'. simpl in *.
        rewrite Nat.add_succ_r. split; [exact E|].
        split; [|split; [lia | split; assumption]].
        rewrite Hl.
        rewrite !take_ge by (rewrite ?length_app; simpl; lia).
        rewrite !drop_ge by (rewrite ?length_app; simpl; lia).
        rewrite <- app_assoc. reflexivity.
    + rewrite (visit_rejected _ _ _ Hin). now apply IH.
Qed.

End Visit.

(** The per-particle build is the candidate loop over the cells of the
    window, followed by the assignment of [current_size_]. *)
Lemma updateConfigurationForParticle_candidates target search_range current_kernel
    index_i particle_position neighborhood cands :
  window_candidates target search_range particle_position = Some cands ->
  SPHBodyContactRelation.updateConfigurationForParticle target search_range current_kernel
    index_i particle_position neighborhood
  = '(neighborhood', count) ←
      foldM (SPHBodyContactRelation.visit
               (GetCutOffRadius current_kernel * GetCutOffRadius current_kernel)
               current_kernel particle_position index_i)
            cands (neighborhood, 0%nat);
    Some {| current_size_ := count;
            memory_size_ := memory_size_ neighborhood';
            neighbor_list_ := neighbor_list_ neighborhood' |}.
Proof.
  unfold window_candidates, SPHBodyContactRelation.updateConfigurationForParticle.
  cbv zeta. intros H.
  set (f := SPHBodyContactRelation.visit _ _ _ _).
  set (wj := SPHBodyContactRelation.window (to_int (snd _)) _ _) in *.
  set (wi := SPHBodyContactRelation.window (to_int (fst _)) _ _) in *.
  clearbody wi wj.
  assert (E : forall st,
             foldM (fun st l =>
                      foldM (fun st m =>
                               target_particles ← cell_at (cell_linked_lists_ target) l m;
                               foldM f target_particles st) wj st) wi st
             = foldM f cands st).
  { intros st.
    rewrite <- (foldM_collect
                  (fun l => collect (fun m => cell_at (cell_linked_lists_ target) l m) wj)
                  f wi cands st H).
    clear H. revert st. induction wi as [|l wi IH]; intros st; cbn [foldM]; [reflexivity|].
    destruct (collect (fun m => cell_at (cell_linked_lists_ target) l m) wj) as [c|] eqn:Ec.
    - rewrite (foldM_collect _ f wj c st Ec). cbn [mbind option_bind].
      destruct (foldM f c st); [apply IH | reflexivity].
    - cbn [mbind option_bind].
      assert (N : foldM (fun st m => target_particles ← cell_at (cell_linked_lists_ target) l m;
                                     foldM f target_particles st) wj st = None).
      { clear IH. revert st. induction wj as [|m wj IHj]; intros st; cbn [foldM collect] in *;
          [discriminate|].
        destruct (cell_at (cell_linked_lists_ target) l m) as [cm|]; cbn [mbind option_bind];
          [|reflexivity].
        destruct (collect _ wj) as [r|]; [discriminate|].
        destruct (foldM f cm st); [now apply IHj | reflexivity]. }
      now rewrite N. }
  rewrite E. reflexivity.
Qed.

(** One build: the accepted entries fill the slots from the first one on,
    over the old entries as far as these reach and appended after them. *)
Lemma updateConfigurationForParticle_result target search_range current_kernel
    index_i particle_position neighborhood cands :
  neighborhood_wf neighborhood ->
  window_candidates target search_range particle_position = Some cands ->
  exists neighborhood',
    SPHBodyContactRelation.updateConfigurationForParticle target search_range
      current_kernel index_i particle_position neighborhood = Some neighborhood'
    /\ current_size_ neighborhood'
       = length (accepted_relations current_kernel index_i particle_position cands)
    /\ memory_size_ neighborhood'
       = Nat.max (memory_size_ neighborhood)
           (length (accepted_relations current_kernel index_i particle_position cands))
    /\ neighbor_list_ neighborhood'
       = accepted_relations current_kernel index_i particle_position cands
           ++ drop (length (accepted_relations current_kernel index_i particle_position cands))
                   (neighbor_list_ neighborhood)
    /\ neighborhood_wf neighborhood'.
Proof.
  intros Hwf Hc.
  rewrite (updateConfigurationForParticle_candidates _ _ _ _ _ _ _ Hc).
  destruct (visit_all current_kernel particle_position index_i cands neighborhood 0%nat Hwf)
    as (nb' & E & Hl & Hm & Hs & Hw); [lia|].
  rewrite E. simpl in *.
  eexists. split; [reflexivity|]. simpl.
  repeat split; try assumption.
Qed.

Lemma build_steps_capacity index_i steps : forall neighborhood,
  neighborhood_wf neighborhood ->
  Forall (fun step => is_Some (window_candidates (fst (fst (fst step)))
                                 (snd (fst (fst step))) (snd step))) steps ->
  exists neighborhood',
    build_steps index_i steps neighborhood = Some neighborhood'
    /\ (memory_size_ neighborhood <= memory_size_ neighborhood')%nat
    /\ neighborhood_wf neighborhood'.
Proof.
  induction steps as [|[[[target sr] kernel] pos] steps IH]; intros nb Hwf Hall.
  - exists nb. repeat split; [lia | exact Hwf].
  - inversion Hall as [|? ? [cands Hc] Hrest]; subst. cbn [fst snd] in Hc.
    destruct (updateConfigurationForParticle_result target sr kernel index_i pos nb cands
                Hwf Hc) as (nb1 & E & _ & Hm & _ & Hw1).
    destruct (IH nb1 Hw1 Hrest) as (nb' & E' & Hm' & Hw').
    exists nb'. unfold build_steps in *. cbn [foldM]. rewrite E.
    split; [exact E'|]. split; [lia | exact Hw'].
Qed.

(** C5: in a build for one particle, an accepted entry overwrites the slot at
    the running count while that count is below the capacity, and is appended
    (capacity plus one) once the count has reached it; afterwards
    [current_size_] is the number of accepted entries, and the capacity is the
    larger of the old capacity and that number.  So the capacity never
    decreases over successive builds. *)
Theorem neighborhood_overwrite_then_append
    (target : BaseMeshCellLinkedList) (search_range : Z) (current_kernel : Kernel)
    (index_i : nat) (particle_position : Vecd) (neighborhood : Neighborhood)
    (cands : list ListData) (steps : list (BaseMeshCellLinkedList * Z * Kernel * Vecd))
    (Hwf : neighborhood_wf neighborhood)
    (Hc : window_candidates target search_range particle_position = Some cands)
    (Hsteps : Forall (fun step => is_Some (window_candidates (fst (fst (fst step)))
                                             (snd (fst (fst step))) (snd step))) steps) :
  (forall nb count c,
      neighborhood_wf nb ->
      within_cutoff current_kernel particle_position c = true ->
      (count < memory_size_ nb)%nat ->
      SPHBodyContactRelation.visit
        (GetCutOffRadius current_kernel * GetCutOffRadius current_kernel)
        current_kernel particle_position index_i (nb, count) c
      = Some ({| current_size_ := current_size_ nb;
                 memory_size_ := memory_size_ nb;
                 neighbor_list_ :=
                   <[count := neighbor_relation current_kernel
                                (Vecd_sub particle_position (snd c)) index_i (fst c)]>
                     (neighbor_list_ nb) |}, S count))
  /\ (forall nb count c,
         within_cutoff current_kernel particle_position c = true ->
         (memory_size_ nb <= count)%nat ->
         SPHBodyContactRelation.visit
           (GetCutOffRadius current_kernel * GetCutOffRadius current_kernel)
           current_kernel particle_position index_i (nb, count) c
         = Some ({| current_size_ := current_size_ nb;
                    memory_size_ := S (memory_size_ nb);
                    neighbor_list_ :=
                      neighbor_list_ nb
                        ++ [neighbor_relation current_kernel
                              (Vecd_sub particle_position (snd c)) index_i (fst c)] |},
                 S count))
  /\ (exists neighborhood',
         SPHBodyContactRelation.updateConfigurationForParticle target search_range
           current_kernel index_i particle_position neighborhood = Some neighborhood'
         /\ current_size_ neighborhood'
            = length (accepted_relations current_kernel index_i particle_position cands)
         /\ memory_size_ neighborhood'
            = Nat.max (memory_size_ neighborhood)
                (length (accepted_relations current_kernel index_i particle_position cands))
         /\ neighbor_list_ neighborhood'
            = accepted_relations current_kernel index_i particle_position cands
                ++ drop (length (accepted_relations current_kernel index_i
                                   particle_position cands))
                        (neighbor_list_ neighborhood)
         /\ (memory_size_ neighborhood <= memory_size_ neighborhood')%nat
         /\ neighborhood_wf neighborhood')
  /\ (exists neighborhood',
         build_steps index_i steps neighborhood = Some neighborhood'
         /\ (memory_size_ neighborhood <= memory_size_ neighborhood')%nat).
Proof.
  split; [intros nb count c; apply visit_overwrites|].
  split; [intros nb count c; apply visit_appends|].
  split.
  - destruct (updateConfigurationForParticle_result target search_range current_kernel
                index_i particle_position neighborhood cands Hwf Hc)
      as (nb' & E & Hs & Hm & Hl & Hw).
    exists nb'. repeat split; try assumption. lia.
  - destruct (build_steps_capacity index_i steps neighborhood Hwf Hsteps)
      as (nb' & E & Hm & _).
    exists nb'. split; assumption.
Qed.

(** ** The loops over contact bodies and particles *)

Lemma configuration_at_written (cfg : list (list Neighborhood)) k i row nb nb' :
  cfg !! k = Some row -> row !! i = Some nb ->
  SPHBodyContactRelation.configuration_at (<[k := <[i := nb']> row]> cfg) k i = Some nb'.
Proof.
  intros Hk Hi. unfold SPHBodyContactRelation.configuration_at.
  rewrite list_lookup_insert_eq by (now apply lookup_lt_Some in Hk). simpl.
  apply list_lookup_insert_eq. now apply lookup_lt_Some in Hi.
Qed.

Lemma configuration_at_kept (cfg : list (list Neighborhood)) k i k' i' row nb' :
  cfg !! k = Some row -> (k' <> k \/ i' <> i) ->
  SPHBodyContactRelation.configuration_at (<[k := <[i := nb']> row]> cfg) k' i'
  = SPHBodyContactRelation.configuration_at cfg k' i'.
Proof.
  intros Hk Hne. unfold SPHBodyContactRelation.configuration_at.
  destruct (Nat.eq_dec k' k) as [->|Hkk].
  - rewrite list_lookup_insert_eq by (now apply lookup_lt_Some in Hk).
    rewrite Hk. simpl. apply list_lookup_insert_ne. destruct Hne; congruence.
  - now rewrite list_lookup_insert_ne by congruence.
Qed.

(** The loop over [num] for one contact body: the neighbourhood of each
    visited particle is replaced by the result of its build, and no other
    neighbourhood changes. *)
Lemma particle_loop (pos_n : list Vecd) (body : SPHBodyContactRelation.ContactBody)
    (k : nat) (get_particle_index : nat -> nat) (nums : list nat) :
  forall cfg cfg',
    List.NoDup (List.map get_particle_index nums) ->
    foldM (fun cfg num =>
             let index_i := get_particle_index num in
             particle_position ← pos_n !! index_i;
             row ← cfg !! k;
             neighborhood ← row !! index_i;
             neighborhood' ←
               SPHBodyContactRelation.updateConfigurationForParticle
                 (SPHBodyContactRelation.target_mesh_cell_linked_list body)
                 (SPHBodyContactRelation.search_range_ body)
                 (SPHBodyContactRelation.current_kernel_ body)
                 index_i particle_position neighborhood;
             Some (<[k := <[index_i := neighborhood']> row]> cfg))
          nums cfg = Some cfg' ->
    (forall num, In num nums ->
       exists p nb nb',
         pos_n !! get_particle_index num = Some p
         /\ SPHBodyContactRelation.configuration_at cfg k (get_particle_index num) = Some nb
         /\ SPHBodyContactRelation.updateConfigurationForParticle
              (SPHBodyContactRelation.target_mesh_cell_linked_list body)
              (SPHBodyContactRelation.search_range_ body)
              (SPHBodyContactRelation.current_kernel_ body)
              (get_particle_index num) p nb = Some nb'
         /\ SPHBodyContactRelation.configuration_at cfg' k (get_particle_index num) = Some nb')
    /\ (forall k' i', (k' <> k \/ ~ In i' (List.map get_particle_index nums)) ->
           SPHBodyContactRelation.configuration_at cfg' k' i'
           = SPHBodyContactRelation.configuration_at cfg k' i').
Proof.
  induction nums as [|num nums IH]; intros cfg cfg' Hnd H;
    cbn [foldM List.map] in H, Hnd; cbv zeta in H.
  - inversion H; subst. split; [intros ? []| reflexivity].
  - inversion Hnd as [|? ? Hnotin Hnd']; subst.
    destruct (pos_n !! get_particle_index num) as [p|] eqn:Hp; [|discriminate].
    cbn [mbind option_bind] in H.
    destruct (cfg !! k) as [row|] eqn:Hrow; [|discriminate].
    cbn [mbind option_bind] in H.
    destruct (row !! get_particle_index num) as [nb|] eqn:Hnb; [|discriminate].
    cbn [mbind option_bind] in H.
    destruct (SPHBodyContactRelation.updateConfigurationForParticle _ _ _ _ p nb)
      as [nb'|] eqn:Hup; [|discriminate].
    cbn [mbind option_bind] in H.
    destruct (IH _ _ Hnd' H) as [IH1 IH2].
    split.
    + intros num' [<-|Hin].
      * exists p, nb, nb'. split; [exact Hp|]. split.
        { unfold SPHBodyContactRelation.configuration_at. now rewrite Hrow. }
        split; [exact Hup|].
        rewrite IH2 by (right; exact Hnotin).
        eapply configuration_at_written; eassumption.
      * destruct (IH1 num' Hin) as (p' & nb1 & nb1' & Hp' & Hat & Hup' & Hat').
        exists p', nb1, nb1'. split; [exact Hp'|]. split; [|split; assumption].
        rewrite <- Hat. symmetry. eapply configuration_at_kept; [exact Hrow|].
        right. intros Heq. apply Hnotin. rewrite <- Heq. now apply in_map.
    + intros k' i' Hne. rewrite IH2.
      * eapply configuration_at_kept; [exact Hrow|].
        destruct Hne as [Hne|Hne]; [now left | right].
        intros ->. apply Hne. now left.
      * destruct Hne as [Hne|Hne]; [now left | right].
        intros Hin. apply Hne. now right.
Qed.

Lemma map_fst_combine_seq {A : Type} (l : list A) (a : nat) :
  List.map fst (combine (seq a (length l)) l) = seq a (length l).
Proof.
  revert a. induction l as [|x l IH]; intros a; simpl; [reflexivity|].
  now rewrite IH.
Qed.

Lemma In_combine_seq_lookup {A : Type} (l : list A) : forall (a k : nat) (x : A),
  l !! k = Some x -> In ((a + k)%nat, x) (combine (seq a (length l)) l).
Proof.
  induction l as [|y l IH]; intros a [|k] x Hk; simpl in *; try discriminate.
  - inversion Hk; subst. left. f_equal. lia.
  - right. replace (a + S k)%nat with (S a + k)%nat by lia. now apply IH.
Qed.

Lemma body_loop (pos_n : list Vecd) (number_of_particles : nat)
    (get_particle_index : nat -> nat)
    (kbs : list (nat * SPHBodyContactRelation.ContactBody)) :
  List.NoDup (List.map get_particle_index (seq 0 number_of_particles)) ->
  forall cfg cfg',
    List.NoDup (List.map fst kbs) ->
    foldM (fun cfg rb =>
             let '(relation_body_num, body) := rb in
             foldM (fun cfg num =>
                      let index_i := get_particle_index num in
                      particle_position ← pos_n !! index_i;
                      row ← cfg !! relation_body_num;
                      neighborhood ← row !! index_i;
                      neighborhood' ←
                        SPHBodyContactRelation.updateConfigurationForParticle
                          (SPHBodyContactRelation.target_mesh_cell_linked_list body)
                          (SPHBodyContactRelation.search_range_ body)
                          (SPHBodyContactRelation.current_kernel_ body)
                          index_i particle_position neighborhood;
                      Some (<[relation_body_num := <[index_i := neighborhood']> row]> cfg))
                   (seq 0 number_of_particles) cfg)
          kbs cfg = Some cfg' ->
    (forall k body num, In (k, body) kbs -> (num < number_of_particles)%nat ->
       exists p nb nb',
         pos_n !! get_particle_index num = Some p
         /\ SPHBodyContactRelation.configuration_at cfg k (get_particle_index num) = Some nb
         /\ SPHBodyContactRelation.updateConfigurationForParticle
              (SPHBodyContactRelation.target_mesh_cell_linked_list body)
              (SPHBodyContactRelation.search_range_ body)
              (SPHBodyContactRelation.current_kernel_ body)
              (get_particle_index num) p nb = Some nb'
         /\ SPHBodyContactRelation.configuration_at cfg' k (get_particle_index num) = Some nb')
    /\ (forall k' i', ~ In k' (List.map fst kbs) ->
           SPHBodyContactRelation.configuration_at cfg' k' i'
           = SPHBodyContactRelation.configuration_at cfg k' i').
Proof.
  intros Hinj. induction kbs as [|[k body] kbs IH]; intros cfg cfg' Hnd H;
    cbn [foldM List.map fst] in H, Hnd.
  - inversion H; subst. split; [intros ? ? ? []| reflexivity].
  - inversion Hnd as [|? ? Hnotin Hnd']; subst.
    match type of H with
    | match ?inner with _ => _ end = _ => destruct inner as [cfg1|] eqn:Hinner
    end; [|discriminate].
    destruct (particle_loop pos_n body k get_particle_index _ cfg cfg1 Hinj Hinner)
      as [P1 P2].
    destruct (IH cfg1 cfg' Hnd' H) as [IH1 IH2].
    split.
    + intros k0 body0 num [Heq|Hin] Hnum.
      * inversion Heq; subst k0 body0.
        destruct (P1 num) as (p & nb & nb' & Hp & Hat & Hup & Hat').
        { apply in_seq. lia. }
        exists p, nb, nb'. repeat split; try assumption.
        now rewrite IH2.
      * destruct (IH1 k0 body0 num Hin Hnum) as (p & nb & nb' & Hp & Hat & Hup & Hat').
        exists p, nb, nb'. repeat split; try assumption.
        rewrite <- Hat. symmetry. apply P2. left.
        intros ->. apply Hnotin. change k with (fst (k, body0)). now apply in_map.
    + intros k' i' Hne. simpl in Hne.
      rewrite IH2 by tauto. apply P2. left. intros ->. tauto.
Qed.

(** The whole of [updateConfigurationForParticles]: when the particle indices
    of the loop are pairwise distinct, the neighbourhood of each visited
    particle for each contact body becomes the result of the per-particle build
    on the neighbourhood it had, and the neighbourhoods are written
    disjointly. *)
Lemma updateConfigurationForParticles_per_particle (pos_n : list Vecd)
    (contact_sph_bodies_ : list SPHBodyContactRelation.ContactBody)
    (number_of_particles : nat) (get_particle_index : nat -> nat)
    (cfg cfg' : list (list Neighborhood)) :
  List.NoDup (List.map get_particle_index (seq 0 number_of_particles)) ->
  SPHBodyContactRelation.updateConfigurationForParticles pos_n contact_sph_bodies_
    number_of_particles get_particle_index cfg = Some cfg' ->
  forall k body num,
    contact_sph_bodies_ !! k = Some body -> (num < number_of_particles)%nat ->
    exists p nb nb',
      pos_n !! get_particle_index num = Some p
      /\ SPHBodyContactRelation.configuration_at cfg k (get_particle_index num) = Some nb
      /\ SPHBodyContactRelation.updateConfigurationForParticle
           (SPHBodyContactRelation.target_mesh_cell_linked_list body)
           (SPHBodyContactRelation.search_range_ body)
           (SPHBodyContactRelation.current_kernel_ body)
           (get_particle_index num) p nb = Some nb'
      /\ SPHBodyContactRelation.configuration_at cfg' k (get_particle_index num) = Some nb'.
Proof.
  intros Hinj H k body num Hk Hnum.
  unfold SPHBodyContactRelation.updateConfigurationForParticles in H.
  destruct (body_loop pos_n number_of_particles get_particle_index
              (combine (seq 0 (length contact_sph_bodies_)) contact_sph_bodies_)
              Hinj cfg cfg') as [B _].
  - rewrite map_fst_combine_seq. apply seq_NoDup.
  - exact H.
  - apply (B k body num); [|exact Hnum].
    exact (In_combine_seq_lookup contact_sph_bodies_ 0%nat k body Hk).
Qed.

(** ** The window of the relation builder stays in the grid *)

Lemma to_int_small z : (INT_MIN <= z <= INT_MAX)%Z -> to_int z = z.
Proof.
  unfold INT_MIN, INT_MAX, to_int. intros H.
  rewrite Z.mod_small by lia. lia.
Qed.

Lemma to_int_bounds z : (INT_MIN <= to_int z <= INT_MAX)%Z.
Proof.
  unfold INT_MIN, INT_MAX, to_int.
  pose proof (Z.mod_pos_bound (z + 2147483648) 4294967296). lia.
Qed.

Lemma SMAX_max a b : SMAX a b = Z.max a b.
Proof. unfold SMAX. destruct (Z.gtb_spec a b); lia. Qed.

Lemma SMIN_min a b : SMIN a b = Z.min a b.
Proof. unfold SMIN. destruct (Z.ltb_spec a b); lia. Qed.

Lemma In_int_range l lo hi : In l (int_range lo hi) <-> (lo <= l <= hi)%Z.
Proof.
  unfold int_range. rewrite in_map_iff. split.
  - intros (k & <- & Hk). apply in_seq in Hk. lia.
  - intros H. exists (Z.to_nat (l - lo)). split; [lia|]. apply in_seq. lia.
Qed.

Lemma NoDup_int_range lo hi : List.NoDup (int_range lo hi).
Proof.
  unfold int_range. apply Finite.Injective_map_NoDup.
  - intros a b H. lia.
  - apply seq_NoDup.
Qed.

Lemma window_bounds i search_range n l :
  (0 <= n <= INT_MAX)%Z ->
  In l (SPHBodyContactRelation.window i search_range n) ->
  (0 <= l <= n - 1)%Z.
Proof.
  unfold SPHBodyContactRelation.window. intros Hn H.
  apply In_int_range in H. rewrite SMAX_max, SMIN_min in H.
  unfold int_sub at 2 in H.
  rewrite (to_int_small n) in H by (unfold INT_MIN, INT_MAX in *; lia).
  rewrite (to_int_small (n - 1)) in H by (unfold INT_MIN, INT_MAX in *; lia).
  lia.
Qed.

Lemma mesh_shape_nonneg mesh :
  mesh_shape mesh -> (0 <= fst (number_of_cells_ mesh))%Z.
Proof. intros [H _]. lia. Qed.

Lemma cell_at_in_range mesh l m :
  mesh_shape mesh ->
  (0 <= l < fst (number_of_cells_ mesh))%Z ->
  (0 <= m < snd (number_of_cells_ mesh))%Z ->
  is_Some (cell_at (cell_linked_lists_ mesh) l m).
Proof.
  intros [Hrows Hcols] Hl Hm. unfold cell_at.
  destruct (Z.ltb_spec l 0); [lia|]. destruct (Z.ltb_spec m 0); [lia|]. simpl.
  destruct (cell_linked_lists_ mesh !! Z.to_nat l) as [row|] eqn:Er.
  - simpl. apply lookup_lt_is_Some.
    rewrite Forall_forall in Hcols.
    assert (Hin : row ∈ cell_linked_lists_ mesh).
    { eapply list_elem_of_lookup_2. exact Er. }
    specialize (Hcols row Hin). lia.
  - apply lookup_ge_None in Er. lia.
Qed.

Lemma collect_is_Some {A C : Type} (g : A -> option (list C)) (xs : list A) :
  (forall x, In x xs -> is_Some (g x)) -> is_Some (collect g xs).
Proof.
  induction xs as [|x xs IH]; intros H; simpl.
  - eexists; reflexivity.
  - destruct (H x (or_introl eq_refl)) as [c ->].
    destruct IH as [r ->]; [intros y Hy; apply H; now right|].
    eexists; reflexivity.
Qed.

Lemma collect_flat_map {A C : Type} (g : A -> option (list C)) (h : A -> list C)
    (xs : list A) :
  (forall x, In x xs -> g x = Some (h x)) -> collect g xs = Some (flat_map h xs).
Proof.
  induction xs as [|x xs IH]; intros H; simpl; [reflexivity|].
  rewrite (H x (or_introl eq_refl)), IH; [reflexivity|].
  intros y Hy. apply H. now right.
Qed.

Lemma window_candidates_is_Some target search_range particle_position :
  mesh_shape target ->
  (fst (number_of_cells_ target) <= INT_MAX)%Z ->
  (snd (number_of_cells_ target) <= INT_MAX)%Z ->
  is_Some (window_candidates target search_range particle_position).
Proof.
  intros Hshape H0 H1. unfold window_candidates.
  apply collect_is_Some. intros l Hl.
  apply collect_is_Some. intros m Hm.
  apply window_bounds in Hl; [|split; [now apply mesh_shape_nonneg | assumption]].
  assert (Hn1 : (0 <= snd (number_of_cells_ target))%Z).
  { destruct Hshape as [Hr Hc].
    destruct (cell_linked_lists_ target) as [|row rows]; [simpl in Hr; lia|].
    inversion Hc; subst. lia. }
  apply window_bounds in Hm; [|split; assumption].
  apply cell_at_in_range; [assumption | lia | lia].
Qed.

(** C6: whatever the home cell and the search range, the cell indices that
    the window loops visit lie within [[0, number_of_cells - 1]] in each
    direction; so every cell access of the per-particle loop is in range, and
    the per-particle build returns a result for every particle position. *)
Theorem window_within_grid (target : BaseMeshCellLinkedList) (search_range : Z)
    (current_kernel : Kernel) (index_i : nat) (particle_position : Vecd)
    (neighborhood : Neighborhood)
    (Hshape : mesh_shape target)
    (Hfit0 : (fst (number_of_cells_ target) <= INT_MAX)%Z)
    (Hfit1 : (snd (number_of_cells_ target) <= INT_MAX)%Z)
    (Hwf : neighborhood_wf neighborhood) :
  (forall i l,
      In l (SPHBodyContactRelation.window i search_range (fst (number_of_cells_ target))) ->
      (0 <= l <= fst (number_of_cells_ target) - 1)%Z)
  /\ (forall i l j m,
         In l (SPHBodyContactRelation.window i search_range (fst (number_of_cells_ target))) ->
         In m (SPHBodyContactRelation.window j search_range (snd (number_of_cells_ target))) ->
         (0 <= m <= snd (number_of_cells_ target) - 1)%Z
         /\ is_Some (cell_at (cell_linked_lists_ target) l m))
  /\ is_Some (SPHBodyContactRelation.updateConfigurationForParticle target search_range
                current_kernel index_i particle_position neighborhood).
Proof.
  assert (H0 : (0 <= fst (number_of_cells_ target))%Z) by now apply mesh_shape_nonneg.
  split; [intros i l Hl; apply window_bounds in Hl; [assumption | lia]|].
  split.
  - intros i l j m Hl Hm.
    apply window_bounds in Hl; [|lia].
    assert (Hn1 : (0 <= snd (number_of_cells_ target))%Z).
    { destruct Hshape as [Hr Hc].
      destruct (cell_linked_lists_ target) as [|row rows]; [simpl in Hr; lia|].
      inversion Hc; subst. lia. }
    apply window_bounds in Hm; [|lia].
    split; [assumption|]. apply cell_at_in_range; [assumption | lia | lia].
  - destruct (window_candidates_is_Some target search_range particle_position
                Hshape Hfit0 Hfit1) as [cands Hc].
    destruct (updateConfigurationForParticle_result target search_range current_kernel
                index_i particle_position neighborhood cands Hwf Hc) as (nb' & E & _).
    exists nb'. exact E.
Qed.

(** ** The cell linked list after a rebuild *)

Lemma same_cell_true c1 c2 : same_cell c1 c2 = true <-> c1 = c2.
Proof.
  destruct c1 as [a b], c2 as [c d]. unfold same_cell. simpl.
  rewrite andb_true_iff, !Z.eqb_eq. split; [intros [-> ->]; reflexivity|].
  intros H; inversion H; auto.
Qed.

Lemma clamp_bounds z hi : (0 <= hi)%Z -> (0 <= clamp z 0 hi <= hi)%Z.
Proof. unfold clamp. lia. Qed.

Lemma clamp_nonneg z hi : (0 <= clamp z 0 hi)%Z.
Proof. unfold clamp. lia. Qed.

Lemma GridIndexFromPosition_nonneg mesh p :
  (0 <= fst (GridIndexFromPosition mesh p))%Z /\ (0 <= snd (GridIndexFromPosition mesh p))%Z.
Proof. unfold GridIndexFromPosition. simpl. split; apply clamp_nonneg. Qed.

Lemma GridIndexFromPosition_in_grid mesh p :
  (0 < fst (number_of_cells_ mesh))%Z -> (0 < snd (number_of_cells_ mesh))%Z ->
  (0 <= fst (GridIndexFromPosition mesh p) < fst (number_of_cells_ mesh))%Z
  /\ (0 <= snd (GridIndexFromPosition mesh p) < snd (number_of_cells_ mesh))%Z.
Proof.
  intros H0 H1. unfold GridIndexFromPosition, clamp. simpl. lia.
Qed.

Lemma GridIndexFromPosition_Insert index position mesh q :
  GridIndexFromPosition (InsertACellLinkedListDataEntry index position mesh) q
  = GridIndexFromPosition mesh q.
Proof. reflexivity. Qed.

Lemma number_of_cells_Insert index position mesh :
  number_of_cells_ (InsertACellLinkedListDataEntry index position mesh)
  = number_of_cells_ mesh.
Proof. reflexivity. Qed.

Lemma cell_at_Insert index position mesh l m :
  (0 <= l)%Z -> (0 <= m)%Z ->
  cell_at (cell_linked_lists_ (InsertACellLinkedListDataEntry index position mesh)) l m
  = (fun cell => if same_cell (GridIndexFromPosition mesh position) (l, m)
                 then cell ++ [(index, position)] else cell)
      <$> cell_at (cell_linked_lists_ mesh) l m.
Proof.
  intros Hl Hm.
  destruct (GridIndexFromPosition_nonneg mesh position) as [Hl0 Hm0].
  unfold InsertACellLinkedListDataEntry, cell_at.
  destruct (GridIndexFromPosition mesh position) as [l0 m0] eqn:E. simpl in *.
  destruct (Z.ltb_spec l 0); [lia|]. destruct (Z.ltb_spec m 0); [lia|]. simpl.
  unfold same_cell. simpl.
  generalize (cell_linked_lists_ mesh). unfold matrix_cell, CellListDataVector, ListData.
  intros cells.
  destruct (Z.eqb_spec l0 l) as [->|Hne].
  - rewrite list_lookup_alter_eq.
    destruct (cells !! Z.to_nat l) as [row|]; simpl; [|reflexivity].
    destruct (Z.eqb_spec m0 m) as [->|Hne].
    + rewrite list_lookup_alter_eq. reflexivity.
    + rewrite list_lookup_alter_ne by lia.
      destruct (row !! Z.to_nat m); reflexivity.
  - rewrite list_lookup_alter_ne by lia. simpl.
    destruct (cells !! Z.to_nat l) as [row|]; simpl; [|reflexivity].
    destruct (row !! Z.to_nat m); reflexivity.
Qed.

Lemma cell_at_insert_all entries l m : forall mesh,
  (0 <= l)%Z -> (0 <= m)%Z ->
  cell_at (cell_linked_lists_
             (fold_left (fun g e => InsertACellLinkedListDataEntry (fst e) (snd e) g)
                        entries mesh)) l m
  = (fun cell =>
       cell ++ List.filter (fun e => same_cell (GridIndexFromPosition mesh (snd e)) (l, m))
                           entries)
      <$> cell_at (cell_linked_lists_ mesh) l m.
Proof.
  induction entries as [|[index position] entries IH]; intros mesh Hl Hm; simpl.
  - destruct (cell_at (cell_linked_lists_ mesh) l m); simpl; [|reflexivity].
    now rewrite app_nil_r.
  - rewrite IH by assumption. rewrite cell_at_Insert by assumption.
    destruct (cell_at (cell_linked_lists_ mesh) l m) as [cell|]; simpl; [|reflexivity].
    destruct (same_cell (GridIndexFromPosition mesh position) (l, m));
      [rewrite <- app_assoc|]; reflexivity.
Qed.

Lemma cell_at_clear_cells mesh l m :
  (0 <= l < fst (number_of_cells_ mesh))%Z ->
  (0 <= m < snd (number_of_cells_ mesh))%Z ->
  cell_at (cell_linked_lists_ (clear_cells mesh)) l m = Some [].
Proof.
  intros Hl Hm. unfold cell_at, clear_cells. simpl.
  destruct (Z.ltb_spec l 0); [lia|]. destruct (Z.ltb_spec m 0); [lia|]. simpl.
  unfold matrix_cell, CellListDataVector, ListData.
  rewrite lookup_replicate_2 by lia. simpl.
  apply lookup_replicate_2. lia.
Qed.

(** After a rebuild, a cell of the grid holds the entries whose position
    maps to it, in the order of insertion. *)
Lemma cell_at_UpdateCellLists entries mesh l m :
  (0 <= l < fst (number_of_cells_ mesh))%Z ->
  (0 <= m < snd (number_of_cells_ mesh))%Z ->
  cell_at (cell_linked_lists_ (UpdateCellLists entries mesh)) l m
  = Some (List.filter (fun e => same_cell (GridIndexFromPosition mesh (snd e)) (l, m))
                      entries).
Proof.
  intros Hl Hm. unfold UpdateCellLists.
  rewrite cell_at_insert_all by lia.
  rewrite cell_at_clear_cells by assumption. reflexivity.
Qed.

Lemma fold_Insert_params entries : forall mesh,
  number_of_cells_
    (fold_left (fun g e => InsertACellLinkedListDataEntry (fst e) (snd e) g) entries mesh)
  = number_of_cells_ mesh
  /\ forall q,
      GridIndexFromPosition
        (fold_left (fun g e => InsertACellLinkedListDataEntry (fst e) (snd e) g) entries mesh) q
      = GridIndexFromPosition mesh q.
Proof.
  induction entries as [|e entries IH]; intros mesh; simpl; [split; reflexivity|].
  destruct (IH (InsertACellLinkedListDataEntry (fst e) (snd e) mesh)) as [Hn Hg].
  split; [rewrite Hn; reflexivity | intros q; rewrite Hg; reflexivity].
Qed.

Lemma UpdateCellLists_params entries mesh :
  number_of_cells_ (UpdateCellLists entries mesh) = number_of_cells_ mesh
  /\ forall q, GridIndexFromPosition (UpdateCellLists entries mesh) q
               = GridIndexFromPosition mesh q.
Proof.
  unfold UpdateCellLists.
  destruct (fold_Insert_params entries (clear_cells mesh)) as [Hn Hg].
  split; [rewrite Hn; reflexivity | intros q; rewrite Hg; reflexivity].
Qed.

(** ** The window search finds exactly the particles within the cut-off *)

Lemma Qfloor_step x y (k : Z) : x <= y + inject_Z k -> (Qfloor x <= Qfloor y + k)%Z.
Proof.
  intros H.
  assert (L : inject_Z (Qfloor x) < inject_Z (Qfloor y + 1 + k)).
  { eapply Qle_lt_trans; [apply Qfloor_le|].
    eapply Qle_lt_trans; [exact H|].
    pose proof (Qlt_floor y) as F.
    rewrite inject_Z_plus in F. rewrite !inject_Z_plus.
    change (inject_Z 1) with 1 in *. lra. }
  rewrite <- Zlt_Qlt in L. lia.
Qed.

Lemma Qdiv_step (a b s k : Q) : 0 < s -> a <= b + k * s -> a / s <= b / s + k.
Proof.
  intros Hs H.
  assert (E : b / s + k == (b + k * s) / s) by (field; lra).
  rewrite E. unfold Qdiv. apply Qmult_le_compat_r; [exact H|].
  apply Qlt_le_weak. now apply Qinv_lt_0_compat.
Qed.

Lemma normSqr_bound (d : Vecd) (c s : Q) :
  0 <= c -> c <= s -> normSqr d <= c * c ->
  vx d <= s /\ - s <= vx d /\ vy d <= s /\ - s <= vy d.
Proof. unfold normSqr. intros. repeat split; nra. Qed.

(** Two positions no further apart than [search_range] cell spacings lie in
    cells at most [search_range] apart, in each direction. *)
Lemma GridIndexFromPosition_near mesh (p q : Vecd) (c : Real) (search_range : Z) :
  0 < grid_spacing_ mesh -> 0 <= c -> c <= inject_Z search_range * grid_spacing_ mesh ->
  normSqr (Vecd_sub p q) <= c * c ->
  (Z.abs (fst (GridIndexFromPosition mesh q) - fst (GridIndexFromPosition mesh p))
   <= search_range)%Z
  /\ (Z.abs (snd (GridIndexFromPosition mesh q) - snd (GridIndexFromPosition mesh p))
      <= search_range)%Z.
Proof.
  intros Hs Hc Hcs Hd.
  destruct (normSqr_bound _ _ _ Hc Hcs Hd) as (X1 & X2 & Y1 & Y2).
  unfold GridIndexFromPosition, Vecd_sub in *. cbn [fst snd vx vy] in *.
  set (lx := vx (mesh_lower_bound_ mesh)) in *.
  set (ly := vy (mesh_lower_bound_ mesh)) in *.
  set (s := grid_spacing_ mesh) in *.
  assert (A1 : (Qfloor ((vx q - lx) / s) <= Qfloor ((vx p - lx) / s) + search_range)%Z)
    by (apply Qfloor_step, Qdiv_step; [assumption | lra]).
  assert (A2 : (Qfloor ((vx p - lx) / s) <= Qfloor ((vx q - lx) / s) + search_range)%Z)
    by (apply Qfloor_step, Qdiv_step; [assumption | lra]).
  assert (B1 : (Qfloor ((vy q - ly) / s) <= Qfloor ((vy p - ly) / s) + search_range)%Z)
    by (apply Qfloor_step, Qdiv_step; [assumption | lra]).
  assert (B2 : (Qfloor ((vy p - ly) / s) <= Qfloor ((vy q - ly) / s) + search_range)%Z)
    by (apply Qfloor_step, Qdiv_step; [assumption | lra]).
  unfold clamp. lia.
Qed.

Lemma in_window i l search_range n :
  (0 <= search_range)%Z -> (n + search_range <= INT_MAX)%Z ->
  (0 <= i < n)%Z -> (0 <= l < n)%Z -> (Z.abs (l - i) <= search_range)%Z ->
  In l (SPHBodyContactRelation.window (to_int i) search_range n).
Proof.
  unfold INT_MAX. intros Hsr Hfit Hi Hl Hnear.
  unfold SPHBodyContactRelation.window, int_sub, int_add.
  rewrite (to_int_small i) by (unfold INT_MIN, INT_MAX; lia).
  rewrite (to_int_small n) by (unfold INT_MIN, INT_MAX; lia).
  rewrite !to_int_small by (unfold INT_MIN, INT_MAX; lia).
  apply In_int_range. rewrite SMAX_max, SMIN_min. lia.
Qed.

Lemma flat_map_ext_on {A B : Type} (f g : A -> list B) (l : list A) :
  (forall x, In x l -> f x = g x) -> flat_map f l = flat_map g l.
Proof.
  induction l as [|x l IH]; intros H; simpl; [reflexivity|].
  rewrite (H x (or_introl eq_refl)), IH; [reflexivity|].
  intros y Hy. apply H. now right.
Qed.

Lemma Permutation_flat_map_pointwise {A B : Type} (f g : A -> list B) (l : list A) :
  (forall x, Permutation (f x) (g x)) -> Permutation (flat_map f l) (flat_map g l).
Proof.
  intros H. induction l as [|x l IH]; simpl; [constructor|].
  now apply Permutation_app.
Qed.

Lemma Permutation_List_filter {A : Type} (f : A -> bool) (l l' : list A) :
  Permutation l l' -> Permutation (List.filter f l) (List.filter f l').
Proof.
  induction 1 as [| x l l' _ IH | x y l | l l' l'' _ IH1 _ IH2]; simpl.
  - constructor.
  - destruct (f x); [now constructor | assumption].
  - destruct (f x), (f y); try reflexivity. constructor.
  - now transitivity (List.filter f l').
Qed.

Lemma List_filter_implied {A : Type} (P R : A -> bool) (l : list A) :
  (forall x, In x l -> P x = true -> R x = true) ->
  List.filter P (List.filter R l) = List.filter P l.
Proof.
  induction l as [|x l IH]; intros H; simpl; [reflexivity|].
  assert (IH' := IH (fun y Hy => H y (or_intror Hy))).
  destruct (R x) eqn:ER; simpl.
  - now rewrite IH'.
  - destruct (P x) eqn:EP; [|assumption].
    rewrite (H x (or_introl eq_refl) EP) in ER. discriminate.
Qed.

(** Sorting a list into buckets that no element shares, and reading the
    buckets one after the other, permutes the elements that have a bucket. *)
Lemma flat_map_buckets {A K : Type} (Q : K -> A -> bool) (cells : list K) (es : list A) :
  List.NoDup cells ->
  (forall c c' e, Q c e = true -> Q c' e = true -> c = c') ->
  Permutation (flat_map (fun c => List.filter (Q c) es) cells)
              (List.filter (fun e => existsb (fun c => Q c e) cells) es).
Proof.
  intros Hnd Huniq. induction es as [|e es IH]; simpl.
  - replace (flat_map (fun _ : K => []) cells) with (@nil A); [constructor|].
    clear. induction cells; simpl; congruence.
  - destruct (existsb (fun c => Q c e) cells) eqn:Ex.
    + apply existsb_exists in Ex. destruct Ex as (c0 & Hin & Hq).
      destruct (in_split _ _ Hin) as (c1 & c2 & ->).
      assert (Hoff : forall c, In c (c1 ++ c2) -> Q c e = false).
      { intros c Hc. destruct (Q c e) eqn:E; [|reflexivity].
        assert (c = c0) by (eapply Huniq; eassumption). subst c.
        exfalso. exact (NoDup_remove_2 _ _ _ Hnd Hc). }
      rewrite flat_map_app. simpl. rewrite Hq.
      rewrite (flat_map_ext_on _ (fun c => List.filter (Q c) es) c1).
      2:{ intros c Hc. rewrite Hoff; [reflexivity | apply in_or_app; now left]. }
      rewrite (flat_map_ext_on _ (fun c => List.filter (Q c) es) c2).
      2:{ intros c Hc. rewrite Hoff; [reflexivity | apply in_or_app; now right]. }
      simpl. symmetry. etransitivity; [|apply Permutation_middle].
      constructor. symmetry.
      rewrite flat_map_app in IH. simpl in IH. exact IH.
    + rewrite (flat_map_ext_on _ (fun c => List.filter (Q c) es) cells); [exact IH|].
      intros c Hc. destruct (Q c e) eqn:E; [|reflexivity].
      assert (existsb (fun c => Q c e) cells = true)
        by (apply existsb_exists; eauto).
      congruence.
Qed.

Lemma window_candidates_UpdateCellLists mesh search_range particle_position source :
  (0 <= fst (number_of_cells_ mesh) <= INT_MAX)%Z ->
  (0 <= snd (number_of_cells_ mesh) <= INT_MAX)%Z ->
  window_candidates (UpdateCellLists source mesh) search_range particle_position
  = Some (flat_map
            (fun l =>
               flat_map
                 (fun m => List.filter
                             (fun e => same_cell (GridIndexFromPosition mesh (snd e)) (l, m))
                             source)
                 (SPHBodyContactRelation.window
                    (to_int (snd (GridIndexFromPosition mesh particle_position)))
                    search_range (snd (number_of_cells_ mesh))))
            (SPHBodyContactRelation.window
               (to_int (fst (GridIndexFromPosition mesh particle_position)))
               search_range (fst (number_of_cells_ mesh)))).
Proof.
  intros H0 H1. unfold window_candidates.
  destruct (UpdateCellLists_params source mesh) as [Hn Hg].
  rewrite Hn, Hg.
  apply collect_flat_map. intros l Hl.
  apply collect_flat_map. intros m Hm.
  apply window_bounds in Hl; [|assumption].
  apply window_bounds in Hm; [|assumption].
  apply cell_at_UpdateCellLists; lia.
Qed.

(** The window search on a rebuilt grid, for a grid with at least one cell
    in each direction and a cut-off radius of at most [search_range] cell
    spacings; neither the origin nor the source particles need to lie within
    the bounds, since cell coordinates are clamped. *)
Lemma grid_search_permutation
    (mesh : BaseMeshCellLinkedList) (search_range : Z) (current_kernel : Kernel)
    (index_i : nat) (particle_position : Vecd) (source : list ListData)
    (neighborhood : Neighborhood) :
  0 < grid_spacing_ mesh ->
  0 <= GetCutOffRadius current_kernel ->
  GetCutOffRadius current_kernel <= inject_Z search_range * grid_spacing_ mesh ->
  (0 <= search_range)%Z ->
  (0 < fst (number_of_cells_ mesh))%Z -> (0 < snd (number_of_cells_ mesh))%Z ->
  (fst (number_of_cells_ mesh) + search_range <= INT_MAX)%Z ->
  (snd (number_of_cells_ mesh) + search_range <= INT_MAX)%Z ->
  neighborhood_wf neighborhood ->
  exists neighborhood',
    SPHBodyContactRelation.updateConfigurationForParticle (UpdateCellLists source mesh)
      search_range current_kernel index_i particle_position neighborhood
    = Some neighborhood'
    /\ Permutation (SPHBodyContactRelation.neighbors neighborhood')
         (SPHBodyContactRelation.all_pairs_neighbors current_kernel index_i
            particle_position source).
Proof.
  intros Hs Hc0 Hcs Hsr Hn0 Hn1 Hfit0 Hfit1 Hwf.
  set (wi := SPHBodyContactRelation.window
               (to_int (fst (GridIndexFromPosition mesh particle_position)))
               search_range (fst (number_of_cells_ mesh))).
  set (wj := SPHBodyContactRelation.window
               (to_int (snd (GridIndexFromPosition mesh particle_position)))
               search_range (snd (number_of_cells_ mesh))).
  set (cell_is := fun (c : Z * Z) (e : ListData) =>
                    same_cell (GridIndexFromPosition mesh (snd e)) c).
  set (cands := flat_map (fun l => flat_map (fun m => List.filter (cell_is (l, m)) source) wj) wi).
  destruct (updateConfigurationForParticle_result (UpdateCellLists source mesh) search_range
              current_kernel index_i particle_position neighborhood cands Hwf)
    as (nb' & E & Hsize & _ & Hlist & _).
  { apply window_candidates_UpdateCellLists; lia. }
  exists nb'. split; [exact E|].
  unfold SPHBodyContactRelation.neighbors. rewrite Hsize, Hlist, take_app_length.
  unfold accepted_relations, SPHBodyContactRelation.all_pairs_neighbors.
  apply Permutation_map.
  change (fun c : ListData =>
            Qle_bool (normSqr (Vecd_sub particle_position (snd c)))
              (GetCutOffRadius current_kernel * GetCutOffRadius current_kernel))
    with (within_cutoff current_kernel particle_position).
  set (in_wj := fun (l : Z) (e : ListData) => existsb (fun m => cell_is (l, m) e) wj).
  set (in_w := fun (e : ListData) => existsb (fun l => in_wj l e) wi).
  assert (Hperm : Permutation cands (List.filter in_w source)).
  { transitivity (flat_map (fun l => List.filter (in_wj l) source) wi).
    - apply Permutation_flat_map_pointwise. intros l.
      apply (flat_map_buckets (fun m => cell_is (l, m))).
      + apply NoDup_int_range.
      + intros m m' e H1 H2. apply same_cell_true in H1, H2. congruence.
    - apply (flat_map_buckets in_wj).
      + apply NoDup_int_range.
      + intros l l' e H1 H2. unfold in_wj in H1, H2.
        apply existsb_exists in H1, H2.
        destruct H1 as (m & _ & H1), H2 as (m' & _ & H2).
        apply same_cell_true in H1, H2. congruence. }
  etransitivity; [apply Permutation_List_filter, Hperm|].
  rewrite List_filter_implied; [reflexivity|].
  intros e _ Hin. unfold within_cutoff in Hin. apply Qle_bool_iff in Hin.
  destruct (GridIndexFromPosition_near mesh particle_position (snd e)
              (GetCutOffRadius current_kernel) search_range Hs Hc0 Hcs Hin) as [Hl Hm].
  destruct (GridIndexFromPosition_in_grid mesh particle_position Hn0 Hn1) as [Hi Hj].
  destruct (GridIndexFromPosition_in_grid mesh (snd e) Hn0 Hn1) as [Hl' Hm'].
  unfold in_w, in_wj, cell_is.
  apply existsb_exists. exists (fst (GridIndexFromPosition mesh (snd e))). split.
  { apply in_window; assumption. }
  apply existsb_exists. exists (snd (GridIndexFromPosition mesh (snd e))). split.
  { apply in_window; assumption. }
  apply same_cell_true. now destruct (GridIndexFromPosition mesh (snd e)).
Qed.

Lemma in_grid_bounds_nonempty mesh p :
  0 < grid_spacing_ mesh -> SPHBodyContactRelation.in_grid_bounds mesh p ->
  (0 < fst (number_of_cells_ mesh))%Z /\ (0 < snd (number_of_cells_ mesh))%Z.
Proof.
  intros Hs (X1 & X2 & Y1 & Y2).
  assert (Hx : 0 < inject_Z (fst (number_of_cells_ mesh)) * grid_spacing_ mesh) by lra.
  assert (Hy : 0 < inject_Z (snd (number_of_cells_ mesh)) * grid_spacing_ mesh) by lra.
  split.
  - apply Z.lt_nge. intros Hle.
    assert (inject_Z (fst (number_of_cells_ mesh)) <= 0)
      by (change 0 with (inject_Z 0); rewrite <- Zle_Qle; exact Hle).
    nra.
  - apply Z.lt_nge. intros Hle.
    assert (inject_Z (snd (number_of_cells_ mesh)) <= 0)
      by (change 0 with (inject_Z 0); rewrite <- Zle_Qle; exact Hle).
    nra.
Qed.

(** C1: for particles within the grid bounds and a cut-off radius no larger
    than the cell spacing, the neighbours that the cell-window search of the
    relation builder writes for a particle are, up to their order, the
    neighbours of the exhaustive all-pairs search over the source body with
    the same cut-off: none is missing and none is extra.  The search range is
    at least one cell, and cell counts and search range fit [int]. *)
Theorem grid_search_equals_all_pairs
    (mesh : BaseMeshCellLinkedList) (search_range : Z) (current_kernel : Kernel)
    (index_i : nat) (particle_position : Vecd) (source : list ListData)
    (neighborhood : Neighborhood)
    (Hspacing : 0 < grid_spacing_ mesh)
    (Hcutoff0 : 0 <= GetCutOffRadius current_kernel)
    (Hcutoff : GetCutOffRadius current_kernel <= grid_spacing_ mesh)
    (Hrange : (1 <= search_range)%Z)
    (Hfit0 : (fst (number_of_cells_ mesh) + search_range <= INT_MAX)%Z)
    (Hfit1 : (snd (number_of_cells_ mesh) + search_range <= INT_MAX)%Z)
    (Hposition : SPHBodyContactRelation.in_grid_bounds mesh particle_position)
    (Hsource : Forall (fun e => SPHBodyContactRelation.in_grid_bounds mesh (snd e)) source)
    (Hwf : neighborhood_wf neighborhood) :
  exists neighborhood',
    SPHBodyContactRelation.updateConfigurationForParticle (UpdateCellLists source mesh)
      search_range current_kernel index_i particle_position neighborhood
    = Some neighborhood'
    /\ Permutation (SPHBodyContactRelation.neighbors neighborhood')
         (SPHBodyContactRelation.all_pairs_neighbors current_kernel index_i
            particle_position source)
    /\ (forall r, In r (SPHBodyContactRelation.neighbors neighborhood')
                  <-> In r (SPHBodyContactRelation.all_pairs_neighbors current_kernel
                              index_i particle_position source)).
Proof.
  destruct (in_grid_bounds_nonempty mesh particle_position Hspacing Hposition) as [Hn0 Hn1].
  assert (Hsr : 1 <= inject_Z search_range)
    by (change 1 with (inject_Z 1); rewrite <- Zle_Qle; exact Hrange).
  destruct (grid_search_permutation mesh search_range current_kernel index_i
              particle_position source neighborhood) as (nb' & E & Hperm);
    try assumption; [nra | lia |].
  exists nb'. split; [exact E|]. split; [exact Hperm|].
  intros r. split; intros H.
  - eapply Permutation_in; [exact Hperm | exact H].
  - eapply Permutation_in; [symmetry; exact Hperm | exact H].
Qed.

(** ** Ghost-creating passes *)

Lemma particles_wf_lookups (ps : BaseParticles) (i : nat) :
  particles_wf ps -> (i < length (pos_n_ ps))%nat ->
  exists p v a sid,
    pos_n_ ps !! i = Some p /\ vel_n_ ps !! i = Some v
    /\ dvel_dt_others_ ps !! i = Some a /\ sorted_id_ ps !! i = Some sid.
Proof.
  intros (Hv & Ha & Hs & _) Hi.
  destruct (lookup_lt_is_Some_2 (pos_n_ ps) i Hi) as [p Hp].
  destruct (lookup_lt_is_Some_2 (vel_n_ ps) i) as [v Hv']; [lia|].
  destruct (lookup_lt_is_Some_2 (dvel_dt_others_ ps) i) as [a Ha']; [lia|].
  destruct (lookup_lt_is_Some_2 (sorted_id_ ps) i) as [sid Hs']; [lia|].
  exists p, v, a, sid. auto.
Qed.

Lemma ghost_added_wf lower st gp gv a sid reg :
  particles_wf (particles_ st) ->
  particles_wf (particles_ (ghost_added lower st gp gv a sid reg)).
Proof.
  intros (Hv & Ha & Hs & Ht). unfold particles_wf, ghost_added. simpl.
  rewrite !length_app. simpl. lia.
Qed.

Section GhostPass.
Variable step : nat -> GhostState -> option GhostState.
Variable test : Vecd -> bool.
Variables gp gv reg : Vecd -> Vecd.
Variable lower : bool.

Hypothesis step_spec : forall i st p v a sid,
  particles_wf (particles_ st) ->
  pos_n_ (particles_ st) !! i = Some p ->
  vel_n_ (particles_ st) !! i = Some v ->
  dvel_dt_others_ (particles_ st) !! i = Some a ->
  sorted_id_ (particles_ st) !! i = Some sid ->
  step i st = Some (if test p then ghost_added lower st (gp p) (gv v) a sid (reg p) else st).

Lemma ghost_pass_closed_form (indices : list nat) : forall st,
  particles_wf (particles_ st) ->
  (forall i, In i indices -> (i < length (pos_n_ (particles_ st)))%nat) ->
  exists st',
    foldM (fun s i => step i s) indices st = Some st'
    /\ ghosts_appended lower gp gv reg
         (List.filter (fun i => test (nth i (pos_n_ (particles_ st)) Vecd_zero)) indices)
         st st'
    /\ particles_wf (particles_ st').
Proof.
  induction indices as [|i indices IH]; intros st Hwf Hlt.
  - exists st. split; [reflexivity|]. split; [|exact Hwf].
    unfold ghosts_appended. simpl. rewrite !app_nil_r.
    destruct lower; simpl; rewrite ?app_nil_r; repeat split; lia.
  - destruct (particles_wf_lookups _ i Hwf (Hlt i (or_introl eq_refl)))
      as (p & v & a & sid & Hp & Hv & Ha & Hs).
    cbn [foldM List.filter].
    rewrite (step_spec i st p v a sid Hwf Hp Hv Ha Hs).
    rewrite (nth_lookup_Some _ _ Vecd_zero _ Hp).
    destruct (test p) eqn:Ht.
    + set (st1 := ghost_added lower st (gp p) (gv v) a sid (reg p)).
      destruct (IH st1) as (st' & E & Hap & Hwf').
      { now apply ghost_added_wf. }
      { intros j Hj. subst st1. unfold ghost_added. simpl. rewrite length_app.
        specialize (Hlt j (or_intror Hj)). lia. }
      exists st'. split; [exact E|]. split; [|exact Hwf'].
      assert (Hsame : forall (A : Type) (l : list A) (x d : A) (j : nat),
                 In j indices -> length l = length (pos_n_ (particles_ st)) ->
                 nth j (l ++ [x]) d = nth j l d).
      { intros A l x d j Hj Hl. apply app_nth1. specialize (Hlt j (or_intror Hj)). lia. }
      destruct Hwf as (Lv & La & Ls & Lt).
      assert (Hf : List.filter (fun j => test (nth j (pos_n_ (particles_ st1)) Vecd_zero)) indices
                   = List.filter (fun j => test (nth j (pos_n_ (particles_ st)) Vecd_zero)) indices).
      { apply filter_ext_in. intros j Hj. subst st1. simpl.
        now rewrite Hsame. }
      rewrite Hf in Hap. clear Hf.
      set (origins := List.filter _ indices) in *.
      assert (Hin : forall j, In j origins -> In j indices).
      { intros j Hj. subst origins. apply filter_In in Hj. tauto. }
      destruct Hap as (A1 & A2 & A3 & A4 & A5 & A6 & A7 & A8 & A9).
      unfold ghosts_appended. subst st1. simpl in *.
      rewrite length_app in A7, A8, A9. simpl in A7, A8, A9.
      rewrite Nat.add_1_r in A7, A8, A9.
      rewrite (nth_lookup_Some _ _ Vecd_zero _ Hp), (nth_lookup_Some _ _ Vecd_zero _ Hv),
        (nth_lookup_Some _ _ Vecd_zero _ Ha), (nth_lookup_Some _ _ 0%nat _ Hs).
      repeat split.
      * rewrite A1, <- app_assoc. simpl. do 2 f_equal.
        apply map_ext_in. intros j Hj. now rewrite Hsame by auto.
      * rewrite A2, <- app_assoc. simpl. do 2 f_equal.
        apply map_ext_in. intros j Hj. now rewrite Hsame by auto.
      * rewrite A3, <- app_assoc. simpl. do 2 f_equal.
        apply map_ext_in. intros j Hj. now rewrite Hsame by auto.
      * rewrite A4, <- app_assoc. simpl. do 2 f_equal.
        apply map_ext_in. intros j Hj. now rewrite Hsame by auto.
      * exact A5.
      * rewrite A6. lia.
      * rewrite A7. destruct lower; [rewrite <- app_assoc|]; reflexivity.
      * rewrite A8. destruct lower; [|rewrite <- app_assoc]; reflexivity.
      * rewrite A9. f_equal. f_equal.
        apply map_ext_in. intros j Hj. now rewrite Hsame by auto.
    + destruct (IH st Hwf) as (st' & E & Hap & Hwf').
      { intros j Hj. apply Hlt. now right. }
      exists st'. auto.
Qed.

End GhostPass.

Lemma insertAGhostParticle_copy (i : nat) (ps : BaseParticles) p v a sid :
  pos_n_ ps !! i = Some p -> vel_n_ ps !! i = Some v ->
  dvel_dt_others_ ps !! i = Some a -> sorted_id_ ps !! i = Some sid ->
  insertAGhostParticle i ps
  = Some (length (pos_n_ ps),
          {| total_real_particles_ := total_real_particles_ ps;
             number_of_ghost_particles_ := S (number_of_ghost_particles_ ps);
             pos_n_ := pos_n_ ps ++ [p];
             vel_n_ := vel_n_ ps ++ [v];
             dvel_dt_others_ := dvel_dt_others_ ps ++ [a];
             sorted_id_ := sorted_id_ ps ++ [sid] |}).
Proof.
  intros Hp Hv Ha Hs. unfold insertAGhostParticle.
  rewrite Hp, Hv, Ha, Hs. reflexivity.
Qed.

Lemma periodic_create_lower_spec b T i st p v a sid :
  particles_wf (particles_ st) ->
  pos_n_ (particles_ st) !! i = Some p ->
  vel_n_ (particles_ st) !! i = Some v ->
  dvel_dt_others_ (particles_ st) !! i = Some a ->
  sorted_id_ (particles_ st) !! i = Some sid ->
  CreatPeriodicGhostParticles.checkLowerBound b T i st
  = Some (if near_lower_bound b p
          then ghost_added true st p v a sid (Vecd_add p T) else st).
Proof.
  intros _ Hp Hv Ha Hs. unfold CreatPeriodicGhostParticles.checkLowerBound.
  rewrite Hp. simpl. fold (near_lower_bound b p).
  destruct (near_lower_bound b p); [|reflexivity].
  rewrite (insertAGhostParticle_copy i _ p v a sid Hp Hv Ha Hs). reflexivity.
Qed.

Lemma periodic_create_upper_spec b T i st p v a sid :
  particles_wf (particles_ st) ->
  pos_n_ (particles_ st) !! i = Some p ->
  vel_n_ (particles_ st) !! i = Some v ->
  dvel_dt_others_ (particles_ st) !! i = Some a ->
  sorted_id_ (particles_ st) !! i = Some sid ->
  CreatPeriodicGhostParticles.checkUpperBound b T i st
  = Some (if near_upper_bound b p
          then ghost_added false st p v a sid (Vecd_sub p T) else st).
Proof.
  intros _ Hp Hv Ha Hs. unfold CreatPeriodicGhostParticles.checkUpperBound.
  rewrite Hp. simpl. fold (near_upper_bound b p).
  destruct (near_upper_bound b p); [|reflexivity].
  rewrite (insertAGhostParticle_copy i _ p v a sid Hp Hv Ha Hs). reflexivity.
Qed.

Lemma lookup_snoc_length {A : Type} (l : list A) (x : A) (n : nat) :
  n = length l -> (l ++ [x]) !! n = Some x.
Proof. intros ->. rewrite lookup_app_r by lia. now rewrite Nat.sub_diag. Qed.

Lemma insert_snoc_length {A : Type} (l : list A) (x y : A) (n : nat) :
  n = length l -> <[n := y]> (l ++ [x]) = l ++ [y].
Proof. intros ->. rewrite insert_app_r_alt by lia. now rewrite Nat.sub_diag. Qed.

Lemma mirror_create_ghost_spec b body_bound i st p v a sid :
  particles_wf (particles_ st) ->
  pos_n_ (particles_ st) !! i = Some p ->
  vel_n_ (particles_ st) !! i = Some v ->
  dvel_dt_others_ (particles_ st) !! i = Some a ->
  sorted_id_ (particles_ st) !! i = Some sid ->
  MirrorBoundaryConditionInAxisDirection.create_ghost b body_bound i st
  = Some (ghost_added true st (mirrored_position body_bound (axis_ b) p)
            (mirrored_velocity (axis_ b) v) a sid
            (mirrored_position body_bound (axis_ b) p)).
Proof.
  intros (Lv & _) Hp Hv Ha Hs.
  unfold MirrorBoundaryConditionInAxisDirection.create_ghost.
  rewrite (insertAGhostParticle_copy i _ p v a sid Hp Hv Ha Hs). simpl.
  unfold MirrorBoundaryConditionInAxisDirection.mirrorInAxisDirection. simpl.
  rewrite (lookup_snoc_length (pos_n_ (particles_ st)) p _ eq_refl).
  rewrite (lookup_snoc_length (vel_n_ (particles_ st)) v _ (eq_sym Lv)). simpl.
  rewrite (insert_snoc_length (pos_n_ (particles_ st)) p _ _ eq_refl).
  rewrite (insert_snoc_length (vel_n_ (particles_ st)) v _ _ (eq_sym Lv)).
  rewrite (lookup_snoc_length (pos_n_ (particles_ st)) _ _ eq_refl). simpl.
  reflexivity.
Qed.

Lemma mirror_checking_bound_spec positive b i st p v a sid :
  particles_wf (particles_ st) ->
  pos_n_ (particles_ st) !! i = Some p ->
  vel_n_ (particles_ st) !! i = Some v ->
  dvel_dt_others_ (particles_ st) !! i = Some a ->
  sorted_id_ (particles_ st) !! i = Some sid ->
  MirrorBoundaryConditionInAxisDirection.checking_bound_ positive b i st
  = Some (if (if positive then near_upper_bound b p else near_lower_bound b p)
          then ghost_added true st
                 (mirrored_position
                    (if positive then body_upper_bound_ b else body_lower_bound_ b)
                    (axis_ b) p)
                 (mirrored_velocity (axis_ b) v) a sid
                 (mirrored_position
                    (if positive then body_upper_bound_ b else body_lower_bound_ b)
                    (axis_ b) p)
          else st).
Proof.
  intros Hwf Hp Hv Ha Hs.
  unfold MirrorBoundaryConditionInAxisDirection.checking_bound_.
  destruct positive.
  - unfold MirrorBoundaryConditionInAxisDirection.checkUpperBound.
    rewrite Hp. simpl. fold (near_upper_bound b p).
    destruct (near_upper_bound b p); [|reflexivity].
    now apply mirror_create_ghost_spec.
  - unfold MirrorBoundaryConditionInAxisDirection.checkLowerBound.
    rewrite Hp. simpl. fold (near_lower_bound b p).
    destruct (near_lower_bound b p); [|reflexivity].
    now apply mirror_create_ghost_spec.
Qed.

Lemma lookup_List_map {A B : Type} (f : A -> B) (l : list A) (k : nat) :
  List.map f l !! k = f <$> l !! k.
Proof.
  revert k. induction l as [|x l IH]; intros [|k]; simpl; try reflexivity. apply IH.
Qed.

Lemma In_lookup {A : Type} (l : list A) (x : A) : In x l -> exists k, l !! k = Some x.
Proof. intros H. apply list_elem_of_In in H. now apply list_elem_of_lookup_1. Qed.

Lemma lookup_In {A : Type} (l : list A) (k : nat) (x : A) : l !! k = Some x -> In x l.
Proof. intros H. apply list_elem_of_In. eapply list_elem_of_lookup_2. exact H. Qed.

Lemma In_combine_seq {A B : Type} (f : A -> B) (os : list A) : forall L k i,
  os !! k = Some i ->
  In ((L + k)%nat, f i) (combine (seq L (length os)) (List.map f os)).
Proof.
  induction os as [|o os IH]; intros L [|k] i H; simpl in *; try discriminate.
  - inversion H; subst. left. f_equal. lia.
  - right. replace (L + S k)%nat with (S L + k)%nat by lia. now apply IH.
Qed.

(** What a pass leaves of the particles that were there. *)
Lemma ghosts_appended_old lower gp gv reg origins st st' j :
  particles_wf (particles_ st) ->
  ghosts_appended lower gp gv reg origins st st' ->
  (j < length (pos_n_ (particles_ st)))%nat ->
  pos_n_ (particles_ st') !! j = pos_n_ (particles_ st) !! j
  /\ vel_n_ (particles_ st') !! j = vel_n_ (particles_ st) !! j
  /\ dvel_dt_others_ (particles_ st') !! j = dvel_dt_others_ (particles_ st) !! j
  /\ sorted_id_ (particles_ st') !! j = sorted_id_ (particles_ st) !! j.
Proof.
  intros (Lv & La & Ls & _) (A1 & A2 & A3 & A4 & _) Hj.
  rewrite A1, A2, A3, A4.
  rewrite !lookup_app_l by lia. auto.
Qed.

(** The ghost made for the origin at rank [k]. *)
Lemma ghosts_appended_ghost lower gp gv reg origins st st' k i p v a sid :
  particles_wf (particles_ st) ->
  ghosts_appended lower gp gv reg origins st st' ->
  origins !! k = Some i ->
  pos_n_ (particles_ st) !! i = Some p ->
  vel_n_ (particles_ st) !! i = Some v ->
  dvel_dt_others_ (particles_ st) !! i = Some a ->
  sorted_id_ (particles_ st) !! i = Some sid ->
  pos_n_ (particles_ st') !! (length (pos_n_ (particles_ st)) + k)%nat = Some (gp p)
  /\ vel_n_ (particles_ st') !! (length (pos_n_ (particles_ st)) + k)%nat = Some (gv v)
  /\ dvel_dt_others_ (particles_ st') !! (length (pos_n_ (particles_ st)) + k)%nat = Some a
  /\ sorted_id_ (particles_ st') !! (length (pos_n_ (particles_ st)) + k)%nat = Some sid
  /\ In (length (pos_n_ (particles_ st)) + k)%nat
        (seq (length (pos_n_ (particles_ st))) (length origins))
  /\ In ((length (pos_n_ (particles_ st)) + k)%nat, reg p)
        (combine (seq (length (pos_n_ (particles_ st))) (length origins))
                 (List.map (fun i => reg (nth i (pos_n_ (particles_ st)) Vecd_zero)) origins)).
Proof.
  intros (Lv & La & Ls & _) (A1 & A2 & A3 & A4 & _) Hk Hp Hv Ha Hs.
  rewrite A1, A2, A3, A4.
  rewrite !lookup_app_r by lia.
  replace (length (pos_n_ (particles_ st)) + k - length (pos_n_ (particles_ st)))%nat
    with k by lia.
  replace (length (pos_n_ (particles_ st)) + k - length (vel_n_ (particles_ st)))%nat
    with k by lia.
  replace (length (pos_n_ (particles_ st)) + k - length (dvel_dt_others_ (particles_ st)))%nat
    with k by lia.
  replace (length (pos_n_ (particles_ st)) + k - length (sorted_id_ (particles_ st)))%nat
    with k by lia.
  rewrite !lookup_List_map, Hk. simpl.
  rewrite (nth_lookup_Some _ _ Vecd_zero _ Hp), (nth_lookup_Some _ _ Vecd_zero _ Hv),
    (nth_lookup_Some _ _ Vecd_zero _ Ha), (nth_lookup_Some _ _ 0%nat _ Hs).
  repeat split; try reflexivity.
  - apply in_seq. apply lookup_lt_Some in Hk. lia.
  - rewrite <- (nth_lookup_Some _ _ Vecd_zero _ Hp).
    apply (In_combine_seq (fun i => reg (nth i (pos_n_ (particles_ st)) Vecd_zero))).
    exact Hk.
Qed.

(** An entry that is inserted is found in the cell of its position. *)
Lemma registered_after_inserts entries mesh index q :
  mesh_shape mesh ->
  (0 < fst (number_of_cells_ mesh))%Z -> (0 < snd (number_of_cells_ mesh))%Z ->
  In (index, q) entries ->
  exists cell,
    cell_at (cell_linked_lists_
               (fold_left (fun g e => InsertACellLinkedListDataEntry (fst e) (snd e) g)
                          entries mesh))
            (fst (GridIndexFromPosition mesh q)) (snd (GridIndexFromPosition mesh q))
    = Some cell
    /\ In (index, q) cell.
Proof.
  intros Hshape Hn0 Hn1 Hin.
  destruct (GridIndexFromPosition_in_grid mesh q Hn0 Hn1) as [Hl Hm].
  rewrite cell_at_insert_all by lia.
  destruct (cell_at_in_range mesh _ _ Hshape Hl Hm) as [cell0 ->].
  eexists. split; [reflexivity|].
  apply in_or_app. right. apply filter_In. split; [exact Hin|].
  apply same_cell_true. cbn [snd]. now destruct (GridIndexFromPosition mesh q).
Qed.

(** The create pass of a periodic condition: one ghost for each real
    particle near the lower bound, then one for each near the upper bound. *)
Lemma periodic_create_closed_form b T st :
  particles_wf (particles_ st) ->
  exists st1 st',
    CreatPeriodicGhostParticles.exec b T st = Some st'
    /\ particles_wf (particles_ st1)
    /\ ghosts_appended true (fun p => p) (fun v => v) (fun p => Vecd_add p T)
         (List.filter (fun i => near_lower_bound b (nth i (pos_n_ (particles_ st)) Vecd_zero))
                      (seq 0 (total_real_particles_ (particles_ st))))
         (CreatPeriodicGhostParticles.setupDynamics st) st1
    /\ ghosts_appended false (fun p => p) (fun v => v) (fun p => Vecd_sub p T)
         (List.filter (fun i => near_upper_bound b (nth i (pos_n_ (particles_ st)) Vecd_zero))
                      (seq 0 (total_real_particles_ (particles_ st))))
         st1 st'.
Proof.
  intros Hwf. unfold CreatPeriodicGhostParticles.exec.
  set (st0 := CreatPeriodicGhostParticles.setupDynamics st).
  set (n := total_real_particles_ (particles_ st0)).
  assert (Hn : forall i, In i (seq 0 n) -> (i < length (pos_n_ (particles_ st0)))%nat).
  { intros i Hi. apply in_seq in Hi. destruct Hwf as (_ & _ & _ & Ht).
    subst n st0. simpl in *. lia. }
  destruct (ghost_pass_closed_form
              (fun i s => CreatPeriodicGhostParticles.checkLowerBound b T i s)
              (near_lower_bound b) (fun p => p) (fun v => v) (fun p => Vecd_add p T) true
              (periodic_create_lower_spec b T) (seq 0 n) st0 Hwf Hn)
    as (st1 & E1 & Hap1 & Hwf1).
  assert (Hlen : (length (pos_n_ (particles_ st0)) <= length (pos_n_ (particles_ st1)))%nat).
  { destruct Hap1 as (A1 & _). rewrite A1, length_app. lia. }
  destruct (ghost_pass_closed_form
              (fun i s => CreatPeriodicGhostParticles.checkUpperBound b T i s)
              (near_upper_bound b) (fun p => p) (fun v => v) (fun p => Vecd_sub p T) false
              (periodic_create_upper_spec b T) (seq 0 n) st1 Hwf1)
    as (st' & E2 & Hap2 & Hwf2).
  { intros i Hi. specialize (Hn i Hi). lia. }
  exists st1, st'. rewrite E1. simpl. split; [exact E2|]. split; [exact Hwf1|].
  split; [exact Hap1|].
  replace (List.filter (fun i => near_upper_bound b (nth i (pos_n_ (particles_ st)) Vecd_zero))
             (seq 0 (total_real_particles_ (particles_ st))))
    with (List.filter (fun i => near_upper_bound b (nth i (pos_n_ (particles_ st1)) Vecd_zero))
            (seq 0 n)); [exact Hap2|].
  apply filter_ext_in. intros i Hi. specialize (Hn i Hi).
  destruct Hap1 as (A1 & _). rewrite A1. simpl.
  rewrite app_nth1; [reflexivity | exact Hn].
Qed.





Lemma origins_facts (f : nat -> bool) (n : nat) :
  List.NoDup (List.filter f (seq 0 n))
  /\ forall j, In j (List.filter f (seq 0 n)) -> (j < n)%nat.
Proof.
  split.
  - apply List.NoDup_filter, seq_NoDup.
  - intros j Hj. apply filter_In in Hj. destruct Hj as [Hj _]. apply in_seq in Hj. lia.
Qed.



(** ** Mirror condition: the ghosts of the create pass *)

Lemma mirror_image_mirrored body_bound ax p v :
  mirror_image body_bound ax p v (mirrored_position body_bound ax p) (mirrored_velocity ax v).
Proof.
  unfold mirror_image, mirrored_position, mirrored_velocity.
  rewrite !vget_vset_same. split; [reflexivity|]. split; [ring|].
  intros k Hk. rewrite !vget_vset_other by congruence. split; reflexivity.
Qed.

(** C2: after the mirror create pass, every real particle within the
    proximity range of the bound has a ghost in the ghost list whose position
    and velocity are its own mirrored at the bound along the axis
    ([2 * bound - position], [- velocity]), every other component and every
    other attribute being that of the real particle; every ghost of the list
    is such a ghost; and the particles that were there are unchanged. *)
Theorem mirror_ghost_state (positive : bool) (b : BoundingInAxisDirection)
    (st : GhostState) (Hwf : particles_wf (particles_ st)) :
  exists st',
    MirrorBoundaryConditionInAxisDirection.exec positive b st = Some st'
    /\ (forall i p v,
           (i < total_real_particles_ (particles_ st))%nat ->
           pos_n_ (particles_ st) !! i = Some p ->
           vel_n_ (particles_ st) !! i = Some v ->
           mirror_near positive b p = true ->
           exists g pg vg,
             In g (ghosts_lower_ st')
             /\ pos_n_ (particles_ st') !! g = Some pg
             /\ vel_n_ (particles_ st') !! g = Some vg
             /\ mirror_image (mirror_bound positive b) (axis_ b) p v pg vg
             /\ dvel_dt_others_ (particles_ st') !! g = dvel_dt_others_ (particles_ st) !! i
             /\ sorted_id_ (particles_ st') !! g = sorted_id_ (particles_ st) !! i)
    /\ (forall g,
           In g (ghosts_lower_ st') ->
           exists i p v pg vg,
             (i < total_real_particles_ (particles_ st))%nat
             /\ pos_n_ (particles_ st) !! i = Some p
             /\ vel_n_ (particles_ st) !! i = Some v
             /\ mirror_near positive b p = true
             /\ pos_n_ (particles_ st') !! g = Some pg
             /\ vel_n_ (particles_ st') !! g = Some vg
             /\ mirror_image (mirror_bound positive b) (axis_ b) p v pg vg
             /\ dvel_dt_others_ (particles_ st') !! g = dvel_dt_others_ (particles_ st) !! i
             /\ sorted_id_ (particles_ st') !! g = sorted_id_ (particles_ st) !! i)
    /\ (forall j,
           (j < length (pos_n_ (particles_ st)))%nat ->
           pos_n_ (particles_ st') !! j = pos_n_ (particles_ st) !! j
           /\ vel_n_ (particles_ st') !! j = vel_n_ (particles_ st) !! j
           /\ dvel_dt_others_ (particles_ st') !! j = dvel_dt_others_ (particles_ st) !! j
           /\ sorted_id_ (particles_ st') !! j = sorted_id_ (particles_ st) !! j).
Proof.
  unfold MirrorBoundaryConditionInAxisDirection.exec.
  set (st0 := {| particles_ := particles_ st;
                 mesh_cell_linked_list_ := mesh_cell_linked_list_ st;
                 ghosts_lower_ := [];
                 ghosts_upper_ := ghosts_upper_ st |}).
  set (n := total_real_particles_ (particles_ st)).
  assert (Hn : forall i, In i (seq 0 n) -> (i < length (pos_n_ (particles_ st0)))%nat).
  { intros i Hi. apply in_seq in Hi. destruct Hwf as (_ & _ & _ & Ht).
    subst n st0. simpl in *. lia. }
  destruct (ghost_pass_closed_form
              (fun i s => MirrorBoundaryConditionInAxisDirection.checking_bound_ positive b i s)
              (mirror_near positive b)
              (mirrored_position (mirror_bound positive b) (axis_ b))
              (mirrored_velocity (axis_ b))
              (mirrored_position (mirror_bound positive b) (axis_ b)) true
              (mirror_checking_bound_spec positive b) (seq 0 n) st0 Hwf Hn)
    as (st' & E & Hap & Hwf').
  exists st'. split; [exact E|].
  set (origins := List.filter _ (seq 0 n)) in Hap.
  assert (Hlist : ghosts_lower_ st' = seq (length (pos_n_ (particles_ st))) (length origins)).
  { destruct Hap as (_ & _ & _ & _ & _ & _ & L1 & _). exact L1. }
  assert (Hghost : forall k i p v,
             origins !! k = Some i ->
             pos_n_ (particles_ st) !! i = Some p ->
             vel_n_ (particles_ st) !! i = Some v ->
             pos_n_ (particles_ st') !! (length (pos_n_ (particles_ st)) + k)%nat
             = Some (mirrored_position (mirror_bound positive b) (axis_ b) p)
             /\ vel_n_ (particles_ st') !! (length (pos_n_ (particles_ st)) + k)%nat
                = Some (mirrored_velocity (axis_ b) v)
             /\ dvel_dt_others_ (particles_ st') !! (length (pos_n_ (particles_ st)) + k)%nat
                = dvel_dt_others_ (particles_ st) !! i
             /\ sorted_id_ (particles_ st') !! (length (pos_n_ (particles_ st)) + k)%nat
                = sorted_id_ (particles_ st) !! i).
  { intros k i p v Hk Hp Hv.
    assert (Hi : (i < length (pos_n_ (particles_ st)))%nat) by now apply lookup_lt_Some in Hp.
    destruct (particles_wf_lookups _ i Hwf Hi) as (p' & v' & a & sid & Hp' & Hv' & Ha & Hs).
    destruct (ghosts_appended_ghost true _ _ _ origins st0 st' k i p v a sid
                Hwf Hap Hk Hp Hv Ha Hs)
      as (G1 & G2 & G3 & G4 & _).
    simpl in G1, G2, G3, G4. rewrite G1, G2, G3, G4, Ha, Hs. auto. }
  split; [|split].
  - intros i p v Hi Hp Hv Hnear.
    assert (Hin : In i origins).
    { apply filter_In. split; [apply in_seq; lia|].
      simpl. now rewrite (nth_lookup_Some _ _ Vecd_zero _ Hp). }
    destruct (In_lookup _ _ Hin) as [k Hk].
    destruct (Hghost k i p v Hk Hp Hv) as (G1 & G2 & G3 & G4).
    exists (length (pos_n_ (particles_ st)) + k)%nat,
      (mirrored_position (mirror_bound positive b) (axis_ b) p),
      (mirrored_velocity (axis_ b) v).
    rewrite Hlist. split.
    { apply in_seq. apply lookup_lt_Some in Hk. lia. }
    split; [exact G1|]. split; [exact G2|].
    split; [apply mirror_image_mirrored|]. split; assumption.
  - intros g Hg. rewrite Hlist in Hg. apply in_seq in Hg.
    destruct (lookup_lt_is_Some_2 origins (g - length (pos_n_ (particles_ st)))%nat)
      as [i Hk]; [lia|].
    assert (Hin : In i origins) by (eapply lookup_In; exact Hk).
    apply filter_In in Hin. destruct Hin as [Hseq Hnear]. apply in_seq in Hseq.
    simpl in Hnear.
    destruct (particles_wf_lookups _ i Hwf) as (p & v & a & sid & Hp & Hv & Ha & Hs).
    { simpl in Hn. apply Hn. apply in_seq. lia. }
    rewrite (nth_lookup_Some _ _ Vecd_zero _ Hp) in Hnear.
    destruct (Hghost _ i p v Hk Hp Hv) as (G1 & G2 & G3 & G4).
    replace (length (pos_n_ (particles_ st)) + (g - length (pos_n_ (particles_ st))))%nat
      with g in * by lia.
    exists i, p, v, (mirrored_position (mirror_bound positive b) (axis_ b) p),
      (mirrored_velocity (axis_ b) v).
    split; [fold n; lia|].
    split; [exact Hp|]. split; [exact Hv|]. split; [exact Hnear|].
    split; [exact G1|]. split; [exact G2|].
    split; [apply mirror_image_mirrored|]. split; assumption.
  - intros j Hj.
    exact (ghosts_appended_old true _ _ _ origins st0 st' j Hwf Hap Hj).
Qed.

(** C4 (amended): for a body whose single real particle has its coordinate
    along the mirror axis equal to the upper bound, the mirror create pass of
    the upper side creates no ghost: the ghost list is empty, and particles
    and cell linked list are left as they were.  (The reflection of such a
    point at the bound is the point itself.) *)
Theorem mirror_no_ghost_at_exact_bound (b : BoundingInAxisDirection) (st : GhostState)
    (p : Vecd)
    (Hone : total_real_particles_ (particles_ st) = 1%nat)
    (Hp : pos_n_ (particles_ st) !! 0%nat = Some p)
    (Hexact : vget p (axis_ b) == vget (body_upper_bound_ b) (axis_ b)) :
  MirrorBoundaryConditionInAxisDirection.exec true b st
  = Some {| particles_ := particles_ st;
            mesh_cell_linked_list_ := mesh_cell_linked_list_ st;
            ghosts_lower_ := [];
            ghosts_upper_ := ghosts_upper_ st |}
  /\ vget (mirrored_position (body_upper_bound_ b) (axis_ b) p) (axis_ b) == vget p (axis_ b).
Proof.
  split.
  - unfold MirrorBoundaryConditionInAxisDirection.exec. rewrite Hone. simpl.
    unfold MirrorBoundaryConditionInAxisDirection.checkUpperBound. simpl.
    rewrite Hp. simpl.
    destruct (Qlt_bool_spec (vget p (axis_ b)) (vget (body_upper_bound_ b) (axis_ b)))
      as [Hlt|_]; [exfalso; lra|].
    reflexivity.
  - unfold mirrored_position. rewrite vget_vset_same. lra.
Qed.

Lemma mirror_no_ghost_at_exact_bound_witness :
  MirrorBoundaryConditionInAxisDirection.exec true
    (mkBounding AxisX (mkVecd 0 0) (mkVecd 4 4) 1 (1 # 2))
    (mkGhostState
       (mkBaseParticles 1 0 [mkVecd 4 2] [mkVecd 1 0] [mkVecd 0 0] [0%nat])
       (UpdateCellLists [(0%nat, mkVecd 4 2)] (mkMesh (mkVecd 0 0) 1 (4, 4)%Z []))
       [] [])
  = Some (mkGhostState
            (mkBaseParticles 1 0 [mkVecd 4 2] [mkVecd 1 0] [mkVecd 0 0] [0%nat])
            (UpdateCellLists [(0%nat, mkVecd 4 2)] (mkMesh (mkVecd 0 0) 1 (4, 4)%Z []))
            [] [])
  /\ vget (mirrored_position (mkVecd 4 4) AxisX (mkVecd 4 2)) AxisX == vget (mkVecd 4 2) AxisX.
Proof.
  apply (mirror_no_ghost_at_exact_bound
           (mkBounding AxisX (mkVecd 0 0) (mkVecd 4 4) 1 (1 # 2))
           (mkGhostState
              (mkBaseParticles 1 0 [mkVecd 4 2] [mkVecd 1 0] [mkVecd 0 0] [0%nat])
              (UpdateCellLists [(0%nat, mkVecd 4 2)] (mkMesh (mkVecd 0 0) 1 (4, 4)%Z []))
              [] [])
           (mkVecd 4 2)).
  - reflexivity.
  - reflexivity.
  - reflexivity.
Defined.

(** C4 as stated fails: with the single particle of a body exactly at the
    upper bound, the create pass does not leave exactly one ghost. *)
Lemma mirror_exact_bound_no_single_ghost :
  vget (mkVecd 4 2) AxisX == vget (mkVecd 4 4) AxisX
  /\ ~ exists st' g,
         MirrorBoundaryConditionInAxisDirection.exec true
           (mkBounding AxisX (mkVecd 0 0) (mkVecd 4 4) 1 (1 # 2))
           (mkGhostState
              (mkBaseParticles 1 0 [mkVecd 4 2] [mkVecd 1 0] [mkVecd 0 0] [0%nat])
              (UpdateCellLists [(0%nat, mkVecd 4 2)] (mkMesh (mkVecd 0 0) 1 (4, 4)%Z []))
              [] [])
         = Some st'
         /\ ghosts_lower_ st' = [g].
Proof.
  split; [reflexivity|].
  intros (st' & g & E & Hg).
  vm_compute in E. inversion E; subst st'. simpl in Hg. discriminate Hg.
Qed.

(** ** Body bounds by reduction *)

Lemma Real_max_spec a b :
  a <= Real_max a b /\ b <= Real_max a b /\ (Real_max a b = a \/ Real_max a b = b).
Proof.
  unfold Real_max. destruct (Qlt_bool_spec b a) as [H|H].
  - repeat split; [lra | lra | now left].
  - repeat split; [lra | lra | now right].
Qed.

Lemma Real_min_spec a b :
  Real_min a b <= a /\ Real_min a b <= b /\ (Real_min a b = a \/ Real_min a b = b).
Proof.
  unfold Real_min. destruct (Qlt_bool_spec a b) as [H|H].
  - repeat split; [lra | lra | now left].
  - repeat split; [lra | lra | now right].
Qed.

Lemma vget_ReduceUpperBound x y k :
  vget (ReduceUpperBound x y) k = Real_max (vget x k) (vget y k).
Proof. destruct k; reflexivity. Qed.

Lemma vget_ReduceLowerBound x y k :
  vget (ReduceLowerBound x y) k = Real_min (vget x k) (vget y k).
Proof. destruct k; reflexivity. Qed.

Lemma take_add_drop {A : Type} (l : list A) (n m : nat) :
  take (n + m) l = take n l ++ take m (drop n l).
Proof.
  revert l. induction n as [|n IH]; intros [|x l]; simpl; try reflexivity.
  - now rewrite take_nil.
  - now rewrite IH.
Qed.

Section Extremum.
Variable le : Real -> Real -> Prop.
Hypothesis le_refl : forall x, le x x.
Hypothesis le_trans : forall x y z, le x y -> le y z -> le x z.
Variable op : Vecd -> Vecd -> Vecd.
Hypothesis op_spec : forall x y k,
  le (vget x k) (vget (op x y) k) /\ le (vget y k) (vget (op x y) k)
  /\ (vget (op x y) k = vget x k \/ vget (op x y) k = vget y k).

(** Folding the combiner into a reference value gives the extreme one of the
    reference value and the folded values. *)
Lemma fold_extremum (l : list Vecd) : forall (s : Vecd) (k : Axis),
  is_extremum le (vget (fold_left op l s) k) (vget s k :: List.map (fun p => vget p k) l).
Proof.
  induction l as [|p l IH]; intros s k; simpl.
  - split; [intros x [<-|[]]; apply le_refl | now left].
  - destruct (IH (op s p) k) as [Hub Hin].
    destruct (op_spec s p k) as (M1 & M2 & M3).
    split.
    + intros x [<-|[<-|Hx]].
      * eapply le_trans; [exact M1 | apply Hub; now left].
      * eapply le_trans; [exact M2 | apply Hub; now left].
      * apply Hub. now right.
    + destruct Hin as [Hin|Hin]; [|now right; right].
      destruct M3 as [E|E]; rewrite E in Hin; [now left | now right; left].
Qed.

(** The sequential reduce is the fold over the positions of the real
    particles. *)
Lemma reduce_range (pos : list Vecd) (k : nat) : forall (a : nat) (acc : Vecd),
  (a + k <= length pos)%nat ->
  foldM (fun temp i => x ← pos !! i; Some (op temp x)) (seq a k) acc
  = Some (fold_left op (take k (drop a pos)) acc).
Proof.
  induction k as [|k IH]; intros a acc Hle; simpl; [reflexivity|].
  destruct (lookup_lt_is_Some_2 pos a) as [x Hx]; [lia|].
  rewrite Hx. simpl. rewrite IH by lia.
  rewrite (drop_S _ _ _ Hx). reflexivity.
Qed.

Lemma reduce_exec_extremum (s : Vecd) (pos : list Vecd) (n : nat) (k : Axis) :
  (n <= length pos)%nat ->
  exists r,
    ParticleDynamicsReduce.exec s op (fun i => pos !! i) n = Some r
    /\ is_extremum le (vget r k) (vget s k :: List.map (fun p => vget p k) (take n pos)).
Proof.
  intros Hn. unfold ParticleDynamicsReduce.exec.
  rewrite (reduce_range pos n 0%nat s Hn). simpl.
  eexists. split; [reflexivity | apply fold_extremum].
Qed.

(** The parallel reduce over the blocks of a partition. *)
Lemma reduce_blocks_extremum (s : Vecd) (pos : list Vecd) (k : Axis) (sizes : list nat) :
  forall (a : nat) (acc : Vecd),
    (a + list_sum sizes <= length pos)%nat ->
    exists r,
      foldM (fun temp block =>
               part ← foldM (fun t i => x ← pos !! i; Some (op t x)) block s;
               Some (op temp part))
            (ParticleDynamicsReduce.blocks a sizes) acc = Some r
      /\ le (vget acc k) (vget r k)
      /\ (forall x, In x (List.map (fun p => vget p k) (take (list_sum sizes) (drop a pos))) ->
                     le x (vget r k))
      /\ In (vget r k)
            (vget acc k :: vget s k
               :: List.map (fun p => vget p k) (take (list_sum sizes) (drop a pos))).
Proof.
  induction sizes as [|n sizes IH]; intros a acc Hle; simpl in *.
  - exists acc. split; [reflexivity|]. split; [apply le_refl|].
    split; [intros x []| now left].
  - rewrite (reduce_range pos n a s) by lia. simpl.
    set (part := fold_left op (take n (drop a pos)) s).
    destruct (fold_extremum (take n (drop a pos)) s k) as [Pub Pin]. fold part in Pub, Pin.
    destruct (op_spec acc part k) as (M1 & M2 & M3).
    destruct (IH (a + n)%nat (op acc part)) as (r & E & R1 & R2 & R3); [lia|].
    exists r. split; [exact E|].
    rewrite take_add_drop, drop_drop, map_app.
    split; [eapply le_trans; eassumption|]. split.
    + intros x Hx. apply in_app_or in Hx. destruct Hx as [Hx|Hx].
      * eapply le_trans; [apply Pub; right; exact Hx|].
        eapply le_trans; eassumption.
      * now apply R2.
    + destruct R3 as [R3|[R3|R3]].
      * destruct M3 as [M3|M3]; rewrite M3 in R3; [now left|].
        rewrite R3 in Pin. destruct Pin as [Pin|Pin]; [right; now left|].
        right; right. apply in_or_app. now left.
      * right. now left.
      * right; right. apply in_or_app. now right.
Qed.

Lemma reduce_parallel_exec_extremum (s : Vecd) (pos : list Vecd) (k : Axis)
    (sizes : list nat) :
  (list_sum sizes <= length pos)%nat ->
  exists r,
    ParticleDynamicsReduce.parallel_exec s op (fun i => pos !! i) sizes = Some r
    /\ is_extremum le (vget r k)
         (vget s k :: List.map (fun p => vget p k) (take (list_sum sizes) pos)).
Proof.
  intros Hn. unfold ParticleDynamicsReduce.parallel_exec.
  destruct (reduce_blocks_extremum s pos k sizes 0%nat s) as (r & E & R1 & R2 & R3);
    [simpl; lia|].
  exists r. split; [exact E|]. simpl in R2, R3. split.
  - intros x [<-|Hx]; [exact R1 | now apply R2].
  - destruct R3 as [R3|[R3|R3]]; [now left | now left | now right].
Qed.

End Extremum.

Lemma ReduceUpperBound_spec x y k :
  vget x k <= vget (ReduceUpperBound x y) k /\ vget y k <= vget (ReduceUpperBound x y) k
  /\ (vget (ReduceUpperBound x y) k = vget x k \/ vget (ReduceUpperBound x y) k = vget y k).
Proof. rewrite vget_ReduceUpperBound. apply Real_max_spec. Qed.

Lemma ReduceLowerBound_spec x y k :
  vget (ReduceLowerBound x y) k <= vget x k /\ vget (ReduceLowerBound x y) k <= vget y k
  /\ (vget (ReduceLowerBound x y) k = vget x k \/ vget (ReduceLowerBound x y) k = vget y k).
Proof. rewrite vget_ReduceLowerBound. apply Real_min_spec. Qed.

(** The reductions return the greatest (least) of the reference value and
    the coordinates of the real particles. *)
Lemma BodyUpperBound_exec_seeded (ps : BaseParticles) (k : Axis) :
  particles_wf ps ->
  exists r, BodyUpperBound.exec ps = Some r
            /\ is_maximum (vget r k) (min_real_number :: real_coordinates ps k).
Proof.
  intros (_ & _ & _ & Hn).
  replace min_real_number with (vget BodyUpperBound.initial_reference_ k) by now destruct k.
  apply (reduce_exec_extremum Qle Qle_refl Qle_trans ReduceUpperBound ReduceUpperBound_spec);
    exact Hn.
Qed.

Lemma BodyLowerBound_exec_seeded (ps : BaseParticles) (k : Axis) :
  particles_wf ps ->
  exists r, BodyLowerBound.exec ps = Some r
            /\ is_minimum (vget r k) (max_real_number :: real_coordinates ps k).
Proof.
  intros (_ & _ & _ & Hn).
  replace max_real_number with (vget BodyLowerBound.initial_reference_ k) by now destruct k.
  apply (reduce_exec_extremum (fun a b => b <= a) Qle_refl
           (fun x y z H1 H2 => Qle_trans _ _ _ H2 H1) ReduceLowerBound
           ReduceLowerBound_spec); exact Hn.
Qed.

(** The result of either reduction does not depend on the partition of the
    particle range into blocks, up to [==]. *)
Lemma BodyUpperBound_partition_independent (ps : BaseParticles) (sizes : list nat) (k : Axis) :
  particles_wf ps ->
  list_sum sizes = total_real_particles_ ps ->
  exists r r', BodyUpperBound.exec ps = Some r
               /\ BodyUpperBound.parallel_exec sizes ps = Some r'
               /\ vget r' k == vget r k.
Proof.
  intros Hwf Hsum.
  destruct (BodyUpperBound_exec_seeded ps k Hwf) as (r & E & Hub & Hin).
  destruct (reduce_parallel_exec_extremum Qle Qle_refl Qle_trans ReduceUpperBound
              ReduceUpperBound_spec BodyUpperBound.initial_reference_ (pos_n_ ps) k sizes)
    as (r' & E' & Hub' & Hin').
  { destruct Hwf as (_ & _ & _ & Hn). lia. }
  rewrite Hsum in Hub', Hin'.
  replace (vget BodyUpperBound.initial_reference_ k) with min_real_number in Hub', Hin'
    by now destruct k.
  exists r, r'. split; [exact E|]. split; [exact E'|].
  apply Qle_antisym; [apply Hub, Hin' | apply Hub', Hin].
Qed.

Lemma BodyLowerBound_partition_independent (ps : BaseParticles) (sizes : list nat) (k : Axis) :
  particles_wf ps ->
  list_sum sizes = total_real_particles_ ps ->
  exists r r', BodyLowerBound.exec ps = Some r
               /\ BodyLowerBound.parallel_exec sizes ps = Some r'
               /\ vget r' k == vget r k.
Proof.
  intros Hwf Hsum.
  destruct (BodyLowerBound_exec_seeded ps k Hwf) as (r & E & Hlb & Hin).
  destruct (reduce_parallel_exec_extremum (fun a b => b <= a) Qle_refl
              (fun x y z H1 H2 => Qle_trans _ _ _ H2 H1) ReduceLowerBound
              ReduceLowerBound_spec BodyLowerBound.initial_reference_ (pos_n_ ps) k sizes)
    as (r' & E' & Hlb' & Hin').
  { destruct Hwf as (_ & _ & _ & Hn). lia. }
  rewrite Hsum in Hlb', Hin'.
  replace (vget BodyLowerBound.initial_reference_ k) with max_real_number in Hlb', Hin'
    by now destruct k.
  exists r, r'. split; [exact E|]. split; [exact E'|].
  apply Qle_antisym; [apply Hlb', Hin | apply Hlb, Hin'].
Qed.

(** The lower bound is the least coordinate of a non-empty body whose
    coordinates are below the reference value; the upper bound is the greatest
    coordinate only if some coordinate reaches the reference value
    2^-1022. *)
Lemma BodyLowerBound_exec_minimum (ps : BaseParticles) (k : Axis) :
  particles_wf ps ->
  real_coordinates ps k <> [] ->
  (forall x, In x (real_coordinates ps k) -> x < max_real_number) ->
  exists r, BodyLowerBound.exec ps = Some r
            /\ is_minimum (vget r k) (real_coordinates ps k).
Proof.
  intros Hwf Hne Hlt.
  destruct (BodyLowerBound_exec_seeded ps k Hwf) as (r & E & Hlb & Hin).
  exists r. split; [exact E|]. split.
  - intros x Hx. apply Hlb. now right.
  - destruct Hin as [Hin|Hin]; [|exact Hin].
    destruct (real_coordinates ps k) as [|x l] eqn:El; [congruence|].
    exfalso. specialize (Hlb x (or_intror (or_introl eq_refl))).
    specialize (Hlt x (or_introl eq_refl)). rewrite <- Hin in Hlb. lra.
Qed.

Lemma BodyUpperBound_exec_maximum (ps : BaseParticles) (k : Axis) :
  particles_wf ps ->
  (exists x, In x (real_coordinates ps k) /\ min_real_number < x) ->
  exists r, BodyUpperBound.exec ps = Some r
            /\ is_maximum (vget r k) (real_coordinates ps k).
Proof.
  intros Hwf (x & Hx & Hlt).
  destruct (BodyUpperBound_exec_seeded ps k Hwf) as (r & E & Hub & Hin).
  exists r. split; [exact E|]. split.
  - intros y Hy. apply Hub. now right.
  - destruct Hin as [Hin|Hin]; [|exact Hin].
    exfalso. specialize (Hub x (or_intror Hx)). rewrite <- Hin in Hub. lra.
Qed.

Lemma BodyUpperBound_exec_below_reference (ps : BaseParticles) (k : Axis) :
  particles_wf ps ->
  (forall x, In x (real_coordinates ps k) -> x < min_real_number) ->
  exists r, BodyUpperBound.exec ps = Some r /\ vget r k = min_real_number.
Proof.
  intros Hwf Hlt.
  destruct (BodyUpperBound_exec_seeded ps k Hwf) as (r & E & Hub & Hin).
  exists r. split; [exact E|].
  destruct Hin as [Hin|Hin]; [now symmetry|].
  exfalso. specialize (Hub _ (or_introl eq_refl)). specialize (Hlt _ Hin). lra.
Qed.


(** C9, at a body whose only particle is at (-1, -1): the upper-bound
    reduction, sequential or parallel over one block, returns the reference
    value 2^-1022 in both components, which is not the maximum -1 of the
    particle positions; the lower-bound reduction returns the minimum. *)
Theorem BodyUpperBound_negative_coordinates :
  BodyUpperBound.exec
    (mkBaseParticles 1 0 [mkVecd (- (1)) (- (1))] [mkVecd 0 0] [mkVecd 0 0] [0%nat])
  = Some (Vecd_fill min_real_number)
  /\ BodyUpperBound.parallel_exec [1%nat]
       (mkBaseParticles 1 0 [mkVecd (- (1)) (- (1))] [mkVecd 0 0] [mkVecd 0 0] [0%nat])
     = Some (Vecd_fill min_real_number)
  /\ ~ Vecd_equiv (Vecd_fill min_real_number) (mkVecd (- (1)) (- (1)))
  /\ BodyLowerBound.exec
       (mkBaseParticles 1 0 [mkVecd (- (1)) (- (1))] [mkVecd 0 0] [mkVecd 0 0] [0%nat])
     = Some (mkVecd (- (1)) (- (1))).
Proof.
  split; [vm_compute; reflexivity|].
  split; [vm_compute; reflexivity|].
  split; [|vm_compute; reflexivity].
  intros [H _]. vm_compute in H. discriminate H.
Qed.


(** ** The statements at the example configuration *)

Lemma Example_particles_wf : particles_wf Example.particles.
Proof. repeat split; simpl; lia. Defined.

Lemma Example_mesh_shape : mesh_shape Example.mesh.
Proof. split; [reflexivity | repeat constructor]. Defined.

Lemma Example_neighborhood_wf : neighborhood_wf Example.neighborhood.
Proof. reflexivity. Defined.

Lemma Example_in_grid_bounds :
  Forall (fun e => SPHBodyContactRelation.in_grid_bounds Example.empty_mesh (snd e))
         (particle_entries Example.positions).
Proof.
  repeat constructor; simpl; try reflexivity; unfold Qle; simpl; lia.
Defined.

Lemma grid_search_equals_all_pairs_witness :
  exists neighborhood',
    SPHBodyContactRelation.updateConfigurationForParticle Example.mesh 1 Example.kernel
      0 (mkVecd (1 # 4) 2) Example.neighborhood = Some neighborhood'
    /\ Permutation (SPHBodyContactRelation.neighbors neighborhood')
         (SPHBodyContactRelation.all_pairs_neighbors Example.kernel 0 (mkVecd (1 # 4) 2)
            (particle_entries Example.positions)).
Proof.
  destruct (grid_search_equals_all_pairs Example.empty_mesh 1 Example.kernel 0
              (mkVecd (1 # 4) 2) (particle_entries Example.positions) Example.neighborhood)
    as (nb' & E & Hperm & _).
  - reflexivity.
  - unfold Qle; simpl; lia.
  - unfold Qle; simpl; lia.
  - lia.
  - vm_compute; discriminate.
  - vm_compute; discriminate.
  - repeat split; simpl; try reflexivity; unfold Qle; simpl; lia.
  - exact Example_in_grid_bounds.
  - reflexivity.
  - exists nb'. split; [exact E | exact Hperm].
Defined.

Lemma mirror_ghost_state_witness :
  exists st',
    MirrorBoundaryConditionInAxisDirection.exec true Example.bounding Example.state
    = Some st'
    /\ exists g pg vg,
         In g (ghosts_lower_ st')
         /\ pos_n_ (particles_ st') !! g = Some pg
         /\ vel_n_ (particles_ st') !! g = Some vg
         /\ mirror_image (mkVecd 4 4) AxisX (mkVecd (15 # 4) 2) (mkVecd (- (1)) 0) pg vg.
Proof.
  destruct (mirror_ghost_state true Example.bounding Example.state Example_particles_wf)
    as (st' & E & Hreal & _).
  exists st'. split; [exact E|].
  destruct (Hreal 2%nat (mkVecd (15 # 4) 2) (mkVecd (- (1)) 0))
    as (g & pg & vg & Hg & Hpg & Hvg & Him & _).
  - simpl; lia.
  - reflexivity.
  - reflexivity.
  - reflexivity.
  - exists g, pg, vg. auto.
Defined.



Lemma neighborhood_overwrite_then_append_witness :
  exists neighborhood',
    SPHBodyContactRelation.updateConfigurationForParticle Example.mesh 1 Example.kernel
      0 (mkVecd (1 # 4) 2) Example.neighborhood = Some neighborhood'
    /\ current_size_ neighborhood' = 2%nat
    /\ memory_size_ neighborhood' = 2%nat
    /\ (memory_size_ Example.neighborhood <= memory_size_ neighborhood')%nat.
Proof.
  destruct (neighborhood_overwrite_then_append Example.mesh 1 Example.kernel 0
              (mkVecd (1 # 4) 2) Example.neighborhood
              [(0%nat, mkVecd (1 # 4) 2); (1%nat, mkVecd 1 (5 # 2))]
              [(Example.mesh, 1%Z, Example.kernel, mkVecd (1 # 4) 2)])
    as (_ & _ & (nb' & E & Hs & Hm & _ & Hle & _) & _).
  - reflexivity.
  - reflexivity.
  - repeat constructor. simpl. eexists. reflexivity.
  - exists nb'. split; [exact E|]. split; [exact Hs|]. split; [exact Hm | exact Hle].
Defined.

Lemma window_within_grid_witness :
  (forall i l, In l (SPHBodyContactRelation.window i 7 4) -> (0 <= l <= 4 - 1)%Z)
  /\ is_Some (SPHBodyContactRelation.updateConfigurationForParticle Example.mesh 7
                Example.kernel 0 (mkVecd (- (3)) 9) Example.neighborhood).
Proof.
  destruct (window_within_grid Example.mesh 7 Example.kernel 0 (mkVecd (- (3)) 9)
              Example.neighborhood Example_mesh_shape)
    as (Hl & _ & Hres).
  - vm_compute; discriminate.
  - vm_compute; discriminate.
  - reflexivity.
  - split; [exact Hl | exact Hres].
Defined.

(** * Properties of the further functions *)

(** ** Mirror bounding of the real particles *)

Lemma mirrorInAxisDirection_spec (i : nat) (body_bound : Vecd) (ax : Axis)
    (ps : BaseParticles) (p v : Vecd) :
  pos_n_ ps !! i = Some p -> vel_n_ ps !! i = Some v ->
  MirrorBoundaryConditionInAxisDirection.mirrorInAxisDirection i body_bound ax ps
  = Some (set_vel_n (set_pos_n ps (<[i := mirrored_position body_bound ax p]> (pos_n_ ps)))
                    (<[i := mirrored_velocity ax v]> (vel_n_ ps))).
Proof.
  intros Hp Hv. unfold MirrorBoundaryConditionInAxisDirection.mirrorInAxisDirection.
  rewrite Hp, Hv. reflexivity.
Qed.

Lemma normSqr_mirrored_velocity (ax : Axis) (v : Vecd) :
  normSqr (mirrored_velocity ax v) == normSqr v.
Proof. destruct ax; unfold normSqr, mirrored_velocity; simpl; ring. Qed.

(** X1: After the lower (upper) bound check of the mirror bounding, the particle
    is not below the lower (above the upper) bound.  A particle that was
    outside has been reflected at the bound, its velocity component along the
    axis negated and its speed kept; a particle that was inside is left as it
    was; no other particle and no other attribute changes. *)
Theorem mirror_bounding_puts_inside (b : BoundingInAxisDirection) (i : nat)
    (ps : BaseParticles) (p v : Vecd)
    (Hp : pos_n_ ps !! i = Some p) (Hv : vel_n_ ps !! i = Some v) :
  (exists ps' p' v',
      MirrorBounding.checkLowerBound b i ps = Some ps'
      /\ pos_n_ ps' !! i = Some p' /\ vel_n_ ps' !! i = Some v'
      /\ vget (body_lower_bound_ b) (axis_ b) <= vget p' (axis_ b)
      /\ (vget p (axis_ b) < vget (body_lower_bound_ b) (axis_ b) ->
          mirror_image (body_lower_bound_ b) (axis_ b) p v p' v')
      /\ (~ vget p (axis_ b) < vget (body_lower_bound_ b) (axis_ b) -> ps' = ps)
      /\ normSqr v' == normSqr v
      /\ (forall j, j <> i -> pos_n_ ps' !! j = pos_n_ ps !! j
                              /\ vel_n_ ps' !! j = vel_n_ ps !! j)
      /\ dvel_dt_others_ ps' = dvel_dt_others_ ps /\ sorted_id_ ps' = sorted_id_ ps)
  /\ (exists ps' p' v',
         MirrorBounding.checkUpperBound b i ps = Some ps'
         /\ pos_n_ ps' !! i = Some p' /\ vel_n_ ps' !! i = Some v'
         /\ vget p' (axis_ b) <= vget (body_upper_bound_ b) (axis_ b)
         /\ (vget (body_upper_bound_ b) (axis_ b) < vget p (axis_ b) ->
             mirror_image (body_upper_bound_ b) (axis_ b) p v p' v')
         /\ (~ vget (body_upper_bound_ b) (axis_ b) < vget p (axis_ b) -> ps' = ps)
         /\ normSqr v' == normSqr v
         /\ (forall j, j <> i -> pos_n_ ps' !! j = pos_n_ ps !! j
                                 /\ vel_n_ ps' !! j = vel_n_ ps !! j)
         /\ dvel_dt_others_ ps' = dvel_dt_others_ ps /\ sorted_id_ ps' = sorted_id_ ps).
Proof.
  assert (Hi : (i < length (pos_n_ ps))%nat) by now apply lookup_lt_Some in Hp.
  assert (Hi' : (i < length (vel_n_ ps))%nat) by now apply lookup_lt_Some in Hv.
  unfold MirrorBounding.checkLowerBound, MirrorBounding.checkUpperBound.
  rewrite Hp. cbn [mbind option_bind].
  split.
  - destruct (Qlt_bool_spec (vget p (axis_ b)) (vget (body_lower_bound_ b) (axis_ b)))
      as [Hout|Hin].
    + rewrite (mirrorInAxisDirection_spec _ _ _ _ p v Hp Hv).
      eexists _, (mirrored_position (body_lower_bound_ b) (axis_ b) p),
        (mirrored_velocity (axis_ b) v).
      split; [reflexivity|]. cbn [pos_n_ vel_n_ set_vel_n set_pos_n dvel_dt_others_ sorted_id_].
      split; [now apply list_lookup_insert_eq|].
      split; [now apply list_lookup_insert_eq|].
      split; [unfold mirrored_position; rewrite vget_vset_same; lra|].
      split; [intros _; apply mirror_image_mirrored|].
      split; [intros H; contradiction|].
      split; [apply normSqr_mirrored_velocity|].
      split; [|split; reflexivity].
      intros j Hj. now rewrite !list_lookup_insert_ne by congruence.
    + exists ps, p, v. split; [reflexivity|]. split; [exact Hp|]. split; [exact Hv|].
      split; [lra|]. split; [intros H; contradiction|]. split; [reflexivity|].
      split; [reflexivity|]. split; [|split; reflexivity]. intros j _. split; reflexivity.
  - destruct (Qlt_bool_spec (vget (body_upper_bound_ b) (axis_ b)) (vget p (axis_ b)))
      as [Hout|Hin].
    + rewrite (mirrorInAxisDirection_spec _ _ _ _ p v Hp Hv).
      eexists _, (mirrored_position (body_upper_bound_ b) (axis_ b) p),
        (mirrored_velocity (axis_ b) v).
      split; [reflexivity|]. cbn [pos_n_ vel_n_ set_vel_n set_pos_n dvel_dt_others_ sorted_id_].
      split; [now apply list_lookup_insert_eq|].
      split; [now apply list_lookup_insert_eq|].
      split; [unfold mirrored_position; rewrite vget_vset_same; lra|].
      split; [intros _; apply mirror_image_mirrored|].
      split; [intros H; contradiction|].
      split; [apply normSqr_mirrored_velocity|].
      split; [|split; reflexivity].
      intros j Hj. now rewrite !list_lookup_insert_ne by congruence.
    + exists ps, p, v. split; [reflexivity|]. split; [exact Hp|]. split; [exact Hv|].
      split; [lra|]. split; [intros H; contradiction|]. split; [reflexivity|].
      split; [reflexivity|]. split; [|split; reflexivity]. intros j _. split; reflexivity.
Qed.

Lemma mirror_bounding_puts_inside_witness :
  exists ps' p' v',
    MirrorBounding.checkLowerBound Example.bounding 0
      (mkBaseParticles 1 0 [mkVecd (- (1 # 4)) 2] [mkVecd (- (3)) 1] [mkVecd 0 0] [0%nat])
    = Some ps'
    /\ pos_n_ ps' !! 0%nat = Some p' /\ vel_n_ ps' !! 0%nat = Some v'
    /\ 0 <= vget p' AxisX.
Proof.
  destruct (mirror_bounding_puts_inside Example.bounding 0
              (mkBaseParticles 1 0 [mkVecd (- (1 # 4)) 2] [mkVecd (- (3)) 1] [mkVecd 0 0] [0%nat])
              (mkVecd (- (1 # 4)) 2) (mkVecd (- (3)) 1))
    as [(ps' & p' & v' & E & Hp & Hv & Hin & _) _].
  - reflexivity.
  - reflexivity.
  - exists ps', p', v'. auto.
Defined.

(** X2: Mirroring a particle twice at the same bound gives back its position and
    velocity (up to [==]), and changes nothing else. *)
Theorem mirrorInAxisDirection_involutive (i : nat) (body_bound : Vecd) (ax : Axis)
    (ps : BaseParticles) (p v : Vecd)
    (Hp : pos_n_ ps !! i = Some p) (Hv : vel_n_ ps !! i = Some v) :
  exists ps1 ps2 p2 v2,
    MirrorBoundaryConditionInAxisDirection.mirrorInAxisDirection i body_bound ax ps = Some ps1
    /\ MirrorBoundaryConditionInAxisDirection.mirrorInAxisDirection i body_bound ax ps1
       = Some ps2
    /\ pos_n_ ps2 !! i = Some p2 /\ vel_n_ ps2 !! i = Some v2
    /\ Vecd_equiv p2 p /\ Vecd_equiv v2 v
    /\ (forall j, j <> i -> pos_n_ ps2 !! j = pos_n_ ps !! j
                            /\ vel_n_ ps2 !! j = vel_n_ ps !! j)
    /\ dvel_dt_others_ ps2 = dvel_dt_others_ ps /\ sorted_id_ ps2 = sorted_id_ ps
    /\ total_real_particles_ ps2 = total_real_particles_ ps
    /\ number_of_ghost_particles_ ps2 = number_of_ghost_particles_ ps.
Proof.
  assert (Hi : (i < length (pos_n_ ps))%nat) by now apply lookup_lt_Some in Hp.
  assert (Hi' : (i < length (vel_n_ ps))%nat) by now apply lookup_lt_Some in Hv.
  rewrite (mirrorInAxisDirection_spec _ _ _ _ p v Hp Hv).
  set (ps1 := set_vel_n _ _).
  assert (Hp1 : pos_n_ ps1 !! i = Some (mirrored_position body_bound ax p))
    by (subst ps1; simpl; now apply list_lookup_insert_eq).
  assert (Hv1 : vel_n_ ps1 !! i = Some (mirrored_velocity ax v))
    by (subst ps1; simpl; now apply list_lookup_insert_eq).
  eexists ps1, _, (mirrored_position body_bound ax (mirrored_position body_bound ax p)),
    (mirrored_velocity ax (mirrored_velocity ax v)).
  split; [reflexivity|].
  split; [exact (mirrorInAxisDirection_spec _ _ _ _ _ _ Hp1 Hv1)|].
  subst ps1. cbn [pos_n_ vel_n_ set_vel_n set_pos_n dvel_dt_others_ sorted_id_
                  total_real_particles_ number_of_ghost_particles_].
  split; [apply list_lookup_insert_eq; rewrite length_insert; exact Hi|].
  split; [apply list_lookup_insert_eq; rewrite length_insert; exact Hi'|].
  split; [destruct ax; unfold Vecd_equiv, mirrored_position; simpl; split; lra|].
  split; [destruct ax; unfold Vecd_equiv, mirrored_velocity; simpl; split; lra|].
  split; [|repeat split].
  intros j Hj. now rewrite !list_lookup_insert_ne by congruence.
Qed.

Lemma mirrorInAxisDirection_involutive_witness :
  exists ps1 ps2 p2,
    MirrorBoundaryConditionInAxisDirection.mirrorInAxisDirection 2 (mkVecd 4 4) AxisX
      Example.particles = Some ps1
    /\ MirrorBoundaryConditionInAxisDirection.mirrorInAxisDirection 2 (mkVecd 4 4) AxisX ps1
       = Some ps2
    /\ pos_n_ ps2 !! 2%nat = Some p2 /\ Vecd_equiv p2 (mkVecd (15 # 4) 2).
Proof.
  destruct (mirrorInAxisDirection_involutive 2 (mkVecd 4 4) AxisX Example.particles
              (mkVecd (15 # 4) 2) (mkVecd (- (1)) 0))
    as (ps1 & ps2 & p2 & v2 & E1 & E2 & Hp2 & _ & Heq & _).
  - reflexivity.
  - reflexivity.
  - exists ps1, ps2, p2. auto.
Defined.

(** ** Periodic bounding brings a particle back into the domain *)

(** X3: For bounds in order and the translation [upper_bound - lower_bound], the
    lower bound check followed by the upper bound check puts a particle that
    is at most one period outside the domain into [[lower_bound,
    upper_bound]]; its coordinate along the axis has changed by one
    translation or not at all, and the other coordinate is as before. *)
Theorem periodic_bounding_wraps_in (b : BoundingInAxisDirection) (T : Vecd)
    (i : nat) (ps : BaseParticles) (p : Vecd)
    (Hp : pos_n_ ps !! i = Some p)
    (HT : vget T (axis_ b)
          == vget (body_upper_bound_ b) (axis_ b) - vget (body_lower_bound_ b) (axis_ b))
    (Hord : vget (body_lower_bound_ b) (axis_ b) <= vget (body_upper_bound_ b) (axis_ b))
    (Hlow : vget (body_lower_bound_ b) (axis_ b) - vget T (axis_ b) <= vget p (axis_ b))
    (Hupp : vget p (axis_ b) <= vget (body_upper_bound_ b) (axis_ b) + vget T (axis_ b)) :
  exists ps1 ps2 p2,
    PeriodicConditionInAxisDirection.checkLowerBound b T i ps = Some ps1
    /\ PeriodicConditionInAxisDirection.checkUpperBound b T i ps1 = Some ps2
    /\ pos_n_ ps2 !! i = Some p2
    /\ vget (body_lower_bound_ b) (axis_ b) <= vget p2 (axis_ b)
    /\ vget p2 (axis_ b) <= vget (body_upper_bound_ b) (axis_ b)
    /\ (vget p2 (axis_ b) == vget p (axis_ b)
        \/ vget p2 (axis_ b) == vget p (axis_ b) + vget T (axis_ b)
        \/ vget p2 (axis_ b) == vget p (axis_ b) - vget T (axis_ b))
    /\ (forall k, k <> axis_ b -> vget p2 k = vget p k)
    /\ (forall j, j <> i -> pos_n_ ps2 !! j = pos_n_ ps !! j).
Proof.
  assert (Hi : (i < length (pos_n_ ps))%nat) by now apply lookup_lt_Some in Hp.
  unfold PeriodicConditionInAxisDirection.checkLowerBound. rewrite Hp.
  cbn [mbind option_bind].
  destruct (Qlt_bool_spec (vget p (axis_ b)) (vget (body_lower_bound_ b) (axis_ b)))
    as [Hbelow|Hnb].
  - set (p1 := vset p (axis_ b) (vget p (axis_ b) + vget T (axis_ b))).
    set (ps1 := set_pos_n ps (<[i := p1]> (pos_n_ ps))).
    assert (Hp1 : pos_n_ ps1 !! i = Some p1)
      by (subst ps1; simpl; now apply list_lookup_insert_eq).
    exists ps1, ps1, p1. split; [reflexivity|].
    split.
    { unfold PeriodicConditionInAxisDirection.checkUpperBound. rewrite Hp1.
      cbn [mbind option_bind]. subst p1. rewrite vget_vset_same.
      destruct (Qlt_bool_spec (vget (body_upper_bound_ b) (axis_ b))
                  (vget p (axis_ b) + vget T (axis_ b))) as [H|H]; [exfalso; lra|].
      reflexivity. }
    split; [exact Hp1|]. subst p1. rewrite vget_vset_same.
    split; [lra|]. split; [lra|]. split; [right; left; reflexivity|].
    split; [intros k Hk; apply vget_vset_other; congruence|].
    intros j Hj. subst ps1. simpl. now rewrite list_lookup_insert_ne by congruence.
  - exists ps. unfold PeriodicConditionInAxisDirection.checkUpperBound. rewrite Hp.
    cbn [mbind option_bind].
    destruct (Qlt_bool_spec (vget (body_upper_bound_ b) (axis_ b)) (vget p (axis_ b)))
      as [Habove|Hna].
    + eexists _, (vset p (axis_ b) (vget p (axis_ b) - vget T (axis_ b))).
      split; [reflexivity|]. split; [reflexivity|]. simpl.
      split; [now apply list_lookup_insert_eq|]. rewrite vget_vset_same.
      split; [lra|]. split; [lra|]. split; [right; right; reflexivity|].
      split; [intros k Hk; apply vget_vset_other; congruence|].
      intros j Hj. now rewrite list_lookup_insert_ne by congruence.
    + exists ps, p. split; [reflexivity|]. split; [reflexivity|].
      split; [exact Hp|]. split; [lra|]. split; [lra|]. split; [left; reflexivity|].
      split; reflexivity.
Qed.

Lemma periodic_bounding_wraps_in_witness :
  exists ps1 ps2 p2,
    PeriodicConditionInAxisDirection.checkLowerBound Example.bounding (mkVecd 4 0) 0
      (mkBaseParticles 1 0 [mkVecd (- (7 # 2)) 2] [mkVecd 1 0] [mkVecd 0 0] [0%nat])
    = Some ps1
    /\ PeriodicConditionInAxisDirection.checkUpperBound Example.bounding (mkVecd 4 0) 0 ps1
       = Some ps2
    /\ pos_n_ ps2 !! 0%nat = Some p2
    /\ 0 <= vget p2 AxisX /\ vget p2 AxisX <= 4.
Proof.
  destruct (periodic_bounding_wraps_in Example.bounding (mkVecd 4 0) 0
              (mkBaseParticles 1 0 [mkVecd (- (7 # 2)) 2] [mkVecd 1 0] [mkVecd 0 0] [0%nat])
              (mkVecd (- (7 # 2)) 2))
    as (ps1 & ps2 & p2 & E1 & E2 & Hp2 & H1 & H2 & _).
  - reflexivity.
  - reflexivity.
  - unfold Qle; simpl; lia.
  - unfold Qle; simpl; lia.
  - unfold Qle; simpl; lia.
  - exists ps1, ps2, p2. auto.
Defined.

(** ** Periodic condition on the cell linked list *)

(** X4: The bound checks on the cell linked list allocate no particle: for an
    entry within the proximity range they append one more entry with the
    particle's own index, at the position plus (minus) the translation, to the
    cell of that position, and change no other cell; for an entry outside the
    range they leave the cell linked list as it is.  On a grid with cells the
    appended entry is there. *)
Theorem periodic_cell_linked_list_registers (b : BoundingInAxisDirection) (T : Vecd)
    (list_data : ListData) (mesh : BaseMeshCellLinkedList) (l m : Z)
    (Hl : (0 <= l)%Z) (Hm : (0 <= m)%Z) :
  cell_at (cell_linked_lists_ (PeriodicCellLinkedList.checkLowerBound b T list_data mesh)) l m
  = (fun cell =>
       if near_lower_bound b (snd list_data)
          && same_cell (GridIndexFromPosition mesh (Vecd_add (snd list_data) T)) (l, m)
       then cell ++ [(fst list_data, Vecd_add (snd list_data) T)] else cell)
      <$> cell_at (cell_linked_lists_ mesh) l m
  /\ cell_at (cell_linked_lists_ (PeriodicCellLinkedList.checkUpperBound b T list_data mesh)) l m
     = (fun cell =>
          if near_upper_bound b (snd list_data)
             && same_cell (GridIndexFromPosition mesh (Vecd_sub (snd list_data) T)) (l, m)
          then cell ++ [(fst list_data, Vecd_sub (snd list_data) T)] else cell)
         <$> cell_at (cell_linked_lists_ mesh) l m
  /\ (near_lower_bound b (snd list_data) = false ->
      PeriodicCellLinkedList.checkLowerBound b T list_data mesh = mesh)
  /\ (near_upper_bound b (snd list_data) = false ->
      PeriodicCellLinkedList.checkUpperBound b T list_data mesh = mesh)
  /\ (mesh_shape mesh ->
      (0 < fst (number_of_cells_ mesh))%Z -> (0 < snd (number_of_cells_ mesh))%Z ->
      near_lower_bound b (snd list_data) = true ->
      exists cell,
        cell_at (cell_linked_lists_ (PeriodicCellLinkedList.checkLowerBound b T list_data mesh))
                (fst (GridIndexFromPosition mesh (Vecd_add (snd list_data) T)))
                (snd (GridIndexFromPosition mesh (Vecd_add (snd list_data) T)))
        = Some cell
        /\ In (fst list_data, Vecd_add (snd list_data) T) cell).
Proof.
  unfold PeriodicCellLinkedList.checkLowerBound, PeriodicCellLinkedList.checkUpperBound.
  cbv zeta. fold (near_lower_bound b (snd list_data)).
  fold (near_upper_bound b (snd list_data)).
  split; [|split; [|split; [|split]]].
  - destruct (near_lower_bound b (snd list_data)).
    + now rewrite cell_at_Insert.
    + cbn [andb]. now destruct (cell_at (cell_linked_lists_ mesh) l m).
  - destruct (near_upper_bound b (snd list_data)).
    + now rewrite cell_at_Insert.
    + cbn [andb]. now destruct (cell_at (cell_linked_lists_ mesh) l m).
  - now intros ->.
  - now intros ->.
  - intros Hshape Hn0 Hn1 ->.
    apply (registered_after_inserts [(fst list_data, Vecd_add (snd list_data) T)] mesh);
      [assumption | assumption | assumption | now left].
Qed.

Lemma periodic_cell_linked_list_registers_witness :
  cell_at (cell_linked_lists_
             (PeriodicCellLinkedList.checkLowerBound Example.bounding (mkVecd 4 0)
                (0%nat, mkVecd (1 # 4) 2) Example.mesh)) 3 2
  = Some [(2%nat, mkVecd (15 # 4) 2); (0%nat, mkVecd (17 # 4) 2)].
Proof.
  destruct (periodic_cell_linked_list_registers Example.bounding (mkVecd 4 0)
              (0%nat, mkVecd (1 # 4) 2) Example.mesh 3 2) as (E & _).
  - lia.
  - lia.
  - rewrite E. reflexivity.
Defined.

(** ** The update passes over the ghost particles *)

Lemma updateFromAnotherParticle_spec g o ps p v a :
  particles_wf ps ->
  (g < length (pos_n_ ps))%nat ->
  pos_n_ ps !! o = Some p ->
  vel_n_ ps !! o = Some v ->
  dvel_dt_others_ ps !! o = Some a ->
  updateFromAnotherParticle g o ps
  = Some {| total_real_particles_ := total_real_particles_ ps;
            number_of_ghost_particles_ := number_of_ghost_particles_ ps;
            pos_n_ := <[g := p]> (pos_n_ ps);
            vel_n_ := <[g := v]> (vel_n_ ps);
            dvel_dt_others_ := <[g := a]> (dvel_dt_others_ ps);
            sorted_id_ := sorted_id_ ps |}.
Proof.
  intros (Lv & La & _) Hg Hp Hv Ha. unfold updateFromAnotherParticle.
  rewrite Hp, Hv, Ha. cbn [mbind option_bind].
  rewrite Lv, La.
  assert (E : (g <? length (pos_n_ ps))%nat = true) by now apply Nat.ltb_lt.
  now rewrite E.
Qed.

Section UpdatePass.
Variable step : nat -> BaseParticles -> option BaseParticles.
Variables gp gv : Vecd -> Vecd.

Hypothesis step_spec : forall g ps o p v a,
  particles_wf ps ->
  (g < length (pos_n_ ps))%nat ->
  sorted_id_ ps !! g = Some o ->
  pos_n_ ps !! o = Some p ->
  vel_n_ ps !! o = Some v ->
  dvel_dt_others_ ps !! o = Some a ->
  step g ps
  = Some {| total_real_particles_ := total_real_particles_ ps;
            number_of_ghost_particles_ := number_of_ghost_particles_ ps;
            pos_n_ := <[g := gp p]> (pos_n_ ps);
            vel_n_ := <[g := gv v]> (vel_n_ ps);
            dvel_dt_others_ := <[g := a]> (dvel_dt_others_ ps);
            sorted_id_ := sorted_id_ ps |}.

Lemma update_pass_closed_form (L : nat) (gs : list nat) : forall ps,
  particles_wf ps ->
  ghosts_point_below L gs ps ->
  exists ps',
    foldM (fun s g => step g s) gs ps = Some ps'
    /\ ghosts_updated gp gv gs ps ps'
    /\ particles_wf ps'.
Proof.
  induction gs as [|g gs IH]; intros ps Hwf Hgs.
  - exists ps. split; [reflexivity|]. split; [|exact Hwf].
    unfold ghosts_updated.
    repeat split; try reflexivity; match goal with H : In _ [] |- _ => destruct H end.
  - destruct (Hgs g (or_introl eq_refl)) as ((HLg & Hg) & o & Ho & HoL).
    pose proof Hwf as (Lv & La & Ls & Ht).
    destruct (particles_wf_lookups ps o Hwf) as (p & v & a & sid & Hp & Hv & Ha & _);
      [lia|].
    cbn [foldM]. rewrite (step_spec g ps o p v a Hwf Hg Ho Hp Hv Ha).
    set (ps1 := {| total_real_particles_ := total_real_particles_ ps;
                   number_of_ghost_particles_ := number_of_ghost_particles_ ps;
                   pos_n_ := <[g := gp p]> (pos_n_ ps);
                   vel_n_ := <[g := gv v]> (vel_n_ ps);
                   dvel_dt_others_ := <[g := a]> (dvel_dt_others_ ps);
                   sorted_id_ := sorted_id_ ps |}).
    assert (Hwf1 : particles_wf ps1).
    { unfold particles_wf, ps1. simpl. rewrite !length_insert. auto. }
    assert (Hgs1 : ghosts_point_below L gs ps1).
    { intros g' Hg'. destruct (Hgs g' (or_intror Hg')) as (Hr & o' & Ho' & Hlt).
      unfold ps1. simpl. rewrite length_insert. split; [exact Hr|]. now exists o'. }
    destruct (IH ps1 Hwf1 Hgs1) as (ps' & Hrun & Hupd & Hwf').
    exists ps'. split; [exact Hrun|]. split; [|exact Hwf'].
    destruct Hupd as (U1 & U2 & U3 & U4 & Uold & Unew).
    unfold ghosts_updated. split; [exact U1|]. split; [exact U2|]. split; [exact U3|].
    split; [rewrite U4; unfold ps1; simpl; now rewrite length_insert|].
    split.
    + intros j Hj.
      assert (Hjg : g <> j) by (intros ->; apply Hj; now left).
      assert (Hjgs : ~ In j gs) by (intros H; apply Hj; now right).
      destruct (Uold j Hjgs) as (O1 & O2 & O3). rewrite O1, O2, O3.
      unfold ps1. simpl. now rewrite !list_lookup_insert_ne by exact Hjg.
    + intros g' o' Hg' Ho'.
      assert (Hog : forall o1, (o1 < L)%nat ->
                pos_n_ ps1 !! o1 = pos_n_ ps !! o1
                /\ vel_n_ ps1 !! o1 = vel_n_ ps !! o1
                /\ dvel_dt_others_ ps1 !! o1 = dvel_dt_others_ ps !! o1).
      { intros o1 Ho1. unfold ps1. simpl.
        now rewrite !list_lookup_insert_ne by lia. }
      destruct (in_dec Nat.eq_dec g' gs) as [Hin|Hnin].
      * destruct (Hgs g' (or_intror Hin)) as (_ & o1 & Ho1 & Hlt).
        assert (o1 = o') by congruence. subst o1.
        destruct (Unew g' o' Hin Ho') as (N1 & N2 & N3).
        destruct (Hog o' Hlt) as (E1 & E2 & E3).
        now rewrite N1, N2, N3, E1, E2, E3.
      * destruct Hg' as [<-|Hin]; [|contradiction].
        assert (o' = o) by congruence. subst o'.
        destruct (Uold g Hnin) as (O1 & O2 & O3). rewrite O1, O2, O3.
        unfold ps1. simpl. rewrite Hp, Hv, Ha.
        rewrite !list_lookup_insert_eq by lia. auto.
Qed.

End UpdatePass.

Lemma periodic_update_lower_spec T g ps o p v a :
  particles_wf ps ->
  (g < length (pos_n_ ps))%nat ->
  sorted_id_ ps !! g = Some o ->
  pos_n_ ps !! o = Some p ->
  vel_n_ ps !! o = Some v ->
  dvel_dt_others_ ps !! o = Some a ->
  UpdatePeriodicGhostParticles.checkLowerBound T g ps
  = Some {| total_real_particles_ := total_real_particles_ ps;
            number_of_ghost_particles_ := number_of_ghost_particles_ ps;
            pos_n_ := <[g := Vecd_add p T]> (pos_n_ ps);
            vel_n_ := <[g := v]> (vel_n_ ps);
            dvel_dt_others_ := <[g := a]> (dvel_dt_others_ ps);
            sorted_id_ := sorted_id_ ps |}.
Proof.
  intros Hwf Hg Ho Hp Hv Ha. unfold UpdatePeriodicGhostParticles.checkLowerBound.
  rewrite Ho. cbn [mbind option_bind].
  rewrite (updateFromAnotherParticle_spec g o ps p v a Hwf Hg Hp Hv Ha).
  cbn [mbind option_bind pos_n_].
  rewrite list_lookup_insert_eq by exact Hg. cbn [mbind option_bind].
  unfold set_pos_n. simpl. now rewrite list_insert_insert_eq.
Qed.

Lemma periodic_update_upper_spec T g ps o p v a :
  particles_wf ps ->
  (g < length (pos_n_ ps))%nat ->
  sorted_id_ ps !! g = Some o ->
  pos_n_ ps !! o = Some p ->
  vel_n_ ps !! o = Some v ->
  dvel_dt_others_ ps !! o = Some a ->
  UpdatePeriodicGhostParticles.checkUpperBound T g ps
  = Some {| total_real_particles_ := total_real_particles_ ps;
            number_of_ghost_particles_ := number_of_ghost_particles_ ps;
            pos_n_ := <[g := Vecd_sub p T]> (pos_n_ ps);
            vel_n_ := <[g := v]> (vel_n_ ps);
            dvel_dt_others_ := <[g := a]> (dvel_dt_others_ ps);
            sorted_id_ := sorted_id_ ps |}.
Proof.
  intros Hwf Hg Ho Hp Hv Ha. unfold UpdatePeriodicGhostParticles.checkUpperBound.
  rewrite Ho. cbn [mbind option_bind].
  rewrite (updateFromAnotherParticle_spec g o ps p v a Hwf Hg Hp Hv Ha).
  cbn [mbind option_bind pos_n_].
  rewrite list_lookup_insert_eq by exact Hg. cbn [mbind option_bind].
  unfold set_pos_n. simpl. now rewrite list_insert_insert_eq.
Qed.

Lemma mirror_update_spec positive b g ps o p v a :
  particles_wf ps ->
  (g < length (pos_n_ ps))%nat ->
  sorted_id_ ps !! g = Some o ->
  pos_n_ ps !! o = Some p ->
  vel_n_ ps !! o = Some v ->
  dvel_dt_others_ ps !! o = Some a ->
  UpdatingGhostStates.checking_bound_update_ positive b g ps
  = Some {| total_real_particles_ := total_real_particles_ ps;
            number_of_ghost_particles_ := number_of_ghost_particles_ ps;
            pos_n_ := <[g := mirrored_position (mirror_bound positive b) (axis_ b) p]>
                        (pos_n_ ps);
            vel_n_ := <[g := mirrored_velocity (axis_ b) v]> (vel_n_ ps);
            dvel_dt_others_ := <[g := a]> (dvel_dt_others_ ps);
            sorted_id_ := sorted_id_ ps |}.
Proof.
  intros Hwf Hg Ho Hp Hv Ha. pose proof Hwf as (Lv & _).
  assert (E : forall body_bound,
             (ps' ← updateFromAnotherParticle g o ps;
              MirrorBoundaryConditionInAxisDirection.mirrorInAxisDirection
                g body_bound (axis_ b) ps')
             = Some {| total_real_particles_ := total_real_particles_ ps;
                       number_of_ghost_particles_ := number_of_ghost_particles_ ps;
                       pos_n_ := <[g := mirrored_position body_bound (axis_ b) p]> (pos_n_ ps);
                       vel_n_ := <[g := mirrored_velocity (axis_ b) v]> (vel_n_ ps);
                       dvel_dt_others_ := <[g := a]> (dvel_dt_others_ ps);
                       sorted_id_ := sorted_id_ ps |}).
  { intros body_bound.
    rewrite (updateFromAnotherParticle_spec g o ps p v a Hwf Hg Hp Hv Ha).
    cbn [mbind option_bind].
    unfold MirrorBoundaryConditionInAxisDirection.mirrorInAxisDirection.
    cbn [pos_n_ vel_n_].
    rewrite !list_lookup_insert_eq by lia. cbn [mbind option_bind].
    unfold set_vel_n, set_pos_n. simpl. now rewrite !list_insert_insert_eq. }
  unfold UpdatingGhostStates.checking_bound_update_, mirror_bound.
  destruct positive;
    [unfold UpdatingGhostStates.checkUpperBound | unfold UpdatingGhostStates.checkLowerBound];
    rewrite Ho; cbn [mbind option_bind]; apply E.
Qed.

Lemma particles_eq (ps ps' : BaseParticles) :
  sorted_id_ ps' = sorted_id_ ps ->
  total_real_particles_ ps' = total_real_particles_ ps ->
  number_of_ghost_particles_ ps' = number_of_ghost_particles_ ps ->
  (forall j, pos_n_ ps' !! j = pos_n_ ps !! j) ->
  (forall j, vel_n_ ps' !! j = vel_n_ ps !! j) ->
  (forall j, dvel_dt_others_ ps' !! j = dvel_dt_others_ ps !! j) ->
  ps' = ps.
Proof.
  destruct ps, ps'. simpl. intros -> -> -> Hp Hv Ha.
  f_equal; now apply list_eq.
Qed.

Lemma ghosts_updated_origin gp gv L gs ps ps' o :
  ghosts_updated gp gv gs ps ps' ->
  ghosts_point_below L gs ps ->
  (o < L)%nat ->
  pos_n_ ps' !! o = pos_n_ ps !! o
  /\ vel_n_ ps' !! o = vel_n_ ps !! o
  /\ dvel_dt_others_ ps' !! o = dvel_dt_others_ ps !! o.
Proof.
  intros (_ & _ & _ & _ & Uold & _) Hgs Ho. apply Uold.
  intros Hin. destruct (Hgs o Hin) as (Hr & _). lia.
Qed.

Lemma ghosts_point_below_updated gp gv L gs gs' ps ps' :
  ghosts_updated gp gv gs' ps ps' ->
  ghosts_point_below L gs ps ->
  ghosts_point_below L gs ps'.
Proof.
  intros (U1 & _ & _ & U4 & _) Hgs g Hg. rewrite U1, U4. now apply Hgs.
Qed.

Lemma periodic_update_closed_form T st L :
  particles_wf (particles_ st) ->
  ghosts_point_below L (ghosts_lower_ st) (particles_ st) ->
  ghosts_point_below L (ghosts_upper_ st) (particles_ st) ->
  exists ps1 ps2,
    UpdatePeriodicGhostParticles.exec T st
    = Some {| particles_ := ps2;
              mesh_cell_linked_list_ := mesh_cell_linked_list_ st;
              ghosts_lower_ := ghosts_lower_ st;
              ghosts_upper_ := ghosts_upper_ st |}
    /\ ghosts_updated (fun p => Vecd_add p T) (fun v => v) (ghosts_lower_ st)
         (particles_ st) ps1
    /\ ghosts_updated (fun p => Vecd_sub p T) (fun v => v) (ghosts_upper_ st) ps1 ps2
    /\ particles_wf ps1 /\ particles_wf ps2.
Proof.
  intros Hwf Hlow Hupp.
  destruct (update_pass_closed_form
              (fun g s => UpdatePeriodicGhostParticles.checkLowerBound T g s)
              (fun p => Vecd_add p T) (fun v => v)
              (periodic_update_lower_spec T) L (ghosts_lower_ st) (particles_ st) Hwf Hlow)
    as (ps1 & E1 & U1 & Hwf1).
  destruct (update_pass_closed_form
              (fun g s => UpdatePeriodicGhostParticles.checkUpperBound T g s)
              (fun p => Vecd_sub p T) (fun v => v)
              (periodic_update_upper_spec T) L (ghosts_upper_ st) ps1 Hwf1
              (ghosts_point_below_updated _ _ _ _ _ _ _ U1 Hupp))
    as (ps2 & E2 & U2 & Hwf2).
  exists ps1, ps2. unfold UpdatePeriodicGhostParticles.exec.
  rewrite E1. cbn [mbind option_bind]. rewrite E2. cbn [mbind option_bind].
  auto.
Qed.

Lemma periodic_update_lookups T st L :
  particles_wf (particles_ st) ->
  ghosts_point_below L (ghosts_lower_ st) (particles_ st) ->
  ghosts_point_below L (ghosts_upper_ st) (particles_ st) ->
  exists ps2,
    UpdatePeriodicGhostParticles.exec T st
    = Some {| particles_ := ps2;
              mesh_cell_linked_list_ := mesh_cell_linked_list_ st;
              ghosts_lower_ := ghosts_lower_ st;
              ghosts_upper_ := ghosts_upper_ st |}
    /\ particles_wf ps2
    /\ sorted_id_ ps2 = sorted_id_ (particles_ st)
    /\ total_real_particles_ ps2 = total_real_particles_ (particles_ st)
    /\ number_of_ghost_particles_ ps2 = number_of_ghost_particles_ (particles_ st)
    /\ length (pos_n_ ps2) = length (pos_n_ (particles_ st))
    /\ (forall j, ~ In j (ghosts_lower_ st) -> ~ In j (ghosts_upper_ st) ->
          pos_n_ ps2 !! j = pos_n_ (particles_ st) !! j
          /\ vel_n_ ps2 !! j = vel_n_ (particles_ st) !! j
          /\ dvel_dt_others_ ps2 !! j = dvel_dt_others_ (particles_ st) !! j)
    /\ (forall g o, In g (ghosts_upper_ st) ->
          sorted_id_ (particles_ st) !! g = Some o ->
          pos_n_ ps2 !! g = (fun p => Vecd_sub p T) <$> pos_n_ (particles_ st) !! o
          /\ vel_n_ ps2 !! g = vel_n_ (particles_ st) !! o
          /\ dvel_dt_others_ ps2 !! g = dvel_dt_others_ (particles_ st) !! o)
    /\ (forall g o, In g (ghosts_lower_ st) -> ~ In g (ghosts_upper_ st) ->
          sorted_id_ (particles_ st) !! g = Some o ->
          pos_n_ ps2 !! g = (fun p => Vecd_add p T) <$> pos_n_ (particles_ st) !! o
          /\ vel_n_ ps2 !! g = vel_n_ (particles_ st) !! o
          /\ dvel_dt_others_ ps2 !! g = dvel_dt_others_ (particles_ st) !! o).
Proof.
  intros Hwf Hlow Hupp.
  destruct (periodic_update_closed_form T st L Hwf Hlow Hupp)
    as (ps1 & ps2 & E & U1 & U2 & Hwf1 & Hwf2).
  assert (Hfmap : forall (l : list Vecd) o, (fun v : Vecd => v) <$> l !! o = l !! o).
  { intros l o. now destruct (l !! o). }
  pose proof U1 as (S1 & T1 & N1 & L1 & Uold1 & Unew1).
  pose proof U2 as (S2 & T2 & N2 & L2 & Uold2 & Unew2).
  exists ps2. split; [exact E|]. split; [exact Hwf2|].
  split; [congruence|]. split; [congruence|]. split; [congruence|]. split; [congruence|].
  split; [|split].
  - intros j Hj1 Hj2.
    destruct (Uold2 j Hj2) as (A1 & A2 & A3).
    destruct (Uold1 j Hj1) as (B1 & B2 & B3).
    rewrite A1, A2, A3. auto.
  - intros g o Hg Ho.
    destruct (Hupp g Hg) as (_ & o' & Ho' & Hlt).
    assert (o' = o) by congruence. subst o'.
    destruct (Unew2 g o Hg) as (A1 & A2 & A3); [now rewrite S1|].
    destruct (ghosts_updated_origin _ _ _ _ _ _ o U1 Hlow Hlt) as (B1 & B2 & B3).
    rewrite A1, A2, A3, B1, B2, B3, Hfmap. auto.
  - intros g o Hg Hng Ho.
    destruct (Uold2 g Hng) as (A1 & A2 & A3).
    destruct (Unew1 g o Hg Ho) as (B1 & B2 & B3).
    rewrite A1, A2, A3, B1, B2, B3, Hfmap. auto.
Qed.

(** X5: The update pass of a periodic condition, for ghosts that lie beyond the
    real particles and whose sorted identity names a real particle: it
    returns; each ghost of the upper list holds the position of its origin
    minus the translation, each ghost of the lower list only the position of
    its origin plus the translation, both with the origin's velocity and
    acceleration; every other particle, the identities, the ghost lists and
    the cell linked list are as before.  A second update pass changes
    nothing. *)
Theorem periodic_update_exec_spec (T : Vecd) (st : GhostState)
    (Hwf : particles_wf (particles_ st))
    (Hlow : ghosts_point_below (total_real_particles_ (particles_ st))
              (ghosts_lower_ st) (particles_ st))
    (Hupp : ghosts_point_below (total_real_particles_ (particles_ st))
              (ghosts_upper_ st) (particles_ st)) :
  exists st',
    UpdatePeriodicGhostParticles.exec T st = Some st'
    /\ mesh_cell_linked_list_ st' = mesh_cell_linked_list_ st
    /\ ghosts_lower_ st' = ghosts_lower_ st
    /\ ghosts_upper_ st' = ghosts_upper_ st
    /\ sorted_id_ (particles_ st') = sorted_id_ (particles_ st)
    /\ (forall j, ~ In j (ghosts_lower_ st) -> ~ In j (ghosts_upper_ st) ->
          pos_n_ (particles_ st') !! j = pos_n_ (particles_ st) !! j
          /\ vel_n_ (particles_ st') !! j = vel_n_ (particles_ st) !! j
          /\ dvel_dt_others_ (particles_ st') !! j = dvel_dt_others_ (particles_ st) !! j)
    /\ (forall g o, In g (ghosts_upper_ st) ->
          sorted_id_ (particles_ st) !! g = Some o ->
          pos_n_ (particles_ st') !! g
          = (fun p => Vecd_sub p T) <$> pos_n_ (particles_ st) !! o
          /\ vel_n_ (particles_ st') !! g = vel_n_ (particles_ st) !! o
          /\ dvel_dt_others_ (particles_ st') !! g = dvel_dt_others_ (particles_ st) !! o)
    /\ (forall g o, In g (ghosts_lower_ st) -> ~ In g (ghosts_upper_ st) ->
          sorted_id_ (particles_ st) !! g = Some o ->
          pos_n_ (particles_ st') !! g
          = (fun p => Vecd_add p T) <$> pos_n_ (particles_ st) !! o
          /\ vel_n_ (particles_ st') !! g = vel_n_ (particles_ st) !! o
          /\ dvel_dt_others_ (particles_ st') !! g = dvel_dt_others_ (particles_ st) !! o)
    /\ UpdatePeriodicGhostParticles.exec T st' = Some st'.
Proof.
  set (L := total_real_particles_ (particles_ st)) in *.
  destruct (periodic_update_lookups T st L Hwf Hlow Hupp)
    as (ps2 & E & Hwf2 & S2 & T2 & N2 & L2 & Hrest & Hup & Hlo).
  eexists. split; [exact E|].
  cbn [particles_ mesh_cell_linked_list_ ghosts_lower_ ghosts_upper_].
  split; [reflexivity|]. split; [reflexivity|]. split; [reflexivity|].
  split; [exact S2|]. split; [exact Hrest|]. split; [exact Hup|]. split; [exact Hlo|].
  set (st' := {| particles_ := ps2;
                 mesh_cell_linked_list_ := mesh_cell_linked_list_ st;
                 ghosts_lower_ := ghosts_lower_ st;
                 ghosts_upper_ := ghosts_upper_ st |}).
  assert (Hlow2 : ghosts_point_below L (ghosts_lower_ st') (particles_ st')).
  { intros g Hg. unfold st'. cbn [particles_]. rewrite S2, L2. now apply Hlow. }
  assert (Hupp2 : ghosts_point_below L (ghosts_upper_ st') (particles_ st')).
  { intros g Hg. unfold st'. cbn [particles_]. rewrite S2, L2. now apply Hupp. }
  destruct (periodic_update_lookups T st' L Hwf2 Hlow2 Hupp2)
    as (ps4 & E' & _ & S4 & T4 & N4 & _ & Hrest' & Hup' & Hlo').
  rewrite E'. unfold st' in *.
  cbn [particles_ mesh_cell_linked_list_ ghosts_lower_ ghosts_upper_] in *.
  do 2 f_equal.
  assert (Horigin : forall o, (o < L)%nat ->
            pos_n_ ps2 !! o = pos_n_ (particles_ st) !! o
            /\ vel_n_ ps2 !! o = vel_n_ (particles_ st) !! o
            /\ dvel_dt_others_ ps2 !! o = dvel_dt_others_ (particles_ st) !! o).
  { intros o Ho. apply Hrest; intros Hin.
    - destruct (Hlow o Hin) as (Hr & _). lia.
    - destruct (Hupp o Hin) as (Hr & _). lia. }
  assert (Hall : forall j,
            pos_n_ ps4 !! j = pos_n_ ps2 !! j
            /\ vel_n_ ps4 !! j = vel_n_ ps2 !! j
            /\ dvel_dt_others_ ps4 !! j = dvel_dt_others_ ps2 !! j).
  { intros j.
    destruct (in_dec Nat.eq_dec j (ghosts_upper_ st)) as [Hju|Hju].
    - destruct (Hupp j Hju) as (_ & o & Ho & Hlt).
      destruct (Hup' j o Hju) as (A1 & A2 & A3); [now rewrite S2|].
      destruct (Horigin o Hlt) as (B1 & B2 & B3).
      destruct (Hup j o Hju Ho) as (F1 & F2 & F3).
      rewrite A1, A2, A3, B1, B2, B3, F1, F2, F3. auto.
    - destruct (in_dec Nat.eq_dec j (ghosts_lower_ st)) as [Hjl|Hjl].
      + destruct (Hlow j Hjl) as (_ & o & Ho & Hlt).
        destruct (Hlo' j o Hjl Hju) as (A1 & A2 & A3); [now rewrite S2|].
        destruct (Horigin o Hlt) as (B1 & B2 & B3).
        destruct (Hlo j o Hjl Hju Ho) as (F1 & F2 & F3).
        rewrite A1, A2, A3, B1, B2, B3, F1, F2, F3. auto.
      + now apply Hrest'. }
  apply particles_eq; try congruence; intros j; apply Hall.
Qed.

Lemma ExampleGhosts_particles_wf : particles_wf ExampleGhosts.particles.
Proof. unfold particles_wf. simpl. lia. Defined.

Lemma ExampleGhosts_point_below :
  ghosts_point_below 3 [3%nat] ExampleGhosts.particles
  /\ ghosts_point_below 3 [4%nat] ExampleGhosts.particles.
Proof.
  split.
  - intros g [<-|[]]. split; [simpl; lia|]. exists 0%nat. split; [reflexivity | lia].
  - intros g [<-|[]]. split; [simpl; lia|]. exists 2%nat. split; [reflexivity | lia].
Defined.

Lemma periodic_update_exec_spec_witness :
  exists st',
    UpdatePeriodicGhostParticles.exec (mkVecd 4 0) ExampleGhosts.state = Some st'
    /\ pos_n_ (particles_ st') !! 3%nat = Some (mkVecd (17 # 4) 2)
    /\ pos_n_ (particles_ st') !! 4%nat = Some (mkVecd (- (1 # 4)) 2)
    /\ vel_n_ (particles_ st') !! 4%nat = Some (mkVecd (- (1)) 0).
Proof.
  destruct (periodic_update_exec_spec (mkVecd 4 0) ExampleGhosts.state
              ExampleGhosts_particles_wf
              (proj1 ExampleGhosts_point_below) (proj2 ExampleGhosts_point_below))
    as (st' & E & _ & _ & _ & _ & _ & Hup & Hlo & _).
  exists st'. split; [exact E|].
  destruct (Hlo 3%nat 0%nat) as (A1 & _);
    [now left | intros [H|[]]; discriminate | reflexivity |].
  destruct (Hup 4%nat 2%nat) as (B1 & B2 & _); [now left | reflexivity |].
  rewrite A1, B1, B2. repeat split.
Defined.

Lemma update_pass_idempotent gp gv L gs ps ps' ps'' :
  ghosts_updated gp gv gs ps ps' ->
  ghosts_updated gp gv gs ps' ps'' ->
  ghosts_point_below L gs ps ->
  ps'' = ps'.
Proof.
  intros U1 U2 Hgs.
  pose proof U1 as (S1 & T1 & N1 & L1 & Uold1 & Unew1).
  pose proof U2 as (S2 & T2 & N2 & L2 & Uold2 & Unew2).
  assert (Hall : forall j,
            pos_n_ ps'' !! j = pos_n_ ps' !! j
            /\ vel_n_ ps'' !! j = vel_n_ ps' !! j
            /\ dvel_dt_others_ ps'' !! j = dvel_dt_others_ ps' !! j).
  { intros j. destruct (in_dec Nat.eq_dec j gs) as [Hj|Hj]; [|now apply Uold2].
    destruct (Hgs j Hj) as (_ & o & Ho & Hlt).
    destruct (Unew2 j o Hj) as (A1 & A2 & A3); [now rewrite S1|].
    destruct (ghosts_updated_origin _ _ _ _ _ _ o U1 Hgs Hlt) as (B1 & B2 & B3).
    destruct (Unew1 j o Hj Ho) as (C1 & C2 & C3).
    rewrite A1, A2, A3, B1, B2, B3, C1, C2, C3. auto. }
  apply particles_eq; try congruence; intros j; apply Hall.
Qed.

Lemma mirror_update_closed_form positive b st L :
  particles_wf (particles_ st) ->
  ghosts_point_below L (ghosts_lower_ st) (particles_ st) ->
  exists ps',
    UpdatingGhostStates.exec positive b st
    = Some {| particles_ := ps';
              mesh_cell_linked_list_ := mesh_cell_linked_list_ st;
              ghosts_lower_ := ghosts_lower_ st;
              ghosts_upper_ := ghosts_upper_ st |}
    /\ ghosts_updated (mirrored_position (mirror_bound positive b) (axis_ b))
         (mirrored_velocity (axis_ b)) (ghosts_lower_ st) (particles_ st) ps'
    /\ particles_wf ps'.
Proof.
  intros Hwf Hgs.
  destruct (update_pass_closed_form
              (fun g s => UpdatingGhostStates.checking_bound_update_ positive b g s)
              (mirrored_position (mirror_bound positive b) (axis_ b))
              (mirrored_velocity (axis_ b))
              (mirror_update_spec positive b) L (ghosts_lower_ st) (particles_ st) Hwf Hgs)
    as (ps' & E & U & Hwf').
  exists ps'. unfold UpdatingGhostStates.exec. rewrite E. auto.
Qed.

(** X6: The update pass of a mirror condition, for ghosts that lie beyond the
    real particles and whose sorted identity names a real particle: it
    returns; each ghost holds the mirror image, at the bound of the side, of
    the current position and velocity of its origin, and the origin's
    acceleration; every other particle, the identities, the ghost list and
    the cell linked list are as before.  A second update pass changes
    nothing. *)
Theorem mirror_update_exec_spec (positive : bool) (b : BoundingInAxisDirection)
    (st : GhostState)
    (Hwf : particles_wf (particles_ st))
    (Hgs : ghosts_point_below (total_real_particles_ (particles_ st))
             (ghosts_lower_ st) (particles_ st)) :
  exists st',
    UpdatingGhostStates.exec positive b st = Some st'
    /\ mesh_cell_linked_list_ st' = mesh_cell_linked_list_ st
    /\ ghosts_lower_ st' = ghosts_lower_ st
    /\ ghosts_upper_ st' = ghosts_upper_ st
    /\ sorted_id_ (particles_ st') = sorted_id_ (particles_ st)
    /\ (forall j, ~ In j (ghosts_lower_ st) ->
          pos_n_ (particles_ st') !! j = pos_n_ (particles_ st) !! j
          /\ vel_n_ (particles_ st') !! j = vel_n_ (particles_ st) !! j
          /\ dvel_dt_others_ (particles_ st') !! j = dvel_dt_others_ (particles_ st) !! j)
    /\ (forall g o p v, In g (ghosts_lower_ st) ->
          sorted_id_ (particles_ st) !! g = Some o ->
          pos_n_ (particles_ st) !! o = Some p ->
          vel_n_ (particles_ st) !! o = Some v ->
          exists pg vg,
            pos_n_ (particles_ st') !! g = Some pg
            /\ vel_n_ (particles_ st') !! g = Some vg
            /\ mirror_image (mirror_bound positive b) (axis_ b) p v pg vg
            /\ dvel_dt_others_ (particles_ st') !! g
               = dvel_dt_others_ (particles_ st) !! o)
    /\ UpdatingGhostStates.exec positive b st' = Some st'.
Proof.
  set (L := total_real_particles_ (particles_ st)) in *.
  destruct (mirror_update_closed_form positive b st L Hwf Hgs) as (ps' & E & U & Hwf').
  pose proof U as (S1 & T1 & N1 & L1 & Uold & Unew).
  eexists. split; [exact E|].
  cbn [particles_ mesh_cell_linked_list_ ghosts_lower_ ghosts_upper_].
  split; [reflexivity|]. split; [reflexivity|]. split; [reflexivity|].
  split; [exact S1|]. split; [exact Uold|]. split.
  - intros g o p v Hg Ho Hp Hv.
    destruct (Unew g o Hg Ho) as (A1 & A2 & A3). rewrite Hp, Hv in *.
    eexists _, _. split; [exact A1|]. split; [exact A2|].
    split; [apply mirror_image_mirrored | exact A3].
  - set (st' := {| particles_ := ps';
                   mesh_cell_linked_list_ := mesh_cell_linked_list_ st;
                   ghosts_lower_ := ghosts_lower_ st;
                   ghosts_upper_ := ghosts_upper_ st |}).
    destruct (mirror_update_closed_form positive b st' L Hwf'
                (ghosts_point_below_updated _ _ _ _ _ _ _ U Hgs))
      as (ps'' & E' & U' & _).
    rewrite E'. unfold st' in U' |- *.
    cbn [particles_ mesh_cell_linked_list_ ghosts_lower_ ghosts_upper_] in U' |- *.
    do 2 f_equal. exact (update_pass_idempotent _ _ _ _ _ _ _ U U' Hgs).
Qed.

Lemma mirror_update_exec_spec_witness :
  exists st',
    UpdatingGhostStates.exec false Example.bounding ExampleGhosts.state = Some st'
    /\ pos_n_ (particles_ st') !! 3%nat = Some (mkVecd (- (1 # 4)) 2)
    /\ vel_n_ (particles_ st') !! 3%nat = Some (mkVecd (- (1)) 0)
    /\ UpdatingGhostStates.exec false Example.bounding st' = Some st'.
Proof.
  destruct (mirror_update_exec_spec false Example.bounding ExampleGhosts.state
              ExampleGhosts_particles_wf (proj1 ExampleGhosts_point_below))
    as (st' & E & _ & _ & _ & _ & _ & _ & Hidem).
  exists st'. split; [exact E|].
  assert (E' : UpdatingGhostStates.exec false Example.bounding ExampleGhosts.state
               = Some st') by exact E.
  vm_compute in E'. injection E' as <-.
  split; [reflexivity|]. split; [reflexivity|]. exact Hidem.
Defined.

(** ** An update pass right after a create pass *)

(** The ghosts a create pass appends, when the real particles carry their
    own index as sorted identity: each names its origin. *)
Lemma appended_ghost_of lower gp gv reg origins sA sB n g :
  particles_wf (particles_ sA) ->
  ghosts_appended lower gp gv reg origins sA sB ->
  (forall j, In j origins -> (j < n)%nat) ->
  (n <= length (pos_n_ (particles_ sA)))%nat ->
  (forall i, (i < n)%nat -> sorted_id_ (particles_ sA) !! i = Some i) ->
  In g (seq (length (pos_n_ (particles_ sA))) (length origins)) ->
  exists o p v a,
    In o origins /\ (o < n)%nat
    /\ pos_n_ (particles_ sA) !! o = Some p
    /\ vel_n_ (particles_ sA) !! o = Some v
    /\ dvel_dt_others_ (particles_ sA) !! o = Some a
    /\ sorted_id_ (particles_ sB) !! g = Some o
    /\ pos_n_ (particles_ sB) !! g = Some (gp p)
    /\ vel_n_ (particles_ sB) !! g = Some (gv v)
    /\ dvel_dt_others_ (particles_ sB) !! g = Some a
    /\ In (g, reg p)
          (combine (seq (length (pos_n_ (particles_ sA))) (length origins))
                   (List.map (fun i => reg (nth i (pos_n_ (particles_ sA)) Vecd_zero)) origins))
    /\ (g < length (pos_n_ (particles_ sB)))%nat.
Proof.
  intros Hwf Hap Hlt Hn Hid Hg. apply in_seq in Hg.
  set (k := (g - length (pos_n_ (particles_ sA)))%nat).
  assert (Hk : (k < length origins)%nat) by (subst k; lia).
  destruct (lookup_lt_is_Some_2 origins k Hk) as [o Ho].
  assert (Hon : (o < n)%nat) by (apply Hlt; eapply lookup_In; exact Ho).
  destruct (particles_wf_lookups _ o Hwf) as (p & v & a & sid & Hp & Hv & Ha & Hs); [lia|].
  destruct (ghosts_appended_ghost _ _ _ _ _ _ _ _ _ _ _ _ _ Hwf Hap Ho Hp Hv Ha Hs)
    as (G1 & G2 & G3 & G4 & G5 & G6).
  replace (length (pos_n_ (particles_ sA)) + k)%nat with g in * by (subst k; lia).
  rewrite (Hid o Hon) in Hs. injection Hs as <-.
  exists o, p, v, a.
  split; [eapply lookup_In; exact Ho|]. split; [exact Hon|].
  split; [exact Hp|]. split; [exact Hv|]. split; [exact Ha|].
  split; [exact G4|]. split; [exact G1|]. split; [exact G2|]. split; [exact G3|].
  split; [exact G6|]. now apply lookup_lt_Some in G1.
Qed.

(** X7: Right after the create pass of a mirror condition, on particles whose
    real particles carry their own index as sorted identity, the update pass
    returns the state it was given: the ghosts already hold the mirror images
    it would write. *)
Theorem mirror_update_after_create_unchanged (positive : bool)
    (b : BoundingInAxisDirection) (st : GhostState)
    (Hwf : particles_wf (particles_ st))
    (Hid : forall i, (i < total_real_particles_ (particles_ st))%nat ->
                     sorted_id_ (particles_ st) !! i = Some i) :
  exists st1,
    MirrorBoundaryConditionInAxisDirection.exec positive b st = Some st1
    /\ UpdatingGhostStates.exec positive b st1 = Some st1.
Proof.
  unfold MirrorBoundaryConditionInAxisDirection.exec.
  set (st0 := {| particles_ := particles_ st;
                 mesh_cell_linked_list_ := mesh_cell_linked_list_ st;
                 ghosts_lower_ := [];
                 ghosts_upper_ := ghosts_upper_ st |}).
  set (n := total_real_particles_ (particles_ st)) in *.
  assert (HnL : (n <= length (pos_n_ (particles_ st0)))%nat)
    by (destruct Hwf as (_ & _ & _ & Ht); exact Ht).
  assert (Hn : forall i, In i (seq 0 n) -> (i < length (pos_n_ (particles_ st0)))%nat).
  { intros i Hi. apply in_seq in Hi. lia. }
  destruct (ghost_pass_closed_form
              (fun i s => MirrorBoundaryConditionInAxisDirection.checking_bound_ positive b i s)
              (mirror_near positive b)
              (mirrored_position (mirror_bound positive b) (axis_ b))
              (mirrored_velocity (axis_ b))
              (mirrored_position (mirror_bound positive b) (axis_ b)) true
              (mirror_checking_bound_spec positive b) (seq 0 n) st0 Hwf Hn)
    as (st1 & E & Hap & Hwf1).
  exists st1. split; [exact E|].
  set (origins := List.filter _ (seq 0 n)) in Hap.
  destruct (origins_facts (fun i => mirror_near positive b
                                      (nth i (pos_n_ (particles_ st0)) Vecd_zero)) n)
    as [_ Hlt]. fold origins in Hlt.
  assert (Hlist : ghosts_lower_ st1 = seq (length (pos_n_ (particles_ st0))) (length origins)).
  { destruct Hap as (_ & _ & _ & _ & _ & _ & L1 & _). exact L1. }
  assert (Htot : total_real_particles_ (particles_ st1) = n).
  { destruct Hap as (_ & _ & _ & _ & T1 & _). exact T1. }
  assert (Hgs : ghosts_point_below n (ghosts_lower_ st1) (particles_ st1)).
  { intros g Hg. rewrite Hlist in Hg.
    destruct (appended_ghost_of true _ _ _ origins st0 st1 n g Hwf Hap Hlt HnL Hid Hg)
      as (o & p & v & a & _ & Hon & _ & _ & _ & Hs & _ & _ & _ & _ & Hglt).
    apply in_seq in Hg. split; [lia|]. now exists o. }
  destruct (mirror_update_closed_form positive b st1 n Hwf1 Hgs) as (ps' & E' & U & _).
  rewrite E'. destruct st1 as [ps1 mesh1 lo1 up1].
  cbn [particles_ mesh_cell_linked_list_ ghosts_lower_ ghosts_upper_] in *.
  do 2 f_equal.
  pose proof U as (S1 & T1 & N1 & L1 & Uold & Unew).
  assert (Hall : forall j,
            pos_n_ ps' !! j = pos_n_ ps1 !! j
            /\ vel_n_ ps' !! j = vel_n_ ps1 !! j
            /\ dvel_dt_others_ ps' !! j = dvel_dt_others_ ps1 !! j).
  { intros j. destruct (in_dec Nat.eq_dec j lo1) as [Hj|Hj]; [|now apply Uold].
    pose proof Hj as Hj'. rewrite Hlist in Hj'.
    destruct (appended_ghost_of true _ _ _ origins st0 _ n j Hwf Hap Hlt HnL Hid Hj')
      as (o & p & v & a & _ & Hon & Hp & Hv & Ha & Hs & Gp & Gv & Ga & _).
    cbn [particles_] in Hs, Gp, Gv, Ga.
    destruct (Unew j o Hj Hs) as (A1 & A2 & A3).
    destruct (ghosts_appended_old true _ _ _ origins st0 _ o Hwf Hap ltac:(lia))
      as (O1 & O2 & O3 & _).
    cbn [particles_] in O1, O2, O3.
    rewrite A1, A2, A3, O1, O2, O3, Gp, Gv, Ga, Hp, Hv, Ha. auto. }
  apply particles_eq; try congruence; intros j; apply Hall.
Qed.

Lemma mirror_update_after_create_unchanged_witness :
  exists st1,
    MirrorBoundaryConditionInAxisDirection.exec true Example.bounding Example.state = Some st1
    /\ UpdatingGhostStates.exec true Example.bounding st1 = Some st1
    /\ ghosts_lower_ st1 = [3%nat].
Proof.
  destruct (mirror_update_after_create_unchanged true Example.bounding Example.state
              Example_particles_wf) as (st1 & E & E').
  - intros i Hi.
    destruct i as [|[|[|i]]]; [reflexivity | reflexivity | reflexivity | simpl in Hi; lia].
  - exists st1. split; [exact E|]. split; [exact E'|].
    assert (E2 : MirrorBoundaryConditionInAxisDirection.exec true Example.bounding Example.state
                 = Some st1) by exact E.
    vm_compute in E2. injection E2 as <-. reflexivity.
Defined.

(** X8: After the create pass of a periodic condition followed by the update
    pass, on particles whose real particles carry their own index as sorted
    identity: a real particle within the proximity range of the lower
    (upper) bound has a ghost whose position, a copy of the particle's after
    the create pass, is now the particle's position plus (minus) the
    translation, the position under which the create pass entered the ghost
    in the cell linked list; the ghost has the particle's velocity, and the
    particles that were there before are unchanged. *)
Theorem periodic_update_after_create (b : BoundingInAxisDirection) (T : Vecd)
    (st : GhostState) (i : nat) (p : Vecd)
    (Hwf : particles_wf (particles_ st))
    (Hid : forall i, (i < total_real_particles_ (particles_ st))%nat ->
                     sorted_id_ (particles_ st) !! i = Some i)
    (Hshape : mesh_shape (mesh_cell_linked_list_ st))
    (Hn0 : (0 < fst (number_of_cells_ (mesh_cell_linked_list_ st)))%Z)
    (Hn1 : (0 < snd (number_of_cells_ (mesh_cell_linked_list_ st)))%Z)
    (Hi : (i < total_real_particles_ (particles_ st))%nat)
    (Hp : pos_n_ (particles_ st) !! i = Some p) :
  exists st1 st2,
    CreatPeriodicGhostParticles.exec b T st = Some st1
    /\ UpdatePeriodicGhostParticles.exec T st1 = Some st2
    /\ (near_lower_bound b p = true ->
        exists g cell,
          In g (ghosts_lower_ st2)
          /\ pos_n_ (particles_ st1) !! g = Some p
          /\ pos_n_ (particles_ st2) !! g = Some (Vecd_add p T)
          /\ vel_n_ (particles_ st2) !! g = vel_n_ (particles_ st) !! i
          /\ cell_at (cell_linked_lists_ (mesh_cell_linked_list_ st2))
               (fst (GridIndexFromPosition (mesh_cell_linked_list_ st) (Vecd_add p T)))
               (snd (GridIndexFromPosition (mesh_cell_linked_list_ st) (Vecd_add p T)))
             = Some cell
          /\ In (g, Vecd_add p T) cell)
    /\ (near_upper_bound b p = true ->
        exists g cell,
          In g (ghosts_upper_ st2)
          /\ pos_n_ (particles_ st1) !! g = Some p
          /\ pos_n_ (particles_ st2) !! g = Some (Vecd_sub p T)
          /\ vel_n_ (particles_ st2) !! g = vel_n_ (particles_ st) !! i
          /\ cell_at (cell_linked_lists_ (mesh_cell_linked_list_ st2))
               (fst (GridIndexFromPosition (mesh_cell_linked_list_ st) (Vecd_sub p T)))
               (snd (GridIndexFromPosition (mesh_cell_linked_list_ st) (Vecd_sub p T)))
             = Some cell
          /\ In (g, Vecd_sub p T) cell)
    /\ (forall j, (j < length (pos_n_ (particles_ st)))%nat ->
          pos_n_ (particles_ st2) !! j = pos_n_ (particles_ st) !! j
          /\ vel_n_ (particles_ st2) !! j = vel_n_ (particles_ st) !! j
          /\ dvel_dt_others_ (particles_ st2) !! j = dvel_dt_others_ (particles_ st) !! j).
Proof.
  destruct (periodic_create_closed_form b T st Hwf) as (sA & st1 & E & HwfA & Hap1 & Hap2).
  set (s0 := CreatPeriodicGhostParticles.setupDynamics st) in *.
  set (n := total_real_particles_ (particles_ st)) in *.
  set (lo := List.filter (fun i => near_lower_bound b (nth i (pos_n_ (particles_ st)) Vecd_zero))
                         (seq 0 n)) in *.
  set (up := List.filter (fun i => near_upper_bound b (nth i (pos_n_ (particles_ st)) Vecd_zero))
                         (seq 0 n)) in *.
  destruct (origins_facts (fun i => near_lower_bound b (nth i (pos_n_ (particles_ st)) Vecd_zero)) n)
    as [_ Hltlo].
  destruct (origins_facts (fun i => near_upper_bound b (nth i (pos_n_ (particles_ st)) Vecd_zero)) n)
    as [_ Hltup].
  fold lo in Hltlo. fold up in Hltup.
  set (L0 := length (pos_n_ (particles_ st))) in *.
  assert (Hn : (n <= L0)%nat) by (destruct Hwf as (_ & _ & _ & H); exact H).
  assert (HLA : length (pos_n_ (particles_ sA)) = (L0 + length lo)%nat).
  { destruct Hap1 as (A1 & _). rewrite A1, length_app, length_map. reflexivity. }
  assert (HL1 : length (pos_n_ (particles_ st1)) = (L0 + length lo + length up)%nat).
  { destruct Hap2 as (A1 & _). rewrite A1, length_app, length_map. lia. }
  assert (Hold : forall j, (j < L0)%nat ->
            pos_n_ (particles_ sA) !! j = pos_n_ (particles_ st) !! j
            /\ vel_n_ (particles_ sA) !! j = vel_n_ (particles_ st) !! j
            /\ dvel_dt_others_ (particles_ sA) !! j = dvel_dt_others_ (particles_ st) !! j
            /\ sorted_id_ (particles_ sA) !! j = sorted_id_ (particles_ st) !! j).
  { intros j Hj. exact (ghosts_appended_old true _ _ _ lo s0 sA j Hwf Hap1 Hj). }
  assert (Hold1 : forall j, (j < L0 + length lo)%nat ->
            pos_n_ (particles_ st1) !! j = pos_n_ (particles_ sA) !! j
            /\ vel_n_ (particles_ st1) !! j = vel_n_ (particles_ sA) !! j
            /\ dvel_dt_others_ (particles_ st1) !! j = dvel_dt_others_ (particles_ sA) !! j
            /\ sorted_id_ (particles_ st1) !! j = sorted_id_ (particles_ sA) !! j).
  { intros j Hj. apply (ghosts_appended_old false _ _ _ up sA st1 j HwfA Hap2). lia. }
  assert (HidA : forall i, (i < n)%nat -> sorted_id_ (particles_ sA) !! i = Some i).
  { intros j Hj. destruct (Hold j) as (_ & _ & _ & S); [lia|]. rewrite S. now apply Hid. }
  assert (Hlow_list : ghosts_lower_ st1 = seq L0 (length lo)).
  { destruct Hap1 as (_ & _ & _ & _ & _ & _ & L1 & _).
    destruct Hap2 as (_ & _ & _ & _ & _ & _ & L2 & _).
    rewrite L2, L1. simpl. now rewrite app_nil_r. }
  assert (Hupp_list : ghosts_upper_ st1 = seq (length (pos_n_ (particles_ sA))) (length up)).
  { destruct Hap1 as (_ & _ & _ & _ & _ & _ & _ & L1 & _).
    destruct Hap2 as (_ & _ & _ & _ & _ & _ & _ & L2 & _).
    rewrite L2, L1. reflexivity. }
  assert (Htot : total_real_particles_ (particles_ st1) = n).
  { destruct Hap1 as (_ & _ & _ & _ & T1 & _). destruct Hap2 as (_ & _ & _ & _ & T2 & _).
    rewrite T2, T1. reflexivity. }
  assert (Hmesh : mesh_cell_linked_list_ st1
                  = fold_left (fun g e => InsertACellLinkedListDataEntry (fst e) (snd e) g)
                      (combine (seq L0 (length lo))
                         (List.map (fun i => Vecd_add (nth i (pos_n_ (particles_ st)) Vecd_zero) T) lo)
                       ++ combine (seq (length (pos_n_ (particles_ sA))) (length up))
                            (List.map (fun i => Vecd_sub (nth i (pos_n_ (particles_ sA)) Vecd_zero) T) up))
                      (mesh_cell_linked_list_ st)).
  { destruct Hap1 as (_ & _ & _ & _ & _ & _ & _ & _ & M1).
    destruct Hap2 as (_ & _ & _ & _ & _ & _ & _ & _ & M2).
    rewrite fold_left_app, M2, M1. reflexivity. }
  (* the ghosts of the two lists *)
  assert (Hlo_ghost : forall g, In g (seq L0 (length lo)) ->
            exists o q v,
              In o lo /\ (o < n)%nat
              /\ pos_n_ (particles_ st) !! o = Some q
              /\ vel_n_ (particles_ st) !! o = Some v
              /\ sorted_id_ (particles_ st1) !! g = Some o
              /\ pos_n_ (particles_ st1) !! g = Some q
              /\ In (g, Vecd_add q T)
                    (combine (seq L0 (length lo))
                       (List.map (fun i => Vecd_add (nth i (pos_n_ (particles_ st)) Vecd_zero) T)
                          lo))).
  { intros g Hg.
    destruct (appended_ghost_of true _ _ _ lo s0 sA n g Hwf Hap1 Hltlo Hn Hid Hg)
      as (o & q & v & a & Ho & Hon & Hq & Hv & Ha & Gs & Gp & Gv & Ga & Gr & Glt).
    apply in_seq in Hg.
    destruct (Hold1 g ltac:(lia)) as (O1 & _ & _ & O4).
    exists o, q, v. rewrite O1, O4. auto 10. }
  assert (Hup_ghost : forall g, In g (seq (length (pos_n_ (particles_ sA))) (length up)) ->
            exists o q v,
              In o up /\ (o < n)%nat
              /\ pos_n_ (particles_ st) !! o = Some q
              /\ vel_n_ (particles_ st) !! o = Some v
              /\ sorted_id_ (particles_ st1) !! g = Some o
              /\ pos_n_ (particles_ st1) !! g = Some q
              /\ In (g, Vecd_sub q T)
                    (combine (seq (length (pos_n_ (particles_ sA))) (length up))
                       (List.map (fun i => Vecd_sub (nth i (pos_n_ (particles_ sA)) Vecd_zero) T)
                          up))).
  { intros g Hg.
    destruct (appended_ghost_of false _ _ _ up sA st1 n g HwfA Hap2 Hltup ltac:(lia) HidA Hg)
      as (o & q & v & a & Ho & Hon & Hq & Hv & Ha & Gs & Gp & Gv & Ga & Gr & Glt).
    destruct (Hold o ltac:(lia)) as (O1 & O2 & _).
    exists o, q, v. rewrite <- O1, <- O2. auto 10. }
  assert (Hlow : ghosts_point_below n (ghosts_lower_ st1) (particles_ st1)).
  { intros g Hg. rewrite Hlow_list in Hg.
    destruct (Hlo_ghost g Hg) as (o & q & v & _ & Hon & _ & _ & Gs & _).
    apply in_seq in Hg. split; [lia|]. now exists o. }
  assert (Hupp : ghosts_point_below n (ghosts_upper_ st1) (particles_ st1)).
  { intros g Hg. rewrite Hupp_list in Hg.
    destruct (Hup_ghost g Hg) as (o & q & v & _ & Hon & _ & _ & Gs & _).
    apply in_seq in Hg. split; [lia|]. now exists o. }
  assert (Hwf1 : particles_wf (particles_ st1)).
  { destruct HwfA as (Lv & La & Ls & Ht).
    destruct Hap2 as (A1 & A2 & A3 & A4 & A5 & _).
    unfold particles_wf. rewrite A1, A2, A3, A4, A5, !length_app, !length_map. lia. }
  destruct (periodic_update_lookups T st1 n Hwf1 Hlow Hupp)
    as (ps2 & E2 & Hwf2 & S2 & T2 & N2 & L2 & Hrest & Hup & Hlo).
  exists st1. eexists. split; [exact E|]. split; [exact E2|].
  cbn [particles_ mesh_cell_linked_list_ ghosts_lower_ ghosts_upper_].
  assert (Horigin : forall o, (o < L0)%nat ->
            pos_n_ ps2 !! o = pos_n_ (particles_ st) !! o
            /\ vel_n_ ps2 !! o = vel_n_ (particles_ st) !! o
            /\ dvel_dt_others_ ps2 !! o = dvel_dt_others_ (particles_ st) !! o).
  { intros o Ho.
    destruct (Hrest o) as (A1 & A2 & A3).
    - rewrite Hlow_list. intros H. apply in_seq in H. lia.
    - rewrite Hupp_list. intros H. apply in_seq in H. lia.
    - destruct (Hold1 o ltac:(lia)) as (B1 & B2 & B3 & _).
      destruct (Hold o Ho) as (C1 & C2 & C3 & _).
      rewrite A1, A2, A3, B1, B2, B3. auto. }
  split; [|split; [|exact Horigin]].
  - intros Hnear.
    assert (Hin : In i lo).
    { apply filter_In. split; [apply in_seq; lia|].
      now rewrite (nth_lookup_Some _ _ Vecd_zero _ Hp). }
    destruct (In_lookup _ _ Hin) as [k Hk].
    set (g := (L0 + k)%nat).
    assert (Hg : In g (seq L0 (length lo))).
    { apply in_seq. apply lookup_lt_Some in Hk. subst g. lia. }
    destruct (particles_wf_lookups _ i Hwf ltac:(fold L0; lia))
      as (p' & v & a & sid & Hp' & Hv & Ha & Hs).
    assert (p' = p) by congruence. subst p'.
    destruct (ghosts_appended_ghost true _ _ (fun p => Vecd_add p T) lo s0 sA k i p v a sid
                Hwf Hap1 Hk Hp Hv Ha Hs) as (G1 & G2 & G3 & G4 & G5 & G6).
    change (length (pos_n_ (particles_ s0))) with L0 in G1, G2, G3, G4, G5, G6.
    fold g in G1, G2, G3, G4, G5, G6.
    rewrite (Hid i Hi) in Hs. injection Hs as <-.
    assert (HgA : (g < L0 + length lo)%nat) by (apply in_seq in Hg; lia).
    destruct (Hold1 g HgA) as (O1 & O2 & O3 & O4).
    destruct (Hlo g i) as (A1 & A2 & A3).
    { now rewrite Hlow_list. }
    { rewrite Hupp_list, HLA. intros H. apply in_seq in H. lia. }
    { congruence. }
    destruct (Hold1 i ltac:(lia)) as (B1 & B2 & _).
    destruct (Hold i ltac:(lia)) as (C1 & C2 & _).
    destruct (registered_after_inserts
                (combine (seq L0 (length lo))
                   (List.map (fun i => Vecd_add (nth i (pos_n_ (particles_ st)) Vecd_zero) T) lo)
                 ++ combine (seq (length (pos_n_ (particles_ sA))) (length up))
                      (List.map (fun i => Vecd_sub (nth i (pos_n_ (particles_ sA)) Vecd_zero) T) up))
                (mesh_cell_linked_list_ st) g (Vecd_add p T) Hshape Hn0 Hn1)
      as (cell & Hcell & Hincell).
    { apply in_or_app. left. exact G6. }
    exists g, cell. rewrite Hlow_list, Hmesh.
    split; [exact Hg|]. split; [congruence|].
    split; [rewrite A1, B1, C1, Hp; reflexivity|].
    split; [rewrite A2, B2, C2; reflexivity|].
    split; [exact Hcell | exact Hincell].
  - intros Hnear.
    assert (Hin : In i up).
    { apply filter_In. split; [apply in_seq; lia|].
      now rewrite (nth_lookup_Some _ _ Vecd_zero _ Hp). }
    destruct (In_lookup _ _ Hin) as [k Hk].
    set (g := (length (pos_n_ (particles_ sA)) + k)%nat).
    assert (Hg : In g (seq (length (pos_n_ (particles_ sA))) (length up))).
    { apply in_seq. apply lookup_lt_Some in Hk. subst g. lia. }
    destruct (Hold i ltac:(lia)) as (C1 & C2 & C3 & C4).
    destruct (particles_wf_lookups _ i HwfA ltac:(lia))
      as (p' & v & a & sid & Hp' & Hv & Ha & Hs).
    assert (p' = p) by congruence. subst p'.
    destruct (ghosts_appended_ghost false _ _ (fun p => Vecd_sub p T) up sA st1 k i p v a sid
                HwfA Hap2 Hk Hp' Hv Ha Hs) as (G1 & G2 & G3 & G4 & G5 & G6).
    fold g in G1, G2, G3, G4, G5, G6.
    rewrite (HidA i Hi) in Hs. injection Hs as <-.
    destruct (Hup g i) as (A1 & A2 & A3).
    { now rewrite Hupp_list. }
    { exact G4. }
    destruct (Hold1 i ltac:(lia)) as (B1 & B2 & _).
    destruct (registered_after_inserts
                (combine (seq L0 (length lo))
                   (List.map (fun i => Vecd_add (nth i (pos_n_ (particles_ st)) Vecd_zero) T) lo)
                 ++ combine (seq (length (pos_n_ (particles_ sA))) (length up))
                      (List.map (fun i => Vecd_sub (nth i (pos_n_ (particles_ sA)) Vecd_zero) T) up))
                (mesh_cell_linked_list_ st) g (Vecd_sub p T) Hshape Hn0 Hn1)
      as (cell & Hcell & Hincell).
    { apply in_or_app. right. exact G6. }
    exists g, cell. rewrite Hupp_list, Hmesh.
    split; [exact Hg|]. split; [exact G1|].
    split; [rewrite A1, B1, Hp'; reflexivity|].
    split; [rewrite A2, B2, C2; reflexivity|].
    split; [exact Hcell | exact Hincell].
Qed.

Lemma Example_identity_ids :
  forall i, (i < total_real_particles_ (particles_ Example.state))%nat ->
            sorted_id_ (particles_ Example.state) !! i = Some i.
Proof.
  intros i Hi.
  destruct i as [|[|[|i]]]; [reflexivity | reflexivity | reflexivity | simpl in Hi; lia].
Defined.

Lemma periodic_update_after_create_witness :
  exists st1 st2 g,
    CreatPeriodicGhostParticles.exec Example.bounding (mkVecd 4 0) Example.state = Some st1
    /\ UpdatePeriodicGhostParticles.exec (mkVecd 4 0) st1 = Some st2
    /\ pos_n_ (particles_ st1) !! g = Some (mkVecd (1 # 4) 2)
    /\ pos_n_ (particles_ st2) !! g = Some (Vecd_add (mkVecd (1 # 4) 2) (mkVecd 4 0)).
Proof.
  destruct (periodic_update_after_create Example.bounding (mkVecd 4 0) Example.state 0
              (mkVecd (1 # 4) 2) Example_particles_wf Example_identity_ids Example_mesh_shape)
    as (st1 & st2 & E1 & E2 & Hlo & _).
  - simpl; lia.
  - simpl; lia.
  - simpl; lia.
  - reflexivity.
  - destruct (Hlo eq_refl) as (g & cell & _ & G1 & G2 & _).
    exists st1, st2, g. auto.
Defined.

(** ** Reductions to a flag and to a scalar *)

Lemma reduce_scalar_range {R A : Type} (op : R -> R -> R) (f : A -> R) (l : list A)
    (k : nat) : forall (a : nat) (acc : R),
  (a + k <= length l)%nat ->
  foldM (fun temp i => x ← (v ← l !! i; Some (f v)); Some (op temp x)) (seq a k) acc
  = Some (fold_left (fun t v => op t (f v)) (take k (drop a l)) acc).
Proof.
  induction k as [|k IH]; intros a acc Hle; cbn [seq foldM]; [reflexivity|].
  destruct (lookup_lt_is_Some_2 l a) as [x Hx]; [lia|].
  rewrite Hx. cbn [mbind option_bind]. rewrite IH by lia.
  rewrite (drop_S _ _ _ Hx). reflexivity.
Qed.

Lemma fold_left_orb {A : Type} (f : A -> bool) (l : list A) : forall acc,
  fold_left (fun t v => ReduceOR t (f v)) l acc = acc || existsb f l.
Proof.
  induction l as [|x l IH]; intros acc; simpl.
  - now rewrite orb_false_r.
  - rewrite IH. unfold ReduceOR. now rewrite orb_assoc.
Qed.

Lemma reduce_or_blocks {A : Type} (f : A -> bool) (l : list A) (sizes : list nat) :
  forall (a : nat) (acc : bool),
    (a + list_sum sizes <= length l)%nat ->
    foldM (fun temp block =>
             part ← foldM (fun t i => x ← (v ← l !! i; Some (f v)); Some (ReduceOR t x))
                          block false;
             Some (ReduceOR temp part))
          (ParticleDynamicsReduce.blocks a sizes) acc
    = Some (acc || existsb f (take (list_sum sizes) (drop a l))).
Proof.
  induction sizes as [|n sizes IH]; intros a acc Hle;
    cbn [ParticleDynamicsReduce.blocks foldM].
  - simpl. now rewrite orb_false_r.
  - change (list_sum (n :: sizes)) with (n + list_sum sizes)%nat in *.
    rewrite (reduce_scalar_range ReduceOR f l n a false) by lia.
    cbn [mbind option_bind]. rewrite IH by lia.
    rewrite fold_left_orb, take_add_drop, drop_drop, existsb_app.
    unfold ReduceOR. cbn [orb]. now rewrite orb_assoc.
Qed.

Lemma norm_gt_bool_iff v s :
  norm_gt_bool v s = true <-> s < 0 \/ s * s < normSqr v.
Proof.
  unfold norm_gt_bool. now rewrite orb_true_iff, !Qlt_bool_iff.
Qed.

(** X10: The velocity bound check returns [true] exactly when some real particle
    has a velocity whose norm exceeds the bound (the bound is negative, or
    its square is below the squared norm), hence [false] for a body without
    real particles; the parallel reduce over any partition of the real
    particles returns the same flag. *)
Theorem VelocityBoundCheck_exec_spec (velocity_bound_ : Real) (ps : BaseParticles)
    (sizes : list nat)
    (Hn : (total_real_particles_ ps <= length (vel_n_ ps))%nat)
    (Hsum : list_sum sizes = total_real_particles_ ps) :
  exists r,
    VelocityBoundCheck.exec velocity_bound_ ps = Some r
    /\ VelocityBoundCheck.parallel_exec velocity_bound_ sizes ps = Some r
    /\ (r = true <->
        exists i v, (i < total_real_particles_ ps)%nat
                    /\ vel_n_ ps !! i = Some v
                    /\ (velocity_bound_ < 0
                        \/ velocity_bound_ * velocity_bound_ < normSqr v))
    /\ (total_real_particles_ ps = 0%nat -> r = false).
Proof.
  exists (existsb (fun v => norm_gt_bool v velocity_bound_)
            (take (total_real_particles_ ps) (vel_n_ ps))).
  split; [|split; [|split]].
  - unfold VelocityBoundCheck.exec, ParticleDynamicsReduce.exec,
      VelocityBoundCheck.ReduceFunction.
    rewrite (reduce_scalar_range ReduceOR (fun v => norm_gt_bool v velocity_bound_)
               (vel_n_ ps) (total_real_particles_ ps) 0%nat) by (simpl; lia).
    rewrite fold_left_orb. reflexivity.
  - unfold VelocityBoundCheck.parallel_exec, ParticleDynamicsReduce.parallel_exec,
      VelocityBoundCheck.ReduceFunction, VelocityBoundCheck.initial_reference_.
    rewrite (reduce_or_blocks (fun v => norm_gt_bool v velocity_bound_) (vel_n_ ps) sizes
               0%nat false) by (simpl; lia).
    rewrite Hsum. reflexivity.
  - rewrite existsb_exists. split.
    + intros (v & Hv & Hgt). destruct (In_lookup _ _ Hv) as [i Hi].
      apply lookup_take_Some in Hi. destruct Hi as [Hi Hlt].
      exists i, v. split; [exact Hlt|]. split; [exact Hi|]. now apply norm_gt_bool_iff.
    + intros (i & v & Hlt & Hi & Hgt). exists v. split; [|now apply norm_gt_bool_iff].
      apply (lookup_In _ i). apply lookup_take_Some. auto.
  - intros ->. reflexivity.
Qed.

Lemma VelocityBoundCheck_exec_spec_witness :
  VelocityBoundCheck.exec (1 # 2) Example.particles = Some true
  /\ VelocityBoundCheck.parallel_exec (1 # 2) [2%nat; 1%nat] Example.particles = Some true
  /\ VelocityBoundCheck.exec 1 Example.particles = Some false.
Proof.
  destruct (VelocityBoundCheck_exec_spec (1 # 2) Example.particles [2%nat; 1%nat])
    as (r & E & E' & Hiff & _).
  - simpl; lia.
  - reflexivity.
  - assert (Hr : r = true).
    { apply Hiff. exists 0%nat, (mkVecd 1 0). split; [simpl; lia|].
      split; [reflexivity|]. right. reflexivity. }
    subst r. split; [exact E|]. split; [exact E'|]. reflexivity.
Defined.

Lemma fold_left_max_extremum {A : Type} (f : A -> Real) (l : list A) : forall s,
  is_maximum (fold_left (fun t v => ReduceMax t (f v)) l s) (s :: List.map f l).
Proof.
  induction l as [|x l IH]; intros s; simpl.
  - split; [intros y [<-|[]]; apply Qle_refl | now left].
  - destruct (IH (ReduceMax s (f x))) as [Hub Hin].
    destruct (Real_max_spec s (f x)) as (M1 & M2 & M3). fold (ReduceMax s (f x)) in M1, M2, M3.
    split.
    + intros y [<-|[<-|Hy]].
      * eapply Qle_trans; [exact M1 | apply Hub; now left].
      * eapply Qle_trans; [exact M2 | apply Hub; now left].
      * apply Hub. now right.
    + destruct Hin as [Hin|Hin]; [|now right; right].
      destruct M3 as [E|E]; [left | right; left]; congruence.
Qed.

(** X11: The upper front in the x direction is the greatest of 0 and the x
    coordinates of the real particles: it is an x coordinate of a real
    particle or the reference value 0, no x coordinate of a real particle
    exceeds it, and it is never negative, also for a body that lies entirely
    at negative x. *)
Theorem UpperFrontInXDirection_exec_spec (ps : BaseParticles)
    (Hn : (total_real_particles_ ps <= length (pos_n_ ps))%nat) :
  exists r,
    UpperFrontInXDirection.exec ps = Some r
    /\ is_maximum r (0 :: real_coordinates ps AxisX)
    /\ 0 <= r
    /\ ((forall x, In x (real_coordinates ps AxisX) -> x <= 0) -> r == 0).
Proof.
  unfold UpperFrontInXDirection.exec, ParticleDynamicsReduce.exec,
    UpperFrontInXDirection.ReduceFunction.
  rewrite (reduce_scalar_range ReduceMax vx (pos_n_ ps) (total_real_particles_ ps) 0%nat)
    by (simpl; lia).
  cbn [drop].
  pose proof (fold_left_max_extremum vx (take (total_real_particles_ ps) (pos_n_ ps))
                UpperFrontInXDirection.initial_reference_) as Hmax.
  set (r := fold_left _ _ _) in *.
  assert (Hmax' : is_maximum r (0 :: real_coordinates ps AxisX)) by exact Hmax.
  exists r. split; [reflexivity|]. split; [exact Hmax'|].
  destruct Hmax' as [Hub Hin]. split; [apply Hub; now left|].
  intros Hneg. destruct Hin as [Hin|Hin]; [now rewrite <- Hin|].
  pose proof (Hneg r Hin) as H1. pose proof (Hub 0 (or_introl eq_refl)) as H2. lra.
Qed.

Lemma UpperFrontInXDirection_exec_spec_witness :
  UpperFrontInXDirection.exec Example.particles = Some (15 # 4)
  /\ UpperFrontInXDirection.exec
       (mkBaseParticles 1 0 [mkVecd (- (1)) 2] [mkVecd 0 0] [mkVecd 0 0] [0%nat])
     = Some 0.
Proof.
  destruct (UpperFrontInXDirection_exec_spec Example.particles) as (r & E & _).
  - simpl; lia.
  - assert (E' : UpperFrontInXDirection.exec Example.particles = Some r) by exact E.
    vm_compute in E'. injection E' as <-. split; [exact E | reflexivity].
Defined.

(** ** Random displacement of a particle *)

Lemma displacement_bounded (RAND_MAX : Z) (particle_spacing_ dt : Real) (r : Z) :
  (0 < RAND_MAX)%Z -> 0 <= particle_spacing_ -> (0 <= r <= RAND_MAX)%Z ->
  Qabs (RandomizePartilePosition.displacement RAND_MAX particle_spacing_ dt r)
  <= Qabs dt * particle_spacing_.
Proof.
  intros HR Hs Hr. unfold RandomizePartilePosition.displacement.
  set (u := inject_Z r / inject_Z RAND_MAX).
  assert (HRq : 0 < inject_Z RAND_MAX) by (change 0 with (inject_Z 0); rewrite <- Zlt_Qlt; lia).
  assert (Hu0 : 0 <= u).
  { subst u. apply Qle_shift_div_l; [exact HRq|]. rewrite Qmult_0_l.
    change 0 with (inject_Z 0). rewrite <- Zle_Qle. lia. }
  assert (Hu1 : u <= 1).
  { subst u. apply Qle_shift_div_r; [exact HRq|]. rewrite Qmult_1_l.
    rewrite <- Zle_Qle. lia. }
  clearbody u. apply Qabs_Qle_condition.
  destruct (Qlt_le_dec dt 0) as [Hdt|Hdt].
  - rewrite (Qabs_neg dt) by lra.
    assert (Hw : 0 <= - dt * particle_spacing_) by (apply Qmult_le_0_compat; lra).
    assert (H1 : 0 <= - dt * particle_spacing_ * u) by (apply Qmult_le_0_compat; lra).
    assert (H2 : 0 <= - dt * particle_spacing_ * (1 - u)) by (apply Qmult_le_0_compat; lra).
    split; lra.
  - rewrite (Qabs_pos dt) by lra.
    assert (Hw : 0 <= dt * particle_spacing_) by (apply Qmult_le_0_compat; lra).
    assert (H1 : 0 <= dt * particle_spacing_ * u) by (apply Qmult_le_0_compat; lra).
    assert (H2 : 0 <= dt * particle_spacing_ * (1 - u)) by (apply Qmult_le_0_compat; lra).
    split; lra.
Qed.

(** X12: The random displacement moves each coordinate of the particle by at most
    [|dt| * particle_spacing_], for values of [rand()] between 0 and
    [RAND_MAX]; the extreme values [RAND_MAX] and 0 move it by exactly
    [dt * particle_spacing_] forwards and backwards; no other particle is
    touched. *)
Theorem RandomizePartilePosition_Update_bounded (RAND_MAX : Z) (particle_spacing_ : Real)
    (r0 r1 : Z) (index_i : nat) (dt : Real) (pos : list Vecd) (p : Vecd)
    (HR : (0 < RAND_MAX)%Z) (Hs : 0 <= particle_spacing_)
    (Hr0 : (0 <= r0 <= RAND_MAX)%Z) (Hr1 : (0 <= r1 <= RAND_MAX)%Z)
    (Hp : pos !! index_i = Some p) :
  exists p',
    RandomizePartilePosition.Update RAND_MAX particle_spacing_ r0 r1 index_i dt pos
    = Some (<[index_i := p']> pos)
    /\ Qabs (vx p' - vx p) <= Qabs dt * particle_spacing_
    /\ Qabs (vy p' - vy p) <= Qabs dt * particle_spacing_
    /\ (r0 = RAND_MAX -> vx p' - vx p == dt * particle_spacing_)
    /\ (r0 = 0%Z -> vx p' - vx p == - (dt * particle_spacing_)).
Proof.
  unfold RandomizePartilePosition.Update. rewrite Hp. cbn [mbind option_bind].
  eexists. split; [reflexivity|]. cbn [vx vy].
  assert (E : forall a d : Q, a + d - a == d) by (intros; ring).
  rewrite !E.
  split; [now apply displacement_bounded|]. split; [now apply displacement_bounded|].
  assert (HRq : ~ inject_Z RAND_MAX == 0).
  { intros H. unfold Qeq in H. cbn [Qnum Qden inject_Z] in H. lia. }
  unfold RandomizePartilePosition.displacement. split.
  - intros ->. field. exact HRq.
  - intros ->. field. exact HRq.
Qed.

Lemma RandomizePartilePosition_Update_bounded_witness :
  exists p',
    RandomizePartilePosition.Update 32767 (1 # 2) 32767 0 1 1 Example.positions
    = Some (<[1%nat := p']> Example.positions)
    /\ vx p' - 1 == 1 # 2.
Proof.
  destruct (RandomizePartilePosition_Update_bounded 32767 (1 # 2) 32767 0 1 1
              Example.positions (mkVecd 1 (5 # 2)))
    as (p' & E & _ & _ & Hmax & _).
  - lia.
  - unfold Qle; simpl; lia.
  - lia.
  - lia.
  - reflexivity.
  - exists p'. split; [exact E|]. rewrite (Hmax eq_refl). reflexivity.
Defined.

(** ** The cells of the body domain bounds *)

Lemma floor_cell (s r : Q) :
  0 < s ->
  inject_Z (Qfloor (r / s)) * s <= r /\ r < (inject_Z (Qfloor (r / s)) + 1) * s.
Proof.
  intros Hs.
  assert (E : r == r / s * s) by (field; lra).
  pose proof (Qfloor_le (r / s)) as H1. pose proof (Qlt_floor (r / s)) as H2.
  rewrite inject_Z_plus in H2. change (inject_Z 1) with 1 in H2.
  set (q := r / s) in *. set (c := inject_Z (Qfloor q)) in *. clearbody q c.
  split; nra.
Qed.

(** X13: For a positive cell spacing and a body domain that lies, bounds in
    order, at or above the lower bound of the mesh and fewer than 2^64 cells
    away from it, the cell bounds are defined; each cell brackets its corner
    ([cell * spacing <= corner - mesh_lower_bound < (cell + 1) * spacing]),
    and the lower cell is not above the upper cell in either direction. *)
Theorem SetCellBounds_brackets (body_lower_bound_ body_upper_bound_ mesh_lower_bound_ : Vecd)
    (cell_spacing_ : Real)
    (Hs : 0 < cell_spacing_)
    (Hlow : forall k, vget mesh_lower_bound_ k <= vget body_lower_bound_ k)
    (Hord : forall k, vget body_lower_bound_ k <= vget body_upper_bound_ k)
    (Hfit : forall k, vget body_upper_bound_ k - vget mesh_lower_bound_ k
                      < 18446744073709551616 * cell_spacing_) :
  exists lower upper,
    BoundingBodyDomain.SetCellBounds body_lower_bound_ body_upper_bound_ mesh_lower_bound_
      cell_spacing_ = Some (lower, upper)
    /\ (0 <= fst lower <= fst upper)%Z /\ (0 <= snd lower <= snd upper)%Z
    /\ (fst upper < 18446744073709551616)%Z /\ (snd upper < 18446744073709551616)%Z
    /\ inject_Z (fst lower) * cell_spacing_
       <= vx body_lower_bound_ - vx mesh_lower_bound_
       < (inject_Z (fst lower) + 1) * cell_spacing_
    /\ inject_Z (snd lower) * cell_spacing_
       <= vy body_lower_bound_ - vy mesh_lower_bound_
       < (inject_Z (snd lower) + 1) * cell_spacing_
    /\ inject_Z (fst upper) * cell_spacing_
       <= vx body_upper_bound_ - vx mesh_lower_bound_
       < (inject_Z (fst upper) + 1) * cell_spacing_
    /\ inject_Z (snd upper) * cell_spacing_
       <= vy body_upper_bound_ - vy mesh_lower_bound_
       < (inject_Z (snd upper) + 1) * cell_spacing_.
Proof.
  assert (Hcell : forall r, 0 <= r -> r < 18446744073709551616 * cell_spacing_ ->
            to_size_t (Qfloor (r / cell_spacing_)) = Some (Qfloor (r / cell_spacing_))
            /\ (0 <= Qfloor (r / cell_spacing_) < 18446744073709551616)%Z).
  { intros r Hr0 Hr1.
    assert (H0 : (0 <= Qfloor (r / cell_spacing_))%Z).
    { change 0%Z with (Qfloor 0). apply Qfloor_resp_le.
      apply Qle_shift_div_l; [exact Hs | lra]. }
    assert (H1 : (Qfloor (r / cell_spacing_) < 18446744073709551616)%Z).
    { rewrite Zlt_Qlt. eapply Qle_lt_trans; [apply Qfloor_le|].
      apply Qlt_shift_div_r; [exact Hs|]. exact Hr1. }
    split; [|lia]. unfold to_size_t.
    destruct (Z.leb_spec 0 (Qfloor (r / cell_spacing_))); [|lia].
    destruct (Z.ltb_spec (Qfloor (r / cell_spacing_)) 18446744073709551616); [|lia].
    reflexivity. }
  pose proof (Hlow AxisX) as Lx. pose proof (Hlow AxisY) as Ly.
  pose proof (Hord AxisX) as Ox. pose proof (Hord AxisY) as Oy.
  pose proof (Hfit AxisX) as Fx. pose proof (Hfit AxisY) as Fy.
  cbn [vget] in Lx, Ly, Ox, Oy, Fx, Fy.
  unfold BoundingBodyDomain.SetCellBounds.
  destruct (Qeq_bool cell_spacing_ 0) eqn:Hz; [apply Qeq_bool_eq in Hz; lra|].
  cbv zeta. unfold Vecd_sub. cbn [vx vy].
  destruct (Hcell (vx body_lower_bound_ - vx mesh_lower_bound_)) as [E1 R1]; [lra | lra |].
  destruct (Hcell (vy body_lower_bound_ - vy mesh_lower_bound_)) as [E2 R2]; [lra | lra |].
  destruct (Hcell (vx body_upper_bound_ - vx mesh_lower_bound_)) as [E3 R3]; [lra | lra |].
  destruct (Hcell (vy body_upper_bound_ - vy mesh_lower_bound_)) as [E4 R4]; [lra | lra |].
  rewrite E1, E2, E3, E4. cbn [mbind option_bind].
  eexists _, _. split; [reflexivity|]. cbn [fst snd].
  assert (Mx : (Qfloor ((vx body_lower_bound_ - vx mesh_lower_bound_) / cell_spacing_)
                <= Qfloor ((vx body_upper_bound_ - vx mesh_lower_bound_) / cell_spacing_))%Z).
  { apply Qfloor_resp_le. apply Qmult_le_compat_r; [lra|].
    apply Qlt_le_weak, Qinv_lt_0_compat, Hs. }
  assert (My : (Qfloor ((vy body_lower_bound_ - vy mesh_lower_bound_) / cell_spacing_)
                <= Qfloor ((vy body_upper_bound_ - vy mesh_lower_bound_) / cell_spacing_))%Z).
  { apply Qfloor_resp_le. apply Qmult_le_compat_r; [lra|].
    apply Qlt_le_weak, Qinv_lt_0_compat, Hs. }
  split; [lia|]. split; [lia|]. split; [lia|]. split; [lia|].
  split; [apply floor_cell, Hs|]. split; [apply floor_cell, Hs|].
  split; apply floor_cell, Hs.
Qed.

Lemma SetCellBounds_brackets_witness :
  BoundingBodyDomain.SetCellBounds (mkVecd (1 # 2) 1) (mkVecd (7 # 2) 4) (mkVecd 0 0) 1
  = Some ((0, 1), (3, 4))%Z.
Proof.
  destruct (SetCellBounds_brackets (mkVecd (1 # 2) 1) (mkVecd (7 # 2) 4) (mkVecd 0 0) 1)
    as (lower & upper & E & _).
  - reflexivity.
  - intros [|]; unfold Qle; simpl; lia.
  - intros [|]; unfold Qle; simpl; lia.
  - intros [|]; reflexivity.
  - assert (E' : BoundingBodyDomain.SetCellBounds (mkVecd (1 # 2) 1) (mkVecd (7 # 2) 4)
                   (mkVecd 0 0) 1 = Some (lower, upper)) by exact E.
    vm_compute in E'. injection E' as <- <-. exact E.
Defined.

(** ** The relation builder *)

Lemma neighbors_of_result (acc rest : list NeighborRelation) (nb : Neighborhood) :
  current_size_ nb = length acc ->
  neighbor_list_ nb = acc ++ rest ->
  SPHBodyContactRelation.neighbors nb = acc.
Proof.
  intros Hs Hl. unfold SPHBodyContactRelation.neighbors. rewrite Hs, Hl.
  now rewrite take_app_length.
Qed.

(** X14: The build of one neighbourhood on a well-shaped grid returns; the valid
    neighbours are the relations of the candidates of the window that lie
    within the cut-off radius, in the order of the visit, each with the
    index of its candidate, the displacement from it and the kernel values
    at that displacement; the count does not exceed the capacity; and a
    second build at the same position on the same grid returns the
    neighbourhood unchanged. *)
Theorem updateConfigurationForParticle_idempotent (target : BaseMeshCellLinkedList)
    (search_range : Z) (current_kernel : Kernel) (index_i : nat)
    (particle_position : Vecd) (neighborhood : Neighborhood)
    (Hshape : mesh_shape target)
    (Hfit0 : (fst (number_of_cells_ target) <= INT_MAX)%Z)
    (Hfit1 : (snd (number_of_cells_ target) <= INT_MAX)%Z)
    (Hwf : neighborhood_wf neighborhood) :
  exists cands neighborhood',
    window_candidates target search_range particle_position = Some cands
    /\ SPHBodyContactRelation.updateConfigurationForParticle target search_range
         current_kernel index_i particle_position neighborhood = Some neighborhood'
    /\ SPHBodyContactRelation.neighbors neighborhood'
       = accepted_relations current_kernel index_i particle_position cands
    /\ (forall r, In r (SPHBodyContactRelation.neighbors neighborhood') ->
          exists c, In c cands
                    /\ j_ r = fst c
                    /\ r_ij_ r = Vecd_sub particle_position (snd c)
                    /\ W_ij_ r = W current_kernel (r_ij_ r)
                    /\ dW_ij_ r = dW current_kernel (r_ij_ r)
                    /\ normSqr (r_ij_ r)
                       <= GetCutOffRadius current_kernel * GetCutOffRadius current_kernel)
    /\ (current_size_ neighborhood' <= memory_size_ neighborhood')%nat
    /\ SPHBodyContactRelation.updateConfigurationForParticle target search_range
         current_kernel index_i particle_position neighborhood' = Some neighborhood'.
Proof.
  destruct (window_candidates_is_Some target search_range particle_position
              Hshape Hfit0 Hfit1) as [cands Hc].
  destruct (updateConfigurationForParticle_result target search_range current_kernel
              index_i particle_position neighborhood cands Hwf Hc)
    as (nb' & E & Hs & Hm & Hl & Hwf').
  exists cands, nb'. split; [exact Hc|]. split; [exact E|].
  set (acc := accepted_relations current_kernel index_i particle_position cands) in *.
  assert (Hnb : SPHBodyContactRelation.neighbors nb' = acc)
    by (eapply neighbors_of_result; eassumption).
  split; [exact Hnb|]. split; [|split; [lia|]].
  - intros r Hr. rewrite Hnb in Hr. unfold acc, accepted_relations in Hr.
    apply in_map_iff in Hr. destruct Hr as (c & <- & Hin).
    apply filter_In in Hin. destruct Hin as [Hin Hcut].
    exists c. cbn [neighbor_relation j_ r_ij_ W_ij_ dW_ij_].
    repeat split; try reflexivity; try assumption.
    unfold within_cutoff in Hcut. now apply Qle_bool_iff in Hcut.
  - destruct (updateConfigurationForParticle_result target search_range current_kernel
                index_i particle_position nb' cands Hwf' Hc)
      as (nb'' & E' & Hs' & Hm' & Hl' & _).
    rewrite E'. f_equal. fold acc in Hs', Hm', Hl'.
    destruct nb' as [s m l], nb'' as [s' m' l'].
    cbn [current_size_ memory_size_ neighbor_list_] in *.
    subst s s' m m' l'. f_equal; [lia|].
    rewrite Hl at 1. f_equal. now rewrite drop_app_length.
Qed.

Lemma updateConfigurationForParticle_idempotent_witness :
  exists neighborhood',
    SPHBodyContactRelation.updateConfigurationForParticle Example.mesh 1 Example.kernel
      0 (mkVecd (1 # 4) 2) Example.neighborhood = Some neighborhood'
    /\ SPHBodyContactRelation.updateConfigurationForParticle Example.mesh 1 Example.kernel
         0 (mkVecd (1 # 4) 2) neighborhood' = Some neighborhood'
    /\ List.map j_ (SPHBodyContactRelation.neighbors neighborhood') = [0%nat; 1%nat].
Proof.
  destruct (updateConfigurationForParticle_idempotent Example.mesh 1 Example.kernel 0
              (mkVecd (1 # 4) 2) Example.neighborhood Example_mesh_shape)
    as (cands & nb' & _ & E & _ & _ & _ & Hidem).
  - vm_compute; discriminate.
  - vm_compute; discriminate.
  - reflexivity.
  - exists nb'. split; [exact E|]. split; [exact Hidem|].
    assert (E' : SPHBodyContactRelation.updateConfigurationForParticle Example.mesh 1
                   Example.kernel 0 (mkVecd (1 # 4) 2) Example.neighborhood = Some nb')
      by exact E.
    vm_compute in E'. injection E' as <-. reflexivity.
Defined.

Section Loops.
Variable pos_n : list Vecd.
Variable get_particle_index : nat -> nat.

Let particle_step (k : nat) (body : SPHBodyContactRelation.ContactBody) :=
  fun (cfg : list (list Neighborhood)) (num : nat) =>
    let index_i := get_particle_index num in
    particle_position ← pos_n !! index_i;
    row ← cfg !! k;
    neighborhood ← row !! index_i;
    neighborhood' ←
      SPHBodyContactRelation.updateConfigurationForParticle
        (SPHBodyContactRelation.target_mesh_cell_linked_list body)
        (SPHBodyContactRelation.search_range_ body)
        (SPHBodyContactRelation.current_kernel_ body)
        index_i particle_position neighborhood;
    Some (<[k := <[index_i := neighborhood']> row]> cfg).

Let grid_ok (body : SPHBodyContactRelation.ContactBody) : Prop :=
  mesh_shape (SPHBodyContactRelation.target_mesh_cell_linked_list body)
  /\ (fst (number_of_cells_ (SPHBodyContactRelation.target_mesh_cell_linked_list body))
      <= INT_MAX)%Z
  /\ (snd (number_of_cells_ (SPHBodyContactRelation.target_mesh_cell_linked_list body))
      <= INT_MAX)%Z.

Let ready (cfg : list (list Neighborhood)) (k : nat) (nums : list nat) : Prop :=
  forall num, In num nums ->
    exists nb, SPHBodyContactRelation.configuration_at cfg k (get_particle_index num) = Some nb
               /\ neighborhood_wf nb.

(** The loop over [num] returns when every visited particle has a position
    and a well-formed neighbourhood to write to. *)
Lemma particle_loop_returns (body : SPHBodyContactRelation.ContactBody) (k : nat)
    (nums : list nat) :
  grid_ok body ->
  List.NoDup (List.map get_particle_index nums) ->
  (forall num, In num nums -> is_Some (pos_n !! get_particle_index num)) ->
  forall cfg, ready cfg k nums ->
    exists cfg', foldM (particle_step k body) nums cfg = Some cfg'.
Proof.
  intros (Hshape & Hfit0 & Hfit1) Hnd Hpos.
  induction nums as [|num nums IH]; intros cfg Hready; cbn [foldM].
  - now exists cfg.
  - cbn [List.map] in Hnd. inversion Hnd as [|? ? Hnotin Hnd']; subst.
    destruct (Hpos num (or_introl eq_refl)) as [p Hp].
    destruct (Hready num (or_introl eq_refl)) as (nb & Hat & Hwf).
    unfold SPHBodyContactRelation.configuration_at in Hat.
    destruct (cfg !! k) as [row|] eqn:Hrow; [|discriminate].
    cbn [mbind option_bind] in Hat.
    destruct (window_candidates_is_Some
                (SPHBodyContactRelation.target_mesh_cell_linked_list body)
                (SPHBodyContactRelation.search_range_ body) p Hshape Hfit0 Hfit1)
      as [cands Hc].
    destruct (updateConfigurationForParticle_result
                (SPHBodyContactRelation.target_mesh_cell_linked_list body)
                (SPHBodyContactRelation.search_range_ body)
                (SPHBodyContactRelation.current_kernel_ body)
                (get_particle_index num) p nb cands Hwf Hc) as (nb' & E & _).
    unfold particle_step at 1. cbv zeta. rewrite Hp. cbn [mbind option_bind].
    rewrite Hrow. cbn [mbind option_bind]. rewrite Hat. cbn [mbind option_bind].
    rewrite E. cbn [mbind option_bind].
    apply IH; [exact Hnd' | intros n Hn; apply Hpos; now right |].
    intros num' Hin.
    destruct (Hready num' (or_intror Hin)) as (nb1 & Hat1 & Hwf1).
    exists nb1. split; [|exact Hwf1]. rewrite <- Hat1.
    eapply configuration_at_kept; [exact Hrow|]. right.
    intros Heq. apply Hnotin. rewrite <- Heq. now apply in_map.
Qed.

(** The loop over the contact bodies returns, and writes only to the
    neighbourhoods of the visited particles for the visited bodies. *)
Lemma body_loop_returns (number_of_particles : nat)
    (kbs : list (nat * SPHBodyContactRelation.ContactBody)) :
  List.NoDup (List.map get_particle_index (seq 0 number_of_particles)) ->
  (forall num, (num < number_of_particles)%nat ->
               is_Some (pos_n !! get_particle_index num)) ->
  List.NoDup (List.map fst kbs) ->
  (forall k body, In (k, body) kbs -> grid_ok body) ->
  forall cfg,
    (forall k body, In (k, body) kbs -> ready cfg k (seq 0 number_of_particles)) ->
    exists cfg',
      foldM (fun cfg rb => let '(relation_body_num, body) := rb in
                           foldM (particle_step relation_body_num body)
                                 (seq 0 number_of_particles) cfg)
            kbs cfg = Some cfg'
      /\ forall k' i',
           (~ In k' (List.map fst kbs)
            \/ ~ In i' (List.map get_particle_index (seq 0 number_of_particles))) ->
           SPHBodyContactRelation.configuration_at cfg' k' i'
           = SPHBodyContactRelation.configuration_at cfg k' i'.
Proof.
  intros Hinj Hpos.
  induction kbs as [|[k body] kbs IH]; intros Hnd Hgrid cfg Hready; cbn [foldM].
  - exists cfg. split; reflexivity.
  - cbn [List.map fst] in Hnd. inversion Hnd as [|? ? Hnotin Hnd']; subst.
    destruct (particle_loop_returns body k (seq 0 number_of_particles)
                (Hgrid k body (or_introl eq_refl)) Hinj) with (cfg := cfg)
      as [cfg1 E1].
    { intros num Hnum. apply Hpos. apply in_seq in Hnum. lia. }
    { apply (Hready k body). now left. }
    rewrite E1.
    destruct (particle_loop pos_n body k get_particle_index _ cfg cfg1 Hinj E1)
      as [_ P2].
    destruct (IH Hnd' (fun k0 b0 H => Hgrid k0 b0 (or_intror H)) cfg1) as (cfg' & E & F).
    { intros k0 b0 Hin num Hnum.
      destruct (Hready k0 b0 (or_intror Hin) num Hnum) as (nb & Hat & Hwf).
      exists nb. split; [|exact Hwf]. rewrite <- Hat. apply P2. left.
      intros ->. apply Hnotin. change k with (fst (k, b0)). now apply in_map. }
    exists cfg'. split; [exact E|].
    intros k' i' Hne. cbn [List.map fst In] in Hne. rewrite F by tauto.
    apply P2. destruct Hne as [Hne|Hne]; [left; intros ->; tauto | now right].
Qed.

End Loops.

Lemma In_combine_seq_inv {A : Type} (l : list A) : forall (a k : nat) (x : A),
  In (k, x) (combine (seq a (length l)) l) -> (a <= k)%nat /\ l !! (k - a)%nat = Some x.
Proof.
  induction l as [|y l IH]; intros a k x H; simpl in H; [destruct H|].
  destruct H as [H|H].
  - inversion H; subst. split; [lia|]. now rewrite Nat.sub_diag.
  - destruct (IH (S a) k x H) as [Hle Hl]. split; [lia|].
    replace (k - a)%nat with (S (k - S a)) by lia. exact Hl.
Qed.

(** X15: The whole of [updateConfigurationForParticles] returns when the particle
    indices of the loop are pairwise distinct, every visited particle has a
    position, every contact body has a well-shaped grid that fits [int], and
    every neighbourhood to be written is well formed.  Afterwards the valid
    neighbours of each visited particle for each contact body are the
    candidates of its window within the cut-off radius, its capacity has not
    decreased, and the neighbourhoods of every other body index and of every
    particle that was not visited are unchanged. *)
Theorem updateConfigurationForParticles_returns (pos_n : list Vecd)
    (contact_sph_bodies_ : list SPHBodyContactRelation.ContactBody)
    (number_of_particles : nat) (get_particle_index : nat -> nat)
    (cfg : list (list Neighborhood))
    (Hinj : List.NoDup (List.map get_particle_index (seq 0 number_of_particles)))
    (Hpos : forall num, (num < number_of_particles)%nat ->
                        is_Some (pos_n !! get_particle_index num))
    (Hgrid : forall k body, contact_sph_bodies_ !! k = Some body ->
               mesh_shape (SPHBodyContactRelation.target_mesh_cell_linked_list body)
               /\ (fst (number_of_cells_
                          (SPHBodyContactRelation.target_mesh_cell_linked_list body))
                   <= INT_MAX)%Z
               /\ (snd (number_of_cells_
                          (SPHBodyContactRelation.target_mesh_cell_linked_list body))
                   <= INT_MAX)%Z)
    (Hcfg : forall k num, (k < length contact_sph_bodies_)%nat ->
              (num < number_of_particles)%nat ->
              exists nb,
                SPHBodyContactRelation.configuration_at cfg k (get_particle_index num)
                = Some nb
                /\ neighborhood_wf nb) :
  exists cfg',
    SPHBodyContactRelation.updateConfigurationForParticles pos_n contact_sph_bodies_
      number_of_particles get_particle_index cfg = Some cfg'
    /\ (forall k body num p nb,
          contact_sph_bodies_ !! k = Some body ->
          (num < number_of_particles)%nat ->
          pos_n !! get_particle_index num = Some p ->
          SPHBodyContactRelation.configuration_at cfg k (get_particle_index num) = Some nb ->
          exists cands nb',
            window_candidates (SPHBodyContactRelation.target_mesh_cell_linked_list body)
              (SPHBodyContactRelation.search_range_ body) p = Some cands
            /\ SPHBodyContactRelation.configuration_at cfg' k (get_particle_index num)
               = Some nb'
            /\ SPHBodyContactRelation.neighbors nb'
               = accepted_relations (SPHBodyContactRelation.current_kernel_ body)
                   (get_particle_index num) p cands
            /\ (memory_size_ nb <= memory_size_ nb')%nat
            /\ neighborhood_wf nb')
    /\ (forall k i,
          ((length contact_sph_bodies_ <= k)%nat
           \/ ~ In i (List.map get_particle_index (seq 0 number_of_particles))) ->
          SPHBodyContactRelation.configuration_at cfg' k i
          = SPHBodyContactRelation.configuration_at cfg k i).
Proof.
  set (kbs := combine (seq 0 (length contact_sph_bodies_)) contact_sph_bodies_).
  assert (Hkeys : List.map fst kbs = seq 0 (length contact_sph_bodies_))
    by apply map_fst_combine_seq.
  assert (Hin : forall k body, In (k, body) kbs ->
            contact_sph_bodies_ !! k = Some body /\ (k < length contact_sph_bodies_)%nat).
  { intros k body H. subst kbs.
    assert (Hk : In k (seq 0 (length contact_sph_bodies_))) by (eapply in_combine_l; exact H).
    apply in_seq in Hk. split; [|lia].
    destruct (In_combine_seq_inv contact_sph_bodies_ 0%nat k body H) as [_ Hl].
    now rewrite Nat.sub_0_r in Hl. }
  destruct (body_loop_returns pos_n get_particle_index number_of_particles kbs Hinj Hpos)
    with (cfg := cfg) as (cfg' & E & F).
  { rewrite Hkeys. apply seq_NoDup. }
  { intros k body H. destruct (Hin k body H) as [Hk _]. exact (Hgrid k body Hk). }
  { intros k body H num Hnum. destruct (Hin k body H) as [_ Hk].
    apply Hcfg; [exact Hk | apply in_seq in Hnum; lia]. }
  exists cfg'. split; [exact E|]. split.
  - intros k body num p nb Hk Hnum Hp Hat.
    destruct (updateConfigurationForParticles_per_particle pos_n contact_sph_bodies_
                number_of_particles get_particle_index cfg cfg' Hinj E k body num Hk Hnum)
      as (p' & nb0 & nb' & Hp' & Hat' & Hup & Hres).
    assert (p' = p) by congruence. assert (nb0 = nb) by congruence. subst p' nb0.
    destruct (Hcfg k num) as (nb1 & Hat1 & Hwf);
      [now apply lookup_lt_Some in Hk | exact Hnum |].
    assert (nb1 = nb) by congruence. subst nb1.
    destruct (Hgrid k body Hk) as (Hshape & Hfit0 & Hfit1).
    destruct (window_candidates_is_Some
                (SPHBodyContactRelation.target_mesh_cell_linked_list body)
                (SPHBodyContactRelation.search_range_ body) p Hshape Hfit0 Hfit1)
      as [cands Hc].
    destruct (updateConfigurationForParticle_result
                (SPHBodyContactRelation.target_mesh_cell_linked_list body)
                (SPHBodyContactRelation.search_range_ body)
                (SPHBodyContactRelation.current_kernel_ body)
                (get_particle_index num) p nb cands Hwf Hc)
      as (nb2 & E2 & Hs & Hm & Hl & Hwf2).
    assert (nb2 = nb') by congruence. subst nb2.
    exists cands, nb'. split; [exact Hc|]. split; [exact Hres|].
    split; [eapply neighbors_of_result; eassumption|]. split; [lia | exact Hwf2].
  - intros k i Hne. apply F. rewrite Hkeys.
    destruct Hne as [Hne|Hne]; [left | now right].
    intros H. apply in_seq in H. lia.
Qed.

Lemma updateConfigurationForParticles_returns_witness :
  exists cfg' nb',
    SPHBodyContactRelation.updateConfigurationForParticles Example.positions
      [SPHBodyContactRelation.mkContactBody Example.mesh 1 Example.kernel] 3 (fun num => num)
      [[Example.neighborhood; Example.neighborhood; Example.neighborhood]] = Some cfg'
    /\ SPHBodyContactRelation.configuration_at cfg' 0 2 = Some nb'
    /\ (memory_size_ Example.neighborhood <= memory_size_ nb')%nat.
Proof.
  destruct (updateConfigurationForParticles_returns Example.positions
              [SPHBodyContactRelation.mkContactBody Example.mesh 1 Example.kernel] 3
              (fun num => num)
              [[Example.neighborhood; Example.neighborhood; Example.neighborhood]])
    as (cfg' & E & Hres & _).
  - repeat constructor; simpl; intuition discriminate.
  - intros [|[|[|num]]] Hnum; try (eexists; reflexivity). lia.
  - intros [|k] body H; [|destruct k; discriminate]. injection H as <-.
    split; [exact Example_mesh_shape|]. split; vm_compute; discriminate.
  - intros [|k] num Hk Hnum; [|simpl in Hk; lia].
    destruct num as [|[|[|num]]]; try (eexists; split; reflexivity). lia.
  - destruct (Hres 0%nat (SPHBodyContactRelation.mkContactBody Example.mesh 1 Example.kernel)
                2%nat (mkVecd (15 # 4) 2) Example.neighborhood)
      as (cands & nb' & _ & Hat & _ & Hm & _);
      [reflexivity | lia | reflexivity | reflexivity |].
    exists cfg', nb'. auto.
Defined.

(** ** The bounds of a body *)

(** X16: For a body with at least one real particle whose coordinates are below
    the largest double, the two bound reductions return; in each direction
    the lower bound is the least coordinate of the real particles, no
    coordinate exceeds the upper bound, the lower bound is not above the
    upper bound, and the upper bound is the greatest coordinate as soon as
    one coordinate exceeds the reference value 2^-1022. *)
Theorem body_bounds_enclose (ps : BaseParticles) (k : Axis)
    (Hwf : particles_wf ps)
    (Hne : real_coordinates ps k <> [])
    (Hlt : forall x, In x (real_coordinates ps k) -> x < max_real_number) :
  exists lower upper,
    BodyLowerBound.exec ps = Some lower
    /\ BodyUpperBound.exec ps = Some upper
    /\ is_minimum (vget lower k) (real_coordinates ps k)
    /\ (forall x, In x (real_coordinates ps k) -> x <= vget upper k)
    /\ vget lower k <= vget upper k
    /\ ((exists x, In x (real_coordinates ps k) /\ min_real_number < x) ->
        is_maximum (vget upper k) (real_coordinates ps k)).
Proof.
  destruct (BodyLowerBound_exec_minimum ps k Hwf Hne Hlt) as (lower & El & Hmin).
  destruct (BodyUpperBound_exec_seeded ps k Hwf) as (upper & Eu & Hub & Hin).
  exists lower, upper. split; [exact El|]. split; [exact Eu|]. split; [exact Hmin|].
  split; [intros x Hx; apply Hub; now right|].
  split.
  - destruct Hmin as [_ Hlow]. apply Hub. now right.
  - intros Hex.
    destruct (BodyUpperBound_exec_maximum ps k Hwf Hex) as (upper' & Eu' & Hmax).
    assert (upper' = upper) by congruence. subst upper'. exact Hmax.
Qed.

Lemma body_bounds_enclose_witness :
  exists lower upper,
    BodyLowerBound.exec Example.particles = Some lower
    /\ BodyUpperBound.exec Example.particles = Some upper
    /\ vget lower AxisX = 1 # 4 /\ vget upper AxisX = 15 # 4.
Proof.
  destruct (body_bounds_enclose Example.particles AxisX Example_particles_wf)
    as (lower & upper & El & Eu & _).
  - discriminate.
  - intros x [<-|[<-|[<-|[]]]]; reflexivity.
  - exists lower, upper. split; [exact El|]. split; [exact Eu|].
    assert (El' : BodyLowerBound.exec Example.particles = Some lower) by exact El.
    assert (Eu' : BodyUpperBound.exec Example.particles = Some upper) by exact Eu.
    vm_compute in El', Eu'. injection El' as <-. injection Eu' as <-.
    split; reflexivity.
Defined.

(** X17: The parallel reduce of either bound over any partition of the real
    particles into blocks returns, in each direction, the value of the
    sequential reduce. *)
Theorem body_bounds_partition_independent (ps : BaseParticles) (sizes : list nat)
    (Hwf : particles_wf ps)
    (Hsum : list_sum sizes = total_real_particles_ ps) :
  exists lower lower' upper upper',
    BodyLowerBound.exec ps = Some lower
    /\ BodyLowerBound.parallel_exec sizes ps = Some lower'
    /\ BodyUpperBound.exec ps = Some upper
    /\ BodyUpperBound.parallel_exec sizes ps = Some upper'
    /\ Vecd_equiv lower' lower
    /\ Vecd_equiv upper' upper.
Proof.
  destruct (BodyLowerBound_partition_independent ps sizes AxisX Hwf Hsum)
    as (l & l' & El & El' & Hlx).
  destruct (BodyLowerBound_partition_independent ps sizes AxisY Hwf Hsum)
    as (l1 & l1' & El1 & El1' & Hly).
  destruct (BodyUpperBound_partition_independent ps sizes AxisX Hwf Hsum)
    as (u & u' & Eu & Eu' & Hux).
  destruct (BodyUpperBound_partition_independent ps sizes AxisY Hwf Hsum)
    as (u1 & u1' & Eu1 & Eu1' & Huy).
  assert (l1 = l) by congruence. assert (l1' = l') by congruence.
  assert (u1 = u) by congruence. assert (u1' = u') by congruence. subst.
  exists l, l', u, u'. repeat (split; [assumption|]).
  split; split; assumption.
Qed.

Lemma body_bounds_partition_independent_witness :
  exists lower upper,
    BodyLowerBound.parallel_exec [1%nat; 2%nat] Example.particles = Some lower
    /\ BodyUpperBound.parallel_exec [1%nat; 2%nat] Example.particles = Some upper
    /\ Vecd_equiv lower (mkVecd (1 # 4) 2) /\ Vecd_equiv upper (mkVecd (15 # 4) (5 # 2)).
Proof.
  destruct (body_bounds_partition_independent Example.particles [1%nat; 2%nat]
              Example_particles_wf eq_refl)
    as (l & l' & u & u' & El & El' & Eu & Eu' & Hl & Hu).
  exists l', u'. split; [exact El'|]. split; [exact Eu'|].
  assert (A : BodyLowerBound.exec Example.particles = Some l) by exact El.
  assert (B : BodyUpperBound.exec Example.particles = Some u) by exact Eu.
  vm_compute in A, B. injection A as <-. injection B as <-.
  split; assumption.
Defined.

(** ** Where the mirror ghosts lie *)

(** X18: After the create pass of a mirror condition every ghost of the list
    lies strictly outside the bound of its side and less than one cell
    spacing away from it, and is entered in the cell linked list, in the cell
    of that position, under the position it holds. *)
Theorem mirror_ghost_outside_and_registered (positive : bool)
    (b : BoundingInAxisDirection) (st : GhostState)
    (Hwf : particles_wf (particles_ st))
    (Hshape : mesh_shape (mesh_cell_linked_list_ st))
    (Hn0 : (0 < fst (number_of_cells_ (mesh_cell_linked_list_ st)))%Z)
    (Hn1 : (0 < snd (number_of_cells_ (mesh_cell_linked_list_ st)))%Z) :
  exists st',
    MirrorBoundaryConditionInAxisDirection.exec positive b st = Some st'
    /\ forall g, In g (ghosts_lower_ st') ->
         exists pg cell,
           pos_n_ (particles_ st') !! g = Some pg
           /\ (if positive
               then vget (body_upper_bound_ b) (axis_ b) < vget pg (axis_ b)
                    /\ vget pg (axis_ b) < vget (body_upper_bound_ b) (axis_ b) + cell_spacing_ b
               else vget (body_lower_bound_ b) (axis_ b) - cell_spacing_ b < vget pg (axis_ b)
                    /\ vget pg (axis_ b) < vget (body_lower_bound_ b) (axis_ b))
           /\ cell_at (cell_linked_lists_ (mesh_cell_linked_list_ st'))
                (fst (GridIndexFromPosition (mesh_cell_linked_list_ st) pg))
                (snd (GridIndexFromPosition (mesh_cell_linked_list_ st) pg)) = Some cell
           /\ In (g, pg) cell.
Proof.
  unfold MirrorBoundaryConditionInAxisDirection.exec.
  set (st0 := {| particles_ := particles_ st;
                 mesh_cell_linked_list_ := mesh_cell_linked_list_ st;
                 ghosts_lower_ := [];
                 ghosts_upper_ := ghosts_upper_ st |}).
  set (n := total_real_particles_ (particles_ st)).
  assert (HnL : (n <= length (pos_n_ (particles_ st0)))%nat)
    by (destruct Hwf as (_ & _ & _ & Ht); exact Ht).
  assert (Hn : forall i, In i (seq 0 n) -> (i < length (pos_n_ (particles_ st0)))%nat).
  { intros i Hi. apply in_seq in Hi. lia. }
  destruct (ghost_pass_closed_form
              (fun i s => MirrorBoundaryConditionInAxisDirection.checking_bound_ positive b i s)
              (mirror_near positive b)
              (mirrored_position (mirror_bound positive b) (axis_ b))
              (mirrored_velocity (axis_ b))
              (mirrored_position (mirror_bound positive b) (axis_ b)) true
              (mirror_checking_bound_spec positive b) (seq 0 n) st0 Hwf Hn)
    as (st' & E & Hap & Hwf').
  exists st'. split; [exact E|].
  set (origins := List.filter _ (seq 0 n)) in Hap.
  assert (Hlist : ghosts_lower_ st' = seq (length (pos_n_ (particles_ st0))) (length origins)).
  { destruct Hap as (_ & _ & _ & _ & _ & _ & L1 & _). exact L1. }
  assert (Hmesh : mesh_cell_linked_list_ st'
                  = fold_left (fun g e => InsertACellLinkedListDataEntry (fst e) (snd e) g)
                      (combine (seq (length (pos_n_ (particles_ st0))) (length origins))
                         (List.map (fun i => mirrored_position (mirror_bound positive b) (axis_ b)
                                               (nth i (pos_n_ (particles_ st0)) Vecd_zero))
                                   origins))
                      (mesh_cell_linked_list_ st)).
  { destruct Hap as (_ & _ & _ & _ & _ & _ & _ & _ & M1). exact M1. }
  intros g Hg. rewrite Hlist in Hg. apply in_seq in Hg.
  set (k := (g - length (pos_n_ (particles_ st0)))%nat).
  assert (Hk : (k < length origins)%nat) by (subst k; lia).
  destruct (lookup_lt_is_Some_2 origins k Hk) as [o Ho].
  assert (Hin : In o origins) by (eapply lookup_In; exact Ho).
  apply filter_In in Hin. destruct Hin as [Hseq Hnear]. apply in_seq in Hseq.
  destruct (particles_wf_lookups (particles_ st0) o Hwf ltac:(lia))
    as (p & v & a & sid & Hp & Hv & Ha & Hs).
  rewrite (nth_lookup_Some _ _ Vecd_zero _ Hp) in Hnear.
  destruct (ghosts_appended_ghost true _ _ _ origins st0 st' k o p v a sid
              Hwf Hap Ho Hp Hv Ha Hs) as (G1 & _ & _ & _ & _ & G6).
  replace (length (pos_n_ (particles_ st0)) + k)%nat with g in G1, G6 by (subst k; lia).
  destruct (registered_after_inserts _ (mesh_cell_linked_list_ st) g
              (mirrored_position (mirror_bound positive b) (axis_ b) p) Hshape Hn0 Hn1 G6)
    as (cell & Hcell & Hincell).
  exists (mirrored_position (mirror_bound positive b) (axis_ b) p), cell.
  split; [exact G1|]. split; [|rewrite Hmesh; split; [exact Hcell | exact Hincell]].
  unfold mirrored_position. rewrite vget_vset_same.
  unfold mirror_near, mirror_bound in *. destruct positive.
  - unfold near_upper_bound in Hnear. apply andb_true_iff in Hnear.
    destruct Hnear as [H1 H2]. apply Qlt_bool_iff in H1, H2. split; lra.
  - unfold near_lower_bound in Hnear. apply andb_true_iff in Hnear.
    destruct Hnear as [H1 H2]. apply Qlt_bool_iff in H1, H2. split; lra.
Qed.

Lemma mirror_ghost_outside_and_registered_witness :
  exists st' pg,
    MirrorBoundaryConditionInAxisDirection.exec false Example.bounding Example.state
    = Some st'
    /\ pos_n_ (particles_ st') !! 3%nat = Some pg
    /\ 0 - 1 < vget pg AxisX /\ vget pg AxisX < 0.
Proof.
  destruct (mirror_ghost_outside_and_registered false Example.bounding Example.state
              Example_particles_wf Example_mesh_shape) as (st' & E & Hg).
  - simpl; lia.
  - simpl; lia.
  - assert (E' : MirrorBoundaryConditionInAxisDirection.exec false Example.bounding
                   Example.state = Some st') by exact E.
    vm_compute in E'. injection E' as <-.
    destruct (Hg 3%nat) as (pg & cell & Hp & Hout & _); [now left|].
    eexists _, pg. split; [exact E|]. split; [exact Hp|]. exact Hout.
Defined.

(** * Properties of the diffusion and reaction functions *)

(** ** The diffusivity matrix *)

(** X19: The matrix that [initializeDirectionalDiffusivity] and
    [setupLocalDiffusionProperties] hand to [inverseCholeskyDecomposition] is
    symmetric, its quadratic form is
    [diff_cf_ * |x|^2 + bias_diff_cf_ * (direction . x)^2], and it is positive
    definite for a positive [diff_cf_] and a non-negative [bias_diff_cf_];
    [initializeDirectionalDiffusivity] builds it from the stored [diff_cf_],
    whatever its argument [diff_cf] is. *)
Theorem diffusivity_positive_definite (diff_cf bias_diff_cf : Real) (direction x : Vecd)
    (Hd : 0 < diff_cf) (Hb : 0 <= bias_diff_cf) :
  m01 (diffusivity diff_cf bias_diff_cf direction)
  == m10 (diffusivity diff_cf bias_diff_cf direction)
  /\ quadratic_form (diffusivity diff_cf bias_diff_cf direction) x
     == diff_cf * dot x x + bias_diff_cf * (dot direction x * dot direction x)
  /\ (~ Vecd_equiv x (Vecd_fill 0) ->
      0 < quadratic_form (diffusivity diff_cf bias_diff_cf direction) x)
  /\ forall inverseCholeskyDecomposition other_diff_cf d,
       DirectionalDiffusion.diff_cf_ d = diff_cf ->
       DirectionalDiffusion.transformed_diffusivity_
         (DirectionalDiffusion.initializeDirectionalDiffusivity inverseCholeskyDecomposition
            other_diff_cf bias_diff_cf direction d)
       = inverseCholeskyDecomposition (diffusivity diff_cf bias_diff_cf direction).
Proof.
  assert (Hq : quadratic_form (diffusivity diff_cf bias_diff_cf direction) x
               == diff_cf * dot x x + bias_diff_cf * (dot direction x * dot direction x)).
  { unfold quadratic_form, diffusivity, Matd_add, Matd_scale, Matd_diag, outer, dot.
    cbn [m00 m01 m10 m11]. ring. }
  split; [|split; [exact Hq|split]].
  - unfold diffusivity, Matd_add, Matd_scale, Matd_diag, outer. cbn [m01 m10]. ring.
  - intros Hx. rewrite Hq. unfold Vecd_equiv, Vecd_fill in Hx. cbn [vx vy] in Hx.
    unfold dot. destruct x as [x0 x1]. cbn [vx vy] in *.
    set (s := vx direction * x0 + vy direction * x1). clearbody s.
    assert (Hs : 0 <= s * s) by nra.
    assert (Hbs : 0 <= bias_diff_cf * (s * s)) by (apply Qmult_le_0_compat; assumption).
    assert (Hpos : 0 < x0 * x0 + x1 * x1).
    { destruct (Qeq_dec x0 0) as [E0|N0].
      - destruct (Qeq_dec x1 0) as [E1|N1]; [exfalso; apply Hx; split; assumption|].
        assert (0 < x1 * x1) by (destruct (Qlt_le_dec x1 0); nra). nra.
      - assert (0 < x0 * x0) by (destruct (Qlt_le_dec x0 0); nra). nra. }
    assert (0 < diff_cf * (x0 * x0 + x1 * x1)) by (apply Qmult_lt_0_compat; assumption).
    lra.
  - intros ic other d <-. reflexivity.
Qed.

Lemma diffusivity_positive_definite_witness :
  quadratic_form (diffusivity 1 2 (mkVecd 1 0)) (mkVecd 1 1) == 1 * 2 + 2 * (1 * 1)
  /\ 0 < quadratic_form (diffusivity 1 2 (mkVecd 1 0)) (mkVecd 1 1).
Proof.
  destruct (diffusivity_positive_definite 1 2 (mkVecd 1 0) (mkVecd 1 1)) as (_ & Hq & Hp & _).
  - reflexivity.
  - unfold Qle; simpl; lia.
  - split; [rewrite Hq; reflexivity|]. apply Hp. intros [H _]. discriminate H.
Defined.

(** ** Local diffusion properties *)

Lemma initializeLocalDiffusionProperties_appends (l : list nat) : forall d,
  let d' := fold_left
              (fun d _ =>
                 {| LocalDirectionalDiffusion.diff_cf_ := LocalDirectionalDiffusion.diff_cf_ d;
                    LocalDirectionalDiffusion.bias_diff_cf_ :=
                      LocalDirectionalDiffusion.bias_diff_cf_ d;
                    LocalDirectionalDiffusion.local_bias_direction_ :=
                      LocalDirectionalDiffusion.local_bias_direction_ d ++ [Vecd_fill 0];
                    LocalDirectionalDiffusion.local_transformed_diffusivity_ :=
                      LocalDirectionalDiffusion.local_transformed_diffusivity_ d
                        ++ [Matd_diag 0] |}) l d in
  LocalDirectionalDiffusion.diff_cf_ d' = LocalDirectionalDiffusion.diff_cf_ d
  /\ LocalDirectionalDiffusion.bias_diff_cf_ d' = LocalDirectionalDiffusion.bias_diff_cf_ d
  /\ LocalDirectionalDiffusion.local_bias_direction_ d'
     = LocalDirectionalDiffusion.local_bias_direction_ d
         ++ replicate (length l) (Vecd_fill 0)
  /\ LocalDirectionalDiffusion.local_transformed_diffusivity_ d'
     = LocalDirectionalDiffusion.local_transformed_diffusivity_ d
         ++ replicate (length l) (Matd_diag 0).
Proof.
  induction l as [|x l IH]; intros d; cbn [fold_left length replicate].
  - now rewrite !app_nil_r.
  - cbv zeta in IH.
    destruct (IH {| LocalDirectionalDiffusion.diff_cf_ := LocalDirectionalDiffusion.diff_cf_ d;
                    LocalDirectionalDiffusion.bias_diff_cf_ :=
                      LocalDirectionalDiffusion.bias_diff_cf_ d;
                    LocalDirectionalDiffusion.local_bias_direction_ :=
                      LocalDirectionalDiffusion.local_bias_direction_ d ++ [Vecd_fill 0];
                    LocalDirectionalDiffusion.local_transformed_diffusivity_ :=
                      LocalDirectionalDiffusion.local_transformed_diffusivity_ d
                        ++ [Matd_diag 0] |}) as (A1 & A2 & A3 & A4).
    cbv zeta. rewrite A1, A2, A3, A4.
    cbn [LocalDirectionalDiffusion.diff_cf_ LocalDirectionalDiffusion.bias_diff_cf_
         LocalDirectionalDiffusion.local_bias_direction_
         LocalDirectionalDiffusion.local_transformed_diffusivity_].
    rewrite <- !app_assoc. auto.
Qed.

Lemma setup_loop (ic : Matd -> Matd) (material_fiber : list Vecd) (k : nat) :
  forall (a : nat) (d : LocalDirectionalDiffusion.State),
    (a + k <= length material_fiber)%nat ->
    length (LocalDirectionalDiffusion.local_bias_direction_ d) = length material_fiber ->
    length (LocalDirectionalDiffusion.local_transformed_diffusivity_ d)
    = length material_fiber ->
    exists d',
      foldM (LocalDirectionalDiffusion.setup_step ic material_fiber) (seq a k) d = Some d'
      /\ LocalDirectionalDiffusion.diff_cf_ d' = LocalDirectionalDiffusion.diff_cf_ d
      /\ LocalDirectionalDiffusion.bias_diff_cf_ d'
         = LocalDirectionalDiffusion.bias_diff_cf_ d
      /\ length (LocalDirectionalDiffusion.local_bias_direction_ d') = length material_fiber
      /\ length (LocalDirectionalDiffusion.local_transformed_diffusivity_ d')
         = length material_fiber
      /\ forall j,
           LocalDirectionalDiffusion.local_bias_direction_ d' !! j
           = (if ((a <=? j) && (j <? a + k))%nat then material_fiber !! j
              else LocalDirectionalDiffusion.local_bias_direction_ d !! j)
           /\ LocalDirectionalDiffusion.local_transformed_diffusivity_ d' !! j
              = (if ((a <=? j) && (j <? a + k))%nat
                 then (fun f => ic (diffusivity (LocalDirectionalDiffusion.diff_cf_ d)
                                      (LocalDirectionalDiffusion.bias_diff_cf_ d) f))
                        <$> material_fiber !! j
                 else LocalDirectionalDiffusion.local_transformed_diffusivity_ d !! j).
Proof.
  induction k as [|k IH]; intros a d Hle Hb Ht; cbn [seq foldM].
  - exists d. repeat split; try assumption; try reflexivity;
      destruct (Nat.leb_spec a j); destruct (Nat.ltb_spec j (a + 0)); try reflexivity; lia.
  - destruct (lookup_lt_is_Some_2 material_fiber a) as [f Hf]; [lia|].
    destruct (lookup_lt_is_Some_2 (LocalDirectionalDiffusion.local_bias_direction_ d) a)
      as [b0 Hb0]; [lia|].
    destruct (lookup_lt_is_Some_2 (LocalDirectionalDiffusion.local_transformed_diffusivity_ d) a)
      as [t0 Ht0]; [lia|].
    unfold LocalDirectionalDiffusion.setup_step at 1.
    rewrite Hf. cbn [mbind option_bind]. rewrite Hb0. cbn [mbind option_bind].
    rewrite Ht0. cbn [mbind option_bind]. cbv zeta.
    match goal with
    | |- exists d', foldM _ _ ?d1 = _ /\ _ => set (s1 := d1)
    end.
    destruct (IH (S a) s1) as (d' & E & A1 & A2 & A3 & A4 & A5).
    { lia. }
    { unfold s1. cbn [LocalDirectionalDiffusion.local_bias_direction_].
      now rewrite length_insert. }
    { unfold s1. cbn [LocalDirectionalDiffusion.local_transformed_diffusivity_].
      now rewrite length_insert. }
    exists d'. split; [exact E|]. split; [exact A1|]. split; [exact A2|].
    split; [exact A3|]. split; [exact A4|].
    intros j. destruct (A5 j) as [B1 B2]. rewrite B1, B2.
    unfold s1.
    cbn [LocalDirectionalDiffusion.local_bias_direction_
         LocalDirectionalDiffusion.local_transformed_diffusivity_
         LocalDirectionalDiffusion.diff_cf_ LocalDirectionalDiffusion.bias_diff_cf_].
    destruct (Nat.leb_spec (S a) j); destruct (Nat.ltb_spec j (S a + k));
      destruct (Nat.leb_spec a j); destruct (Nat.ltb_spec j (a + S k));
      cbn [andb]; try lia;
      first [ split; reflexivity
            | rewrite !list_lookup_insert_ne by lia; split; reflexivity
            | assert (j = a) by lia; subst j;
              rewrite !list_lookup_insert_eq by lia; rewrite Hf; split; reflexivity ].
Qed.

(** X20: On an object whose two local vectors have one length,
    [initializeLocalDiffusionProperties] appends one zero entry per real
    particle to both and keeps what was there; the setup that follows
    terminates the program with status 1, leaving the vectors, exactly when
    the number of fibres differs from the length reached; otherwise it
    returns, and every direction is the fibre of its index and every
    diffusivity the inverse Cholesky factor of the diffusivity matrix of that
    fibre, with the coefficients unchanged. *)
Theorem initialize_then_setupLocalDiffusionProperties (ic : Matd -> Matd)
    (base_particles : BaseParticles) (material_fiber : list Vecd)
    (d : LocalDirectionalDiffusion.State)
    (Hinv : length (LocalDirectionalDiffusion.local_bias_direction_ d)
            = length (LocalDirectionalDiffusion.local_transformed_diffusivity_ d)) :
  let d1 := LocalDirectionalDiffusion.initializeLocalDiffusionProperties base_particles d in
  LocalDirectionalDiffusion.local_bias_direction_ d1
  = LocalDirectionalDiffusion.local_bias_direction_ d
      ++ replicate (total_real_particles_ base_particles) (Vecd_fill 0)
  /\ LocalDirectionalDiffusion.local_transformed_diffusivity_ d1
     = LocalDirectionalDiffusion.local_transformed_diffusivity_ d
         ++ replicate (total_real_particles_ base_particles) (Matd_diag 0)
  /\ (length material_fiber
      <> (length (LocalDirectionalDiffusion.local_bias_direction_ d)
          + total_real_particles_ base_particles)%nat ->
      LocalDirectionalDiffusion.setupLocalDiffusionProperties ic material_fiber d1
      = Some (Exit [" Error:  material properties does not matrch"%string;
                    "diffusion_reaction.cpp:37"%string] 1%Z d1))
  /\ (length material_fiber
      = (length (LocalDirectionalDiffusion.local_bias_direction_ d)
         + total_real_particles_ base_particles)%nat ->
      exists d2,
        LocalDirectionalDiffusion.setupLocalDiffusionProperties ic material_fiber d1
        = Some (Return [" Local diffusion properties setup finished "%string] d2)
        /\ LocalDirectionalDiffusion.local_bias_direction_ d2 = material_fiber
        /\ LocalDirectionalDiffusion.local_transformed_diffusivity_ d2
           = (fun f => ic (diffusivity (LocalDirectionalDiffusion.diff_cf_ d)
                             (LocalDirectionalDiffusion.bias_diff_cf_ d) f))
               <$> material_fiber
        /\ LocalDirectionalDiffusion.diff_cf_ d2 = LocalDirectionalDiffusion.diff_cf_ d
        /\ LocalDirectionalDiffusion.bias_diff_cf_ d2
           = LocalDirectionalDiffusion.bias_diff_cf_ d).
Proof.
  intros d1.
  destruct (initializeLocalDiffusionProperties_appends
              (seq 0 (total_real_particles_ base_particles)) d) as (A1 & A2 & A3 & A4).
  rewrite length_seq in A3, A4.
  fold (LocalDirectionalDiffusion.initializeLocalDiffusionProperties base_particles d)
    in A1, A2, A3, A4.
  fold d1 in A1, A2, A3, A4.
  assert (L1 : length (LocalDirectionalDiffusion.local_bias_direction_ d1)
               = (length (LocalDirectionalDiffusion.local_bias_direction_ d)
                  + total_real_particles_ base_particles)%nat)
    by (rewrite A3, length_app, length_replicate; reflexivity).
  assert (L2 : length (LocalDirectionalDiffusion.local_transformed_diffusivity_ d1)
               = (length (LocalDirectionalDiffusion.local_bias_direction_ d)
                  + total_real_particles_ base_particles)%nat)
    by (rewrite A4, length_app, length_replicate, Hinv; reflexivity).
  split; [exact A3|]. split; [exact A4|]. split.
  - intros Hne. unfold LocalDirectionalDiffusion.setupLocalDiffusionProperties.
    rewrite L1.
    destruct (Nat.eqb_spec (length material_fiber)
                (length (LocalDirectionalDiffusion.local_bias_direction_ d)
                 + total_real_particles_ base_particles)); [contradiction|].
    reflexivity.
  - intros Heq. unfold LocalDirectionalDiffusion.setupLocalDiffusionProperties.
    rewrite L1.
    destruct (Nat.eqb_spec (length material_fiber)
                (length (LocalDirectionalDiffusion.local_bias_direction_ d)
                 + total_real_particles_ base_particles)); [|contradiction].
    cbn [negb].
    destruct (setup_loop ic material_fiber (length material_fiber) 0%nat d1)
      as (d2 & E & B1 & B2 & B3 & B4 & B5); [lia | lia | lia |].
    rewrite E. cbn [mbind option_bind]. exists d2. split; [reflexivity|].
    split; [|split; [|split; congruence]].
    + apply list_eq. intros j. destruct (B5 j) as [C1 _]. rewrite C1.
      destruct (Nat.leb_spec 0 j); [|lia].
      destruct (Nat.ltb_spec j (0 + length material_fiber)); [reflexivity|].
      cbn [andb]. rewrite lookup_ge_None_2 by lia. symmetry. apply lookup_ge_None_2. lia.
    + apply list_eq. intros j. destruct (B5 j) as [_ C2]. rewrite C2, list_lookup_fmap.
      rewrite A1, A2.
      destruct (Nat.leb_spec 0 j); [|lia].
      destruct (Nat.ltb_spec j (0 + length material_fiber)); [reflexivity|].
      cbn [andb]. rewrite lookup_ge_None_2 by lia.
      rewrite (lookup_ge_None_2 material_fiber j) by lia. reflexivity.
Qed.

Lemma initialize_then_setupLocalDiffusionProperties_witness :
  exists d2,
    LocalDirectionalDiffusion.setupLocalDiffusionProperties (fun m => m)
      [mkVecd 1 0; mkVecd 0 1; mkVecd 1 1]
      (LocalDirectionalDiffusion.initializeLocalDiffusionProperties Example.particles
         (LocalDirectionalDiffusion.mkState 1 2 [] []))
    = Some (Return [" Local diffusion properties setup finished "%string] d2)
    /\ LocalDirectionalDiffusion.local_bias_direction_ d2
       = [mkVecd 1 0; mkVecd 0 1; mkVecd 1 1].
Proof.
  destruct (initialize_then_setupLocalDiffusionProperties (fun m => m) Example.particles
              [mkVecd 1 0; mkVecd 0 1; mkVecd 1 1]
              (LocalDirectionalDiffusion.mkState 1 2 [] []) eq_refl)
    as (_ & _ & _ & Hok).
  destruct (Hok eq_refl) as (d2 & E & Hb & _).
  exists d2. split; [exact E | exact Hb].
Defined.

(** ** Reaction rates *)

(** X21: The rates of the Aliev-Panfilov model recombine to the equations of the
    model: for a non-zero [c_m_] and a non-zero [mu_2_ + v + Eps], the
    production rate of the ionic current
    minus its loss rate times the voltage is
    [- (k v (v - a) (v - 1) + v w) / c_m], and the production rate of the gate
    variable minus its loss rate times the gate variable is
    [(epsilon + mu_1 w / (mu_2 + v + Eps)) (- w - k v (v - b - 1))]; the loss
    rate of the gate variable is the factor of its production rate. *)
Theorem AlievPanfilowModel_rates_recombine (Eps : Real) (r : AlievPanfilowModel.State)
    (species : list (list Real)) (particle_i : nat) (v w : Real)
    (Hv : species_at species (AlievPanfilowModel.voltage_ r) particle_i = Some v)
    (Hw : species_at species (AlievPanfilowModel.gate_variable_ r) particle_i = Some w)
    (Hc : ~ AlievPanfilowModel.c_m_ r == 0)
    (Hden : ~ AlievPanfilowModel.mu_2_ r + v + Eps == 0) :
  exists pI lI pG lG,
    AlievPanfilowModel.getProductionRateIonicCurrent r species particle_i = Some pI
    /\ AlievPanfilowModel.getLossRateIonicCurrent r species particle_i = Some lI
    /\ AlievPanfilowModel.getProductionRateGateVariable Eps r species particle_i = Some pG
    /\ AlievPanfilowModel.getLossRateGateVariable Eps r species particle_i = Some lG
    /\ pI - lI * v
       == - (AlievPanfilowModel.k_ r * v * (v - AlievPanfilowModel.a_ r) * (v - 1) + v * w)
          / AlievPanfilowModel.c_m_ r
    /\ pG - lG * w
       == (AlievPanfilowModel.epsilon_ r
           + AlievPanfilowModel.mu_1_ r * w / (AlievPanfilowModel.mu_2_ r + v + Eps))
          * (- w - AlievPanfilowModel.k_ r * v * (v - AlievPanfilowModel.b_ r - 1))
    /\ pG == - lG * AlievPanfilowModel.k_ r * v * (v - AlievPanfilowModel.b_ r - 1).
Proof.
  unfold AlievPanfilowModel.getProductionRateIonicCurrent,
    AlievPanfilowModel.getLossRateIonicCurrent,
    AlievPanfilowModel.getProductionRateGateVariable,
    AlievPanfilowModel.getLossRateGateVariable.
  rewrite Hv, Hw. cbn [mbind option_bind]. cbv zeta.
  eexists _, _, _, _. repeat (split; [reflexivity|]).
  set (temp := AlievPanfilowModel.epsilon_ r
               + AlievPanfilowModel.mu_1_ r * w / (AlievPanfilowModel.mu_2_ r + v + Eps)).
  clearbody temp.
  split; [field; exact Hc|]. split; ring.
Qed.

Lemma AlievPanfilowModel_rates_recombine_witness :
  exists pI lI,
    AlievPanfilowModel.getProductionRateIonicCurrent
      (AlievPanfilowModel.mkState 8 (1 # 10) (1 # 10) 1 (1 # 5) (3 # 10) (1 # 500) 0 1)
      [[1 # 2]; [1]] 0 = Some pI
    /\ AlievPanfilowModel.getLossRateIonicCurrent
         (AlievPanfilowModel.mkState 8 (1 # 10) (1 # 10) 1 (1 # 5) (3 # 10) (1 # 500) 0 1)
         [[1 # 2]; [1]] 0 = Some lI
    /\ pI - lI * (1 # 2) == 3 # 10.
Proof.
  destruct (AlievPanfilowModel_rates_recombine (1 # 1000000)
              (AlievPanfilowModel.mkState 8 (1 # 10) (1 # 10) 1 (1 # 5) (3 # 10) (1 # 500) 0 1)
              [[1 # 2]; [1]] 0 (1 # 2) 1)
    as (pI & lI & pG & lG & E1 & E2 & _ & _ & H1 & _).
  - reflexivity.
  - reflexivity.
  - discriminate.
  - discriminate.
  - exists pI, lI. split; [exact E1|]. split; [exact E2|]. rewrite H1. reflexivity.
Defined.

(** X22: The production rate of the active contraction stress is its loss rate
    times [k_a_] times the voltage in millivolt above the resting value -80,
    that is times 100 times the voltage, whatever the exponential function
    is; so it vanishes at zero voltage. *)
Theorem ActiveContractionStress_production_is_loss_scaled (exp : Real -> Real)
    (r : ElectroPhysiologyReaction.State) (species : list (list Real))
    (particle_i : nat) (v : Real)
    (Hv : species_at species (ElectroPhysiologyReaction.voltage_ r) particle_i = Some v) :
  exists production loss,
    ElectroPhysiologyReaction.getProductionActiveContractionStress exp r species particle_i
    = Some production
    /\ ElectroPhysiologyReaction.getLossRateActiveContractionStress exp r species particle_i
       = Some loss
    /\ production == loss * ElectroPhysiologyReaction.k_a_ r * (100 * v)
    /\ (v == 0 -> production == 0).
Proof.
  unfold ElectroPhysiologyReaction.getProductionActiveContractionStress,
    ElectroPhysiologyReaction.getLossRateActiveContractionStress.
  rewrite Hv. cbn [mbind option_bind]. cbv zeta.
  eexists _, _. split; [reflexivity|]. split; [reflexivity|].
  set (e := exp (- exp (- (v * 100 - 80)))). clearbody e.
  split; [ring|]. intros Hz.
  assert (E : v * 100 - 80 + 80 == 0) by (rewrite Hz; ring).
  rewrite E. ring.
Qed.

Lemma ActiveContractionStress_production_is_loss_scaled_witness :
  exists production,
    ElectroPhysiologyReaction.getProductionActiveContractionStress (fun x => 1)
      (ElectroPhysiologyReaction.mkState 2 0 1 2) [[1 # 2]; [1]; [0]] 0 = Some production
    /\ production == 1 * 2 * (100 * (1 # 2)).
Proof.
  destruct (ActiveContractionStress_production_is_loss_scaled (fun x => 1)
              (ElectroPhysiologyReaction.mkState 2 0 1 2) [[1 # 2]; [1]; [0]] 0 (1 # 2) eq_refl)
    as (production & loss & E1 & E2 & H & _).
  exists production. split; [exact E1|].
  assert (E2' : ElectroPhysiologyReaction.getLossRateActiveContractionStress (fun x => 1)
                  (ElectroPhysiologyReaction.mkState 2 0 1 2) [[1 # 2]; [1]; [0]] 0
                = Some loss) by exact E2.
  vm_compute in E2'. injection E2' as <-. rewrite H. reflexivity.
Defined.

(** ** The parallel update passes *)

Lemma ghosts_updated_unique gp gv L gs gs' ps ps1 ps2 :
  ghosts_updated gp gv gs ps ps1 ->
  ghosts_updated gp gv gs' ps ps2 ->
  (forall g, In g gs' <-> In g gs) ->
  ghosts_point_below L gs ps ->
  ps2 = ps1.
Proof.
  intros U1 U2 Hsame Hgs.
  pose proof U1 as (S1 & T1 & N1 & L1 & Uold1 & Unew1).
  pose proof U2 as (S2 & T2 & N2 & L2 & Uold2 & Unew2).
  assert (Hall : forall j,
            pos_n_ ps2 !! j = pos_n_ ps1 !! j
            /\ vel_n_ ps2 !! j = vel_n_ ps1 !! j
            /\ dvel_dt_others_ ps2 !! j = dvel_dt_others_ ps1 !! j).
  { intros j. destruct (in_dec Nat.eq_dec j gs) as [Hj|Hj].
    - destruct (Hgs j Hj) as (_ & o & Ho & _).
      destruct (Unew1 j o Hj Ho) as (A1 & A2 & A3).
      destruct (Unew2 j o (proj2 (Hsame j) Hj) Ho) as (B1 & B2 & B3).
      rewrite A1, A2, A3, B1, B2, B3. auto.
    - destruct (Uold1 j Hj) as (A1 & A2 & A3).
      destruct (Uold2 j) as (B1 & B2 & B3); [intros H; apply Hj, Hsame, H|].
      rewrite A1, A2, A3, B1, B2, B3. auto. }
  apply particles_eq; try congruence; intros j; apply Hall.
Qed.

Lemma ghosts_point_below_same L gs gs' ps :
  (forall g, In g gs' <-> In g gs) ->
  ghosts_point_below L gs ps ->
  ghosts_point_below L gs' ps.
Proof. intros Hsame Hgs g Hg. apply Hgs, Hsame, Hg. Qed.

(** X23: The parallel update passes return what the sequential ones return, in
    whatever order the iterations over the ghost lists take effect: each
    iteration writes the ghost of its own index only and reads its origin,
    a real particle that no iteration writes. *)
Theorem ghost_update_parallel_exec_order_independent (T : Vecd) (positive : bool)
    (b : BoundingInAxisDirection) (st : GhostState) (order_lower order_upper : list nat)
    (Hwf : particles_wf (particles_ st))
    (Hlow : ghosts_point_below (total_real_particles_ (particles_ st))
              (ghosts_lower_ st) (particles_ st))
    (Hupp : ghosts_point_below (total_real_particles_ (particles_ st))
              (ghosts_upper_ st) (particles_ st))
    (Hpl : Permutation order_lower (ghosts_lower_ st))
    (Hpu : Permutation order_upper (ghosts_upper_ st)) :
  (exists st',
      UpdatePeriodicGhostParticles.exec T st = Some st'
      /\ UpdatePeriodicGhostParticles.parallel_exec order_lower order_upper T st = Some st')
  /\ (exists st',
         UpdatingGhostStates.exec positive b st = Some st'
         /\ UpdatingGhostStates.parallel_exec order_lower positive b st = Some st').
Proof.
  set (L := total_real_particles_ (particles_ st)) in *.
  assert (Hsl : forall g, In g order_lower <-> In g (ghosts_lower_ st)).
  { intros g. split; apply Permutation_in; [exact Hpl | now symmetry]. }
  assert (Hsu : forall g, In g order_upper <-> In g (ghosts_upper_ st)).
  { intros g. split; apply Permutation_in; [exact Hpu | now symmetry]. }
  pose proof (ghosts_point_below_same _ _ _ _ Hsl Hlow) as Hlow'.
  pose proof (ghosts_point_below_same _ _ _ _ Hsu Hupp) as Hupp'.
  split.
  - destruct (periodic_update_closed_form T st L Hwf Hlow Hupp)
      as (ps1 & ps2 & E & U1 & U2 & Hwf1 & Hwf2).
    eexists. split; [exact E|].
    destruct (update_pass_closed_form
                (fun g s => UpdatePeriodicGhostParticles.checkLowerBound T g s)
                (fun p => Vecd_add p T) (fun v => v)
                (periodic_update_lower_spec T) L order_lower (particles_ st) Hwf Hlow')
      as (ps1' & E1' & U1' & _).
    assert (ps1' = ps1) by (eapply ghosts_updated_unique; eassumption). subst ps1'.
    destruct (update_pass_closed_form
                (fun g s => UpdatePeriodicGhostParticles.checkUpperBound T g s)
                (fun p => Vecd_sub p T) (fun v => v)
                (periodic_update_upper_spec T) L order_upper ps1 Hwf1
                (ghosts_point_below_updated _ _ _ _ _ _ _ U1 Hupp'))
      as (ps2' & E2' & U2' & _).
    assert (ps2' = ps2).
    { eapply ghosts_updated_unique; [exact U2 | exact U2' | exact Hsu |].
      exact (ghosts_point_below_updated _ _ _ _ _ _ _ U1 Hupp). }
    subst ps2'.
    unfold UpdatePeriodicGhostParticles.parallel_exec.
    rewrite E1'. cbn [mbind option_bind]. rewrite E2'. reflexivity.
  - destruct (mirror_update_closed_form positive b st L Hwf Hlow) as (ps' & E & U & _).
    eexists. split; [exact E|].
    destruct (update_pass_closed_form
                (fun g s => UpdatingGhostStates.checking_bound_update_ positive b g s)
                (mirrored_position (mirror_bound positive b) (axis_ b))
                (mirrored_velocity (axis_ b))
                (mirror_update_spec positive b) L order_lower (particles_ st) Hwf Hlow')
      as (ps1' & E1' & U1' & _).
    assert (ps1' = ps') by (eapply ghosts_updated_unique; eassumption). subst ps1'.
    unfold UpdatingGhostStates.parallel_exec. rewrite E1'. reflexivity.
Qed.

Lemma ghost_update_parallel_exec_order_independent_witness :
  exists st',
    UpdatePeriodicGhostParticles.exec (mkVecd 4 0)
      (mkGhostState ExampleGhosts.particles Example.mesh [3%nat; 4%nat] []) = Some st'
    /\ UpdatePeriodicGhostParticles.parallel_exec [4%nat; 3%nat] [] (mkVecd 4 0)
         (mkGhostState ExampleGhosts.particles Example.mesh [3%nat; 4%nat] []) = Some st'.
Proof.
  destruct (ghost_update_parallel_exec_order_independent (mkVecd 4 0) false Example.bounding
              (mkGhostState ExampleGhosts.particles Example.mesh [3%nat; 4%nat] [])
              [4%nat; 3%nat] [] ExampleGhosts_particles_wf) as [Hper _].
  - intros g [<-|[<-|[]]].
    + exact (proj1 ExampleGhosts_point_below 3%nat (or_introl eq_refl)).
    + exact (proj2 ExampleGhosts_point_below 4%nat (or_introl eq_refl)).
  - intros g [].
  - apply perm_swap.
  - apply perm_nil.
  - exact Hper.
Defined.
